(** * Block-Gibbs sampler for single-pulsar timing analysis

    A shallow embedding of [pulsar_gibbs.py] (class [PulsarBlockGibbs])
    and the properties of its scheduler, block samplers and likelihood
    evaluators.

    Conventions of the embedding:
    - a numpy [float64] is a [float]: a real number or one of the special
      values [+inf], [-inf], [nan]; arithmetic on finite values is exact
      (rounding and overflow are not represented), the special values
      follow IEEE-754 as numpy applies it;
    - numpy arrays that are shared or updated in place live in a heap of
      arrays and are named by their address; [copy] allocates;
    - the collaborators that are not part of this repository (the noise
      model, numpy's random generator, scipy's factorizations, the
      autocorrelation estimator, the adaptive Metropolis engine) are
      parameters of the development;
    - a Python exception is an explicit outcome. *)

From Stdlib Require Import Reals Lra Lia ZArith List String Ascii Bool.
From stdpp Require Import gmap strings list fin_maps.
Import ListNotations.

(** ** Floating-point values *)

Module Float.

Inductive float : Type :=
| Fin (r : R)
| PInf
| NInf
| NaN.

Definition Rltb (a b : R) : bool := if Rlt_dec a b then true else false.
Definition Reqb (a b : R) : bool := if Req_dec_T a b then true else false.

Definition of_Z (z : Z) : float := Fin (IZR z).
Definition of_nat (n : nat) : float := Fin (INR n).

Definition opp (x : float) : float :=
  match x with
  | Fin a => Fin (- a)
  | PInf => NInf
  | NInf => PInf
  | NaN => NaN
  end.

Definition add (x y : float) : float :=
  match x, y with
  | NaN, _ | _, NaN => NaN
  | Fin a, Fin b => Fin (a + b)
  | PInf, NInf | NInf, PInf => NaN
  | PInf, _ | _, PInf => PInf
  | NInf, _ | _, NInf => NInf
  end.

Definition sub (x y : float) : float := add x (opp y).

(** The infinity whose sign is that of [a]; [nan] for zero. *)
Definition signed_inf (a : R) : float :=
  if Rltb 0 a then PInf else if Rltb a 0 then NInf else NaN.

Definition mul (x y : float) : float :=
  match x, y with
  | NaN, _ | _, NaN => NaN
  | Fin a, Fin b => Fin (a * b)
  | Fin a, PInf | PInf, Fin a => signed_inf a
  | Fin a, NInf | NInf, Fin a => signed_inf (- a)
  | PInf, PInf | NInf, NInf => PInf
  | PInf, NInf | NInf, PInf => NInf
  end.

(** numpy division: a zero divisor gives an infinity or [nan], never an
    exception (the sign of a zero divisor is not represented). *)
Definition div (x y : float) : float :=
  match x, y with
  | NaN, _ | _, NaN => NaN
  | Fin a, Fin b => if Reqb b 0 then signed_inf a else Fin (a / b)
  | Fin _, (PInf | NInf) => Fin 0
  | PInf, Fin b => if Rltb b 0 then NInf else PInf
  | NInf, Fin b => if Rltb b 0 then PInf else NInf
  | (PInf | NInf), (PInf | NInf) => NaN
  end.

(** [np.log] *)
Definition log (x : float) : float :=
  match x with
  | Fin a => if Rltb 0 a then Fin (ln a) else if Reqb a 0 then NInf else NaN
  | PInf => PInf
  | NInf | NaN => NaN
  end.

(** [np.exp] *)
Definition exp (x : float) : float :=
  match x with
  | Fin a => Fin (Rtrigo_def.exp a)
  | PInf => PInf
  | NInf => Fin 0
  | NaN => NaN
  end.

(** [np.log10] *)
Definition log10 (x : float) : float := div (log x) (Fin (ln 10)).

(** [10**x] *)
Definition pow10 (x : float) : float := exp (mul x (Fin (ln 10))).

(** [x**0.5] and [np.sqrt] *)
Definition sqrt (x : float) : float :=
  match x with
  | Fin a => if Rltb a 0 then NaN else Fin (R_sqrt.sqrt a)
  | PInf => PInf
  | NInf | NaN => NaN
  end.

(** Comparisons; every ordered comparison with [nan] is false and
    [nan != x] is true. *)
Definition ltb (x y : float) : bool :=
  match x, y with
  | NaN, _ | _, NaN => false
  | Fin a, Fin b => Rltb a b
  | NInf, (Fin _ | PInf) => true
  | Fin _, PInf => true
  | _, _ => false
  end.

Definition gtb (x y : float) : bool := ltb y x.

Definition eqb (x y : float) : bool :=
  match x, y with
  | Fin a, Fin b => Reqb a b
  | PInf, PInf | NInf, NInf => true
  | _, _ => false
  end.

Definition neb (x y : float) : bool := negb (eqb x y).

(** [np.logaddexp(x, y) = log(exp(x) + exp(y))] *)
Definition logaddexp (x y : float) : float := log (add (exp x) (exp y)).

Definition sum (l : list float) : float := fold_left add l (Fin 0).

End Float.

Export Float (float, Fin, PInf, NInf, NaN).

Declare Scope float_scope.
Delimit Scope float_scope with flt.
Bind Scope float_scope with float.
Notation "x + y" := (Float.add x y) : float_scope.
Notation "x - y" := (Float.sub x y) : float_scope.
Notation "x * y" := (Float.mul x y) : float_scope.
Notation "x / y" := (Float.div x y) : float_scope.
Notation "- x" := (Float.opp x) : float_scope.

(** ** The analytic draw of a free-spectrum variance

    [update_gwrho_params], branch [self.red_sig is None]:
<<
    eta = np.random.uniform(0, 1-np.exp((tau/self.rhomax) - (tau/self.rhomin)))
    rhonew = tau / ((tau/self.rhomax) - np.log(1-eta))
>>
    one frequency at a time. *)

Definition eta_upper (rhomin rhomax tau : float) : float :=
  (Fin 1 - Float.exp (tau / rhomax - tau / rhomin))%flt.

Definition rhonew_analytic (rhomax tau eta : float) : float :=
  (tau / (tau / rhomax - Float.log (Fin 1 - eta)))%flt.

(** ** Python exceptions and the state-and-exception monad *)

Inductive exn : Type :=
| IndexError
| UnboundLocalError
| TypeError (msg : string)
| ValueError
| AttributeError
| OverflowError
| FileNotFoundError (path : string)
| LinAlgError
| RuntimeError.

(** The result of running a statement: a value or a raised exception,
    with the state reached in both cases. *)
Inductive outcome (St A : Type) : Type :=
| Ok (a : A) (s : St)
| Raise (e : exn) (s : St).
Arguments Ok {St A} a s.
Arguments Raise {St A} e s.

Definition M (St A : Type) : Type := St -> outcome St A.

Definition ret {St A} (a : A) : M St A := fun s => Ok a s.

Definition bind {St A B} (c : M St A) (k : A -> M St B) : M St B :=
  fun s => match c s with
           | Ok a s' => k a s'
           | Raise e s' => Raise e s'
           end.

Definition raise {St A} (e : exn) : M St A := fun s => Raise e s.

Definition get {St} : M St St := fun s => Ok s s.
Definition put {St} (s : St) : M St unit := fun _ => Ok tt s.
Definition gets {St A} (f : St -> A) : M St A := fun s => Ok (f s) s.
Definition modify {St} (f : St -> St) : M St unit := fun s => Ok tt (f s).

(** A pure step that may fail. *)
Definition lift_result {St A} (r : exn + A) : M St A :=
  match r with
  | inl e => raise e
  | inr a => ret a
  end.

Declare Scope monad_scope.
Delimit Scope monad_scope with monad.
Notation "x <- c ;; k" := (bind c (fun x => k))
  (at level 100, c at next level, right associativity) : monad_scope.
Notation "c ;;; k" := (bind c (fun _ => k))
  (at level 100, right associativity) : monad_scope.
Local Open Scope monad_scope.

(** [for i in range(lo, lo + n): acc = body(i, acc)] *)
Fixpoint for_range {St A} (n lo : nat) (body : nat -> A -> M St A) (acc : A) : M St A :=
  match n with
  | O => ret acc
  | S n' => acc' <- body lo acc ;; for_range n' (S lo) body acc'
  end.

(** [[f(x) for x in l]] *)
Fixpoint map_M {St A B} (f : A -> M St B) (l : list A) : M St (list B) :=
  match l with
  | [] => ret []
  | x :: l' => y <- f x ;; ys <- map_M f l' ;; ret (y :: ys)
  end.

(** Same, for a pure fallible function. *)
Fixpoint map_result {A B} (f : A -> exn + B) (l : list A) : exn + list B :=
  match l with
  | [] => inr []
  | x :: l' =>
      match f x with
      | inl e => inl e
      | inr y => match map_result f l' with
                 | inl e => inl e
                 | inr ys => inr (y :: ys)
                 end
      end
  end.

(** ** Outcomes of statements *)

Section Outcomes.

Context {St : Type}.

(** The state a statement ends in, returning or raising. *)
Definition final {A} (o : outcome St A) : St :=
  match o with
  | Ok _ s => s
  | Raise _ s => s
  end.

(** [post m s Q QE]: from [s], [m] returns a value and state in [Q] or
    raises in a state in [QE]. *)
Definition post {A} (m : M St A) (s : St) (Q : A -> St -> Prop) (QE : St -> Prop) : Prop :=
  match m s with
  | Ok a s' => Q a s'
  | Raise _ s' => QE s'
  end.

(** A relation between the states before and after a statement that
    holds however the statement ends. *)
Definition keeps (R : St -> St -> Prop) {A} (m : M St A) : Prop :=
  forall s, R s (final (m s)).

End Outcomes.

(** ** Python strings *)

(** [needle in hay] *)
Fixpoint py_in (needle hay : string) : bool :=
  String.prefix needle hay ||
  match hay with
  | EmptyString => false
  | String _ hay' => py_in needle hay'
  end.

(** [hay.split(sep)] for a non-empty separator; [cur] is the piece read
    so far. *)
Fixpoint split_aux (sep : string) (fuel : nat) (hay : string) (cur : string) : list string :=
  match fuel with
  | O => [cur]
  | S fuel' =>
      match hay with
      | EmptyString => [cur]
      | String c hay' =>
          if String.prefix sep hay
          then cur :: split_aux sep fuel'
                 (String.substring (String.length sep) (String.length hay) hay) EmptyString
          else split_aux sep fuel' hay' (cur +:+ String c EmptyString)
      end
  end.

Definition py_split (sep hay : string) : list string :=
  split_aux sep (S (String.length hay)) hay EmptyString.

(** [l[i]] for a non-negative index. *)
Definition item {A} (l : list A) (i : nat) : exn + A :=
  match l !! i with
  | Some x => inr x
  | None => inl IndexError
  end.

(** [l[i]] for any integer index: a negative index counts from the end. *)
Definition py_item {A} (l : list A) (i : Z) : exn + A :=
  if (0 <=? i)%Z then item l (Z.to_nat i)
  else if (0 <=? Z.of_nat (length l) + i)%Z
       then item l (Z.to_nat (Z.of_nat (length l) + i))
       else inl IndexError.

(** [str(ii)] for a non-negative integer. *)
Definition digit_of (n : nat) : ascii := ascii_of_nat (48 + n).

Fixpoint str_nat_aux (fuel n : nat) (acc : string) : string :=
  match fuel with
  | O => acc
  | S fuel' =>
      let acc' := String (digit_of (n mod 10)) acc in
      if (n / 10 =? 0)%nat then acc' else str_nat_aux fuel' (n / 10) acc'
  end.

Definition str_nat (n : nat) : string := str_nat_aux (S n) n EmptyString.

(** [int(x)] for a float: truncation toward zero. *)
Definition R_trunc (a : R) : Z :=
  if Float.Rltb a 0 then (- Int_part (- a))%Z else Int_part a.

Definition py_int (x : float) : exn + Z :=
  match x with
  | Fin a => inr (R_trunc a)
  | PInf | NInf => inl OverflowError
  | NaN => inl ValueError
  end.

(** [np.max] of a list of integers. *)
Definition np_max_Z (l : list Z) : exn + Z :=
  match l with
  | [] => inl ValueError
  | z :: l' => inr (fold_left Z.max l' z)
  end.

(** Sequencing of pure fallible steps. *)
Definition and_then {A B} (r : exn + A) (k : A -> exn + B) : exn + B :=
  match r with
  | inl e => inl e
  | inr a => k a
  end.
Notation "x <~ c ;; k" := (and_then c (fun x => k))
  (at level 100, c at next level, right associativity) : monad_scope.

(** ** numpy arrays *)

Abbreviation vec := (list float) (only parsing).
(** A two-dimensional array, as the list of its rows. *)
Abbreviation matrix := (list (list float)) (only parsing).

(** [m.shape[1]] *)
Definition ncols (m : matrix) : nat :=
  match m with
  | [] => 0
  | r :: _ => length r
  end.

Definition np_zeros (n : nat) : vec := replicate n (Fin 0).

(** Element-wise operations on arrays of equal shapes. *)
Definition vmap2 (f : float -> float -> float) (u v : vec) : vec := zip_with f u v.

Definition column (j : nat) (m : matrix) : vec := map (fun r => nth j r (Fin 0)) m.

(** [m.T] *)
Definition transpose (m : matrix) : matrix := map (fun j => column j m) (seq 0 (ncols m)).

Definition vdot (u v : vec) : float := Float.sum (vmap2 Float.mul u v).

(** [np.dot] of a matrix and a vector, and of two matrices. *)
Definition mat_vec (m : matrix) (v : vec) : vec := map (fun r => vdot r v) m.
Definition mat_mul (a b : matrix) : matrix :=
  map (fun r => map (fun c => vdot r c) (transpose b)) a.

Definition mat_add (a b : matrix) : matrix := zip_with (vmap2 Float.add) a b.

(** [np.diag] of a vector and of a matrix. *)
Definition np_diag (v : vec) : matrix :=
  imap (fun i x => replicate i (Fin 0) ++ x :: replicate (length v - S i) (Fin 0)) v.
Definition diag_of (m : matrix) : vec := imap (fun i r => nth i r (Fin 0)) m.

(** [m / v[:,None]]: row [i] divided by [v[i]]. *)
Definition rows_div (m : matrix) (v : vec) : matrix :=
  zip_with (fun r x => map (fun y => Float.div y x) r) m v.

(** [m * v]: column [j] multiplied by [v[j]]. *)
Definition cols_mul (m : matrix) (v : vec) : matrix :=
  map (fun r => vmap2 Float.mul r v) m.

(** [v[::2]] and [v[1::2]] *)
Fixpoint evens {A} (l : list A) : list A :=
  match l with
  | [] => []
  | x :: l' => x :: match l' with [] => [] | _ :: l'' => evens l'' end
  end.
Definition odds {A} (l : list A) : list A :=
  match l with
  | [] => []
  | _ :: l' => evens l'
  end.

(** [v[ind]] for an array of indices. *)
Definition take_indices {A} (v : list A) (ind : list nat) : exn + list A :=
  map_result (item v) ind.

(** [v[ind] = vals]: the values are as many as the indices, or a single
    value that is broadcast. *)
Fixpoint put_each (v : vec) (ind : list nat) (vals : vec) : vec :=
  match ind, vals with
  | i :: ind', x :: vals' => put_each (<[i := x]> v) ind' vals'
  | _, _ => v
  end.

Definition put_indices (v : vec) (ind : list nat) (vals : vec) : exn + vec :=
  if forallb (fun i => i <? length v) ind
  then if length vals =? length ind then inr (put_each v ind vals)
       else match vals with
            | [x] => inr (put_each v ind (replicate (length ind) x))
            | _ => inl ValueError
            end
  else inl IndexError.

(** [m[i, :] = v] for a row of width [n]: same width, or one value that
    is broadcast. *)
Definition broadcast_row (n : nat) (v : vec) : exn + vec :=
  if length v =? n then inr v
  else match v with
       | [x] => inr (replicate n x)
       | _ => inl ValueError
       end.

(** Element-wise combination of two one-dimensional arrays under numpy's
    broadcasting rule: equal lengths, or one operand of length one. *)
Definition broadcast2 {A B C} (f : A -> B -> C) (u : list A) (v : list B) : exn + list C :=
  if length u =? length v then inr (zip_with f u v)
  else match u, v with
       | [x], _ => inr (map (f x) v)
       | _, [y] => inr (map (fun x => f x y) u)
       | _, _ => inl ValueError
       end.

(** [np.dot(m, v)] and [np.dot(a, b)] with their shape checks. *)
Definition dot_mv (m : matrix) (v : vec) : exn + vec :=
  if forallb (fun r => length r =? length v) m then inr (mat_vec m v) else inl ValueError.
Definition dot_mm (a b : matrix) : exn + matrix :=
  if forallb (fun r => length r =? length b) a then inr (mat_mul a b) else inl ValueError.

(** [a[:k] = src] for arrays of rows of width [n], [r] being the number
    of rows of [a[:k]]. *)
Definition broadcast_rows (r n : nat) (src : matrix) : exn + matrix :=
  match map_result (broadcast_row n) src with
  | inl e => inl e
  | inr rows =>
      if length rows =? r then inr rows
      else match rows with
           | [row] => inr (replicate r row)
           | _ => inl ValueError
           end
  end.

(** [np.argmax]: the first position of the maximum; a [nan] counts as
    the maximum. *)
Definition is_nan (x : float) : bool :=
  match x with
  | NaN => true
  | _ => false
  end.

Fixpoint argmax_from (l : vec) (i best : nat) (bestv : float) : nat :=
  match l with
  | [] => best
  | x :: l' =>
      if negb (is_nan bestv) && (is_nan x || Float.gtb x bestv)
      then argmax_from l' (S i) i x
      else argmax_from l' (S i) best bestv
  end.

Definition np_argmax (l : vec) : exn + nat :=
  match l with
  | [] => inl ValueError
  | x :: l' => inr (argmax_from l' 1 0 x)
  end.

(** [np.linspace(a, b, num)] *)
Definition np_linspace (a b : float) (num : nat) : vec :=
  map (fun i => if (0 <? i)%nat && (S i =? num)%nat then b
                else (a + Float.of_nat i * ((b - a) / Float.of_nat (num - 1)))%flt)
      (seq 0 num).

(** ** The process environment: array memory, files, console, generator *)

Abbreviation addr := nat (only parsing).

Inductive file : Type :=
| TextLines (lines : list string)      (* written by [np.savetxt] *)
| NpyArray (m : matrix).               (* written by [np.save] *)

(** Observable actions, most recent first. *)
Inductive event : Type :=
| EvPrint (msg : string)
| EvMkdir (path : string)
| EvSavetxt (path : string)
| EvSave (path : string) (rows : nat)
| EvLoadtxt (path : string)
| EvRmtree (path : string).

Record Env : Type := {
  heap : list vec;
  fs : gmap string file;
  trace : list event;
  draws : nat
}.

Definition set_heap (h : list vec) (e : Env) : Env :=
  {| heap := h; fs := fs e; trace := trace e; draws := draws e |}.
Definition set_fs (f : gmap string file) (e : Env) : Env :=
  {| heap := heap e; fs := f; trace := trace e; draws := draws e |}.
Definition log_event (ev : event) (e : Env) : Env :=
  {| heap := heap e; fs := fs e; trace := ev :: trace e; draws := draws e |}.
Definition set_draws (n : nat) (e : Env) : Env :=
  {| heap := heap e; fs := fs e; trace := trace e; draws := n |}.

(** ** The noise model (enterprise), as this class uses it *)

(** A value of the dictionary built by [map_params]. *)
Inductive pvalue : Type :=
| PFloat (x : float)
| PArray (v : vec).

Abbreviation pdict := (gmap string pvalue) (only parsing).

Record Param : Type := {
  par_name : string;
  par_size : option nat;                 (* [p.size]; [None] for a scalar *)
  par_repr : string;                     (* [str(p.params[0])] *)
  par_sample : nat -> pvalue;            (* [p.sample()] at a generator state *)
  par_get_logpdf : pdict -> float
}.

Record Signal : Type := {
  sig_class_name : string;               (* [__class__.__name__] *)
  sig_name : string;
  sig_basis_ncols : option nat;          (* [get_basis().shape[1]]; [None] for no basis *)
  sig_get_phi : pdict -> vec
}.

(** The argument of [pta.get_basis]: absent, a list of samples, or a
    parameter dictionary. *)
Inductive basis_arg : Type :=
| BNone
| BList (xs : list pvalue)
| BDict (params : pdict).

Record PTA : Type := {
  pta_pulsars : list string;
  pta_signals : list (string * Signal);  (* an ordered dictionary *)
  pta_params : list Param;
  pta_get_residuals : list vec;
  pta_get_basis : basis_arg -> list matrix;
  pta_get_ndiag : pdict -> list vec;
  pta_get_phiinv : pdict -> list vec;              (* [logdet=False] *)
  pta_get_phiinv_logdet : pdict -> list (vec * float)  (* [logdet=True] *)
}.

(** An enterprise pulsar: only its backend flags are read. *)
Record Pulsar : Type := { psr_flags_f : list string }.

(** ** Collaborators outside this repository *)

(** Which bound method the Metropolis engine uses as log-likelihood. *)
Inductive logl_method : Type :=
| LoglFullmarg                 (* [self.get_lnlikelihood_fullmarg] *)
| LoglRed.                     (* [self.get_lnlikelihood_red] *)

(** The fields of a [PTSampler] object that this class reads or
    overwrites, and the rest of the engine's state. *)
Record PTSampler (E : Type) : Type := {
  pt_ndim : nat;
  pt_logl : logl_method;
  pt_cov : matrix;
  pt_groups : list (list nat);
  pt_U : list matrix;
  pt_S : list vec;
  pt_state : E
}.
Arguments pt_ndim {E} _.
Arguments pt_logl {E} _.
Arguments pt_cov {E} _.
Arguments pt_groups {E} _.
Arguments pt_U {E} _.
Arguments pt_S {E} _.
Arguments pt_state {E} _.

Record Externals : Type := {
  (** [numpy.random]: the value drawn when [n] draws were made before *)
  random_sample : nat -> R;              (* uniform on [0, 1) *)
  standard_normal : nat -> R;
  standard_gumbel : nat -> R;
  randint : nat -> nat;                  (* reduced modulo the population size *)
  (** Python's [float(str)] *)
  py_float : string -> exn + float;
  (** numpy and scipy linear algebra *)
  np_cov : matrix -> matrix;             (* [rowvar=False] *)
  np_linalg_svd : matrix -> exn + (matrix * vec * matrix);
  sl_svd : matrix -> exn + (matrix * vec * matrix);
  sl_qr : matrix -> exn + (matrix * matrix);
  sl_solve : matrix -> matrix -> exn + matrix;
  sl_cho_factor : matrix -> exn + matrix;
  sl_cho_solve : matrix -> vec -> exn + vec;
  (** the text parser behind [np.loadtxt] *)
  np_loadtxt_parse : list string -> exn + matrix;
  (** [acor.acor]: (tau, mean, sigma) *)
  acor_acor : vec -> exn + (float * float * float);
  (** [selections.by_backend]: backend name and row mask *)
  selections_by_backend : list string -> list (string * list bool);
  (** [PTMCMCSampler.PTSampler] *)
  engine_state : Type;
  ptmcmc_init : nat -> logl_method -> matrix -> string -> PTSampler engine_state;
  (** [sample(p0, Niter, SCAMweight, AMweight, DEweight, isave, burn)];
      the callbacks are the log-likelihood and the log-prior; the last
      argument and result are the draw counter *)
  ptmcmc_sample :
    PTSampler engine_state -> (vec -> exn + float) -> (vec -> exn + float) ->
    vec -> nat -> nat -> nat -> nat -> nat -> Z -> nat ->
    exn + (PTSampler engine_state * nat);
  (** [PTMCMCOneStep(p0, lnlike0, lnprob0, iter)] *)
  PTMCMCOneStep :
    PTSampler engine_state -> (vec -> exn + float) -> (vec -> exn + float) ->
    vec -> float -> float -> nat -> nat ->
    exn + (vec * float * float * PTSampler engine_state * nat)
}.

(** ** The sampler object *)

Section Model.

Context (X : Externals).

(** Attributes assigned once, by [__init__]. *)
Record Setup : Type := {
  self_pta : PTA;
  self_pulsar_name : string;
  self_hypersample : string;
  self_ecorrsample : string;
  self_residuals : vec;
  self_rhomin : float;
  self_rhomax : float;
  self_b_param_names : list string;
  self_gwid : option (list nat);
  self_ecid : option (list nat);
  self_ecorr_bounds : option (float * float);          (* [ecorrmin], [ecorrmax] *)
  self_ecorr_sel :                                      (* [Umat], [sel], [ecorr_inds_sel] *)
    option (matrix * list (string * list bool) * list (list nat));
  self_red_sig : option Signal;
  self_gw_sig : option Signal
}.

(** The whole object: the attributes above and those reassigned while
    sampling. *)
Record Gibbs : Type := {
  setup : Setup;
  self_b : vec;                                          (* [self._b] *)
  self_TNT : option matrix;
  self_d : option vec;
  self_cov_white : option matrix;
  self_sigma_white : option vec;
  self_svd_white : option (matrix * vec * matrix);
  self_aclength_white : option Z;
  self_ptsampler_rn : option (PTSampler (engine_state X));
  self_chain : list addr;                                (* the rows of [self.chain] *)
  self_bchain : matrix;
  self_iter : nat
}.

Definition set_b (b : vec) (g : Gibbs) : Gibbs :=
  {| setup := setup g;
     self_b := b;
     self_TNT := self_TNT g;
     self_d := self_d g;
     self_cov_white := self_cov_white g;
     self_sigma_white := self_sigma_white g;
     self_svd_white := self_svd_white g;
     self_aclength_white := self_aclength_white g;
     self_ptsampler_rn := self_ptsampler_rn g;
     self_chain := self_chain g;
     self_bchain := self_bchain g;
     self_iter := self_iter g |}.

Definition set_TNT (tnt : option matrix) (g : Gibbs) : Gibbs :=
  {| setup := setup g;
     self_b := self_b g;
     self_TNT := tnt;
     self_d := self_d g;
     self_cov_white := self_cov_white g;
     self_sigma_white := self_sigma_white g;
     self_svd_white := self_svd_white g;
     self_aclength_white := self_aclength_white g;
     self_ptsampler_rn := self_ptsampler_rn g;
     self_chain := self_chain g;
     self_bchain := self_bchain g;
     self_iter := self_iter g |}.

Definition set_d (d : option vec) (g : Gibbs) : Gibbs :=
  {| setup := setup g;
     self_b := self_b g;
     self_TNT := self_TNT g;
     self_d := d;
     self_cov_white := self_cov_white g;
     self_sigma_white := self_sigma_white g;
     self_svd_white := self_svd_white g;
     self_aclength_white := self_aclength_white g;
     self_ptsampler_rn := self_ptsampler_rn g;
     self_chain := self_chain g;
     self_bchain := self_bchain g;
     self_iter := self_iter g |}.

Definition set_cov_white (c : matrix) (g : Gibbs) : Gibbs :=
  {| setup := setup g;
     self_b := self_b g;
     self_TNT := self_TNT g;
     self_d := self_d g;
     self_cov_white := Some c;
     self_sigma_white := self_sigma_white g;
     self_svd_white := self_svd_white g;
     self_aclength_white := self_aclength_white g;
     self_ptsampler_rn := self_ptsampler_rn g;
     self_chain := self_chain g;
     self_bchain := self_bchain g;
     self_iter := self_iter g |}.

Definition set_sigma_white (sg : vec) (g : Gibbs) : Gibbs :=
  {| setup := setup g;
     self_b := self_b g;
     self_TNT := self_TNT g;
     self_d := self_d g;
     self_cov_white := self_cov_white g;
     self_sigma_white := Some sg;
     self_svd_white := self_svd_white g;
     self_aclength_white := self_aclength_white g;
     self_ptsampler_rn := self_ptsampler_rn g;
     self_chain := self_chain g;
     self_bchain := self_bchain g;
     self_iter := self_iter g |}.

Definition set_svd_white (usv : matrix * vec * matrix) (g : Gibbs) : Gibbs :=
  {| setup := setup g;
     self_b := self_b g;
     self_TNT := self_TNT g;
     self_d := self_d g;
     self_cov_white := self_cov_white g;
     self_sigma_white := self_sigma_white g;
     self_svd_white := Some usv;
     self_aclength_white := self_aclength_white g;
     self_ptsampler_rn := self_ptsampler_rn g;
     self_chain := self_chain g;
     self_bchain := self_bchain g;
     self_iter := self_iter g |}.

Definition set_aclength_white (a : Z) (g : Gibbs) : Gibbs :=
  {| setup := setup g;
     self_b := self_b g;
     self_TNT := self_TNT g;
     self_d := self_d g;
     self_cov_white := self_cov_white g;
     self_sigma_white := self_sigma_white g;
     self_svd_white := self_svd_white g;
     self_aclength_white := Some a;
     self_ptsampler_rn := self_ptsampler_rn g;
     self_chain := self_chain g;
     self_bchain := self_bchain g;
     self_iter := self_iter g |}.

Definition set_ptsampler_rn (p : PTSampler (engine_state X)) (g : Gibbs) : Gibbs :=
  {| setup := setup g;
     self_b := self_b g;
     self_TNT := self_TNT g;
     self_d := self_d g;
     self_cov_white := self_cov_white g;
     self_sigma_white := self_sigma_white g;
     self_svd_white := self_svd_white g;
     self_aclength_white := self_aclength_white g;
     self_ptsampler_rn := Some p;
     self_chain := self_chain g;
     self_bchain := self_bchain g;
     self_iter := self_iter g |}.

Definition set_chain (c : list addr) (g : Gibbs) : Gibbs :=
  {| setup := setup g;
     self_b := self_b g;
     self_TNT := self_TNT g;
     self_d := self_d g;
     self_cov_white := self_cov_white g;
     self_sigma_white := self_sigma_white g;
     self_svd_white := self_svd_white g;
     self_aclength_white := self_aclength_white g;
     self_ptsampler_rn := self_ptsampler_rn g;
     self_chain := c;
     self_bchain := self_bchain g;
     self_iter := self_iter g |}.

Definition set_bchain (bc : matrix) (g : Gibbs) : Gibbs :=
  {| setup := setup g;
     self_b := self_b g;
     self_TNT := self_TNT g;
     self_d := self_d g;
     self_cov_white := self_cov_white g;
     self_sigma_white := self_sigma_white g;
     self_svd_white := self_svd_white g;
     self_aclength_white := self_aclength_white g;
     self_ptsampler_rn := self_ptsampler_rn g;
     self_chain := self_chain g;
     self_bchain := bc;
     self_iter := self_iter g |}.

Definition set_iter (i : nat) (g : Gibbs) : Gibbs :=
  {| setup := setup g;
     self_b := self_b g;
     self_TNT := self_TNT g;
     self_d := self_d g;
     self_cov_white := self_cov_white g;
     self_sigma_white := self_sigma_white g;
     self_svd_white := self_svd_white g;
     self_aclength_white := self_aclength_white g;
     self_ptsampler_rn := self_ptsampler_rn g;
     self_chain := self_chain g;
     self_bchain := self_bchain g;
     self_iter := i |}.

(** The state a method runs in. *)
Record World : Type := {
  self : Gibbs;
  env : Env
}.

Definition on_self (f : Gibbs -> Gibbs) (w : World) : World :=
  {| self := f (self w); env := env w |}.
Definition on_env (f : Env -> Env) (w : World) : World :=
  {| self := self w; env := f (env w) |}.

(** ** Console, generator and array memory *)

Class HasEnv (St : Type) : Type := {
  the_env : St -> Env;
  with_env : (Env -> Env) -> St -> St
}.
#[export] Instance Env_HasEnv : HasEnv Env := {| the_env := fun e => e; with_env := fun f e => f e |}.
#[export] Instance World_HasEnv : HasEnv World := {| the_env := env; with_env := on_env |}.

Definition print `{HasEnv St} (msg : string) : M St unit :=
  modify (with_env (log_event (EvPrint msg))).

(** One draw of the generator: its position, which then advances. *)
Definition next_draw `{HasEnv St} : M St nat :=
  n <- gets (fun s => draws (the_env s)) ;;
  modify (with_env (set_draws (S n))) ;;;
  ret n.

(** [np.random.rand()], [np.random.randn()] *)
Definition np_random_rand `{HasEnv St} : M St float :=
  n <- next_draw ;; ret (Fin (random_sample X n)).
Definition np_random_randn `{HasEnv St} : M St float :=
  n <- next_draw ;; ret (Fin (standard_normal X n)).

(** [np.random.uniform(low, high)]: [low + (high - low) * random_sample()] *)
Definition np_random_uniform `{HasEnv St} (low high : float) : M St float :=
  n <- next_draw ;; ret (low + (high - low) * Fin (random_sample X n))%flt.

Definition np_random_gumbel `{HasEnv St} : M St float :=
  n <- next_draw ;; ret (Fin (standard_gumbel X n)).

(** A new array holding [v]. *)
Definition alloc `{HasEnv St} (v : vec) : M St addr :=
  a <- gets (fun s => length (heap (the_env s))) ;;
  modify (with_env (fun e => set_heap (heap e ++ [v]) e)) ;;;
  ret a.

(** The contents of the array at [a]. *)
Definition load `{HasEnv St} (a : addr) : M St vec :=
  gets (fun s => heap (the_env s) !!! a).

(** Overwrite the array at [a] in place. *)
Definition store `{HasEnv St} (a : addr) (v : vec) : M St unit :=
  modify (with_env (fun e => set_heap (<[a := v]> (heap e)) e)).

(** [x.copy()] *)
Definition np_copy `{HasEnv St} (a : addr) : M St addr :=
  v <- load a ;; alloc v.

(** ** Construction: [__init__] *)

(** The index left in [ind] by
<<
    for ct, par in enumerate(names):
        if test(par): ind = ct
>>
    starting from position [ct]. *)
Fixpoint last_match (test : string -> bool) (names : list string) (ct : nat)
    (ind : option nat) : option nat :=
  match names with
  | [] => ind
  | par :: names' => last_match test names' (S ct) (if test par then Some ct else ind)
  end.

(** [(10**(2*float(pr[0].split('=')[1])), 10**(2*float(pr[1].split('=')[1])))]
    where [pr = repr.split('(')[1].split(')')[0].split(', ')] *)
Definition parse_prior_bounds (repr : string) : exn + (float * float) :=
  s1 <~ item (py_split "(" repr) 1 ;;
  s2 <~ item (py_split ")" s1) 0 ;;
  let pr := py_split ", " s2 in
  p0 <~ item pr 0 ;;
  e0 <~ item (py_split "=" p0) 1 ;;
  f0 <~ py_float X e0 ;;
  p1 <~ item pr 1 ;;
  e1 <~ item (py_split "=" p1) 1 ;;
  f1 <~ py_float X e1 ;;
  inr (Float.pow10 (Fin 2 * f0), Float.pow10 (Fin 2 * f1))%flt.

(** The loop over [self.pta.signals] that finds the basis columns of the
    GW and ECORR processes. *)
Record basis_scan : Type := {
  scan_ct : nat;
  scan_names : list string;
  scan_gwid : option (list nat);
  scan_ecid : option (list nat)
}.

Definition shape1 (Fmat : option nat) : exn + nat :=
  match Fmat with
  | Some n => inr n
  | None => inl AttributeError
  end.

Definition scan_signal (acc : basis_scan) (kv : string * Signal) : exn + basis_scan :=
  let '(sig, s) := kv in
  let Fmat := sig_basis_ncols s in
  let ct := scan_ct acc in
  gwid <~ (if py_in "gw" (sig_name s)
           then n <~ shape1 Fmat ;; inr (Some (map (fun i => ct + i) (seq 0 n)))
           else inr (scan_gwid acc)) ;;
  ecid <~ (if py_in "ecorr" (sig_name s)
           then n <~ shape1 Fmat ;; inr (Some (map (fun i => ct + i) (seq 0 n)))
           else inr (scan_ecid acc)) ;;
  match Fmat with
  | Some n =>
      if negb (py_in "red" sig)
      then inr {| scan_ct := ct + n;
                  scan_names := scan_names acc ++
                                map (fun ii => sig +:+ "_" +:+ str_nat ii) (seq 0 n);
                  scan_gwid := gwid; scan_ecid := ecid |}
      else inr {| scan_ct := ct; scan_names := scan_names acc;
                  scan_gwid := gwid; scan_ecid := ecid |}
  | None => inr {| scan_ct := ct; scan_names := scan_names acc;
                   scan_gwid := gwid; scan_ecid := ecid |}
  end.

Fixpoint scan_signals (acc : basis_scan) (sigs : list (string * Signal)) : exn + basis_scan :=
  match sigs with
  | [] => inr acc
  | kv :: sigs' => acc' <~ scan_signal acc kv ;; scan_signals acc' sigs'
  end.

(** [m[:, ind]] *)
Definition take_columns (m : matrix) (ind : list nat) : exn + matrix :=
  map_result (fun r => take_indices r ind) m.

(** [m[mask, :]] for a boolean mask over the rows. *)
Definition mask_rows (m : matrix) (mask : list bool) : exn + matrix :=
  if length mask =? length m
  then inr (map snd (filter (fun br => fst br = true) (zip mask m)))
  else inl IndexError.

(** [np.where(np.sum(m, axis=0) > 0.)[0]] for a matrix of [n] columns. *)
Definition positive_columns (n : nat) (m : matrix) : list nat :=
  filter (fun j => Float.gtb (Float.sum (column j m)) (Fin 0) = true) (seq 0 n).

(** The last signal whose name contains [tag]. *)
Definition last_signal (tag : string) (sigs : list (string * Signal)) : option Signal :=
  fold_left (fun acc kv => if py_in tag (sig_name (snd kv)) then Some (snd kv) else acc)
            sigs None.

Definition KERNEL_ECORR_MESSAGE : string :=
  "Gibbs outlier analysis must use basis_ecorr, not kernel ecorr".

Definition init (pta : PTA) (hypersample ecorrsample : string) (psr : option Pulsar)
    : M Env Gibbs :=
  pulsar_name <- lift_result (item (pta_pulsars pta) 0) ;;
  (* checking if kernel ecorr is being used *)
  let signal_names := map (fun kv => sig_class_name (snd kv)) (pta_signals pta) in
  if existsb (py_in "EcorrKernelNoise") signal_names
  then raise (TypeError KERNEL_ECORR_MESSAGE)
  else
  residuals <- lift_result (item (pta_get_residuals pta) 0) ;;
  (* auxiliary variable stuff *)
  xs <- map_M (fun p => n <- next_draw ;; ret (par_sample p n)) (pta_params pta) ;;
  T0 <- lift_result (item (pta_get_basis pta (BList xs)) 0) ;;
  let b := np_zeros (ncols T0) in
  (* grabbing priors on free spectral power values *)
  let names := map par_name (pta_params pta) in
  ind <- lift_result
           (match last_match (fun par => py_in "rho" par && py_in "gw" par) names 0 None with
            | Some i => inr i
            | None => inl UnboundLocalError
            end) ;;
  p_rho <- lift_result (item (pta_params pta) ind) ;;
  rho_bounds <- lift_result (parse_prior_bounds (par_repr p_rho)) ;;
  (* find basis indices of GW and ECORR processes *)
  sc <- lift_result
          (scan_signals {| scan_ct := 0; scan_names := []; scan_gwid := None;
                           scan_ecid := None |} (pta_signals pta)) ;;
  T1 <- lift_result (item (pta_get_basis pta BNone) 0) ;;
  print (if scan_ct sc =? ncols T1
         then "Basis count is good"
         else "WARNING: Miscounted basis entries. Maybe red noise and GW do not share a design matrix.") ;;;
  ecorr <-
    match scan_ecid sc with
    | None => ret (None, None)
    | Some ecid =>
        (* grabbing priors on ECORR params *)
        let ind' := default ind (last_match (py_in "ecorr") names 0 None) in
        p_ec <- lift_result (item (pta_params pta) ind') ;;
        ec_bounds <- lift_result (parse_prior_bounds (par_repr p_ec)) ;;
        (* find ECORR epochs covered by each selection *)
        if String.eqb ecorrsample "conditional"
        then
          T2 <- lift_result (item (pta_get_basis pta BNone) 0) ;;
          Umat <- lift_result (take_columns T2 ecid) ;;
          flags <- lift_result (match psr with
                                | Some p => inr (psr_flags_f p)
                                | None => inl AttributeError
                                end) ;;
          let sel := selections_by_backend X flags in
          inds <- lift_result
                    (map_result (fun kv => rows <~ mask_rows Umat (snd kv) ;;
                                           inr (positive_columns (length ecid) rows)) sel) ;;
          ret (Some ec_bounds, Some (Umat, sel, inds))
        else ret (Some ec_bounds, None)
    end ;;
  (* identify intrinsic red noise and gw signals *)
  ret {| setup :=
           {| self_pta := pta;
              self_pulsar_name := pulsar_name;
              self_hypersample := hypersample;
              self_ecorrsample := ecorrsample;
              self_residuals := residuals;
              self_rhomin := fst rho_bounds;
              self_rhomax := snd rho_bounds;
              self_b_param_names := scan_names sc;
              self_gwid := scan_gwid sc;
              self_ecid := scan_ecid sc;
              self_ecorr_bounds := fst ecorr;
              self_ecorr_sel := snd ecorr;
              self_red_sig := last_signal "red" (pta_signals pta);
              self_gw_sig := last_signal "gw" (pta_signals pta) |};
         self_b := b;
         self_TNT := None;
         self_d := None;
         self_cov_white := None;
         self_sigma_white := None;
         self_svd_white := None;
         self_aclength_white := None;
         self_ptsampler_rn := None;
         self_chain := [];
         self_bchain := [];
         self_iter := 0 |}.

(** ** Parameter bookkeeping *)

Definition self_params (g : Gibbs) : list Param := pta_params (self_pta (setup g)).

(** [p.size if p.size else 1] *)
Definition param_width (p : Param) : nat :=
  match par_size p with
  | Some (S n) => S n
  | _ => 1
  end.

Definition param_names (g : Gibbs) : list string :=
  flat_map (fun p => match par_size p with
                     | Some (S n) =>
                         map (fun ii => par_name p +:+ "_" +:+ str_nat ii) (seq 0 (S n))
                     | _ => [par_name p]
                     end) (self_params g).

Fixpoint map_params_from (ps : list Param) (xs : vec) (ct : nat) (ret : pdict) : exn + pdict :=
  match ps with
  | [] => inr ret
  | p :: ps' =>
      let n := param_width p in
      v <~ (if 1 <? n then inr (PArray (take n (drop ct xs)))
            else x <~ item xs ct ;; inr (PFloat x)) ;;
      map_params_from ps' xs (ct + n) (<[par_name p := v]> ret)
  end.

Definition map_params (g : Gibbs) (xs : vec) : exn + pdict :=
  map_params_from (self_params g) xs 0 ∅.

(** The positions [ct] of [enumerate(names)] whose name passes [test]. *)
Fixpoint indices_where (test : string -> bool) (names : list string) (ct : nat) : list nat :=
  match names with
  | [] => []
  | par :: names' =>
      if test par then ct :: indices_where test names' (S ct)
      else indices_where test names' (S ct)
  end.

Definition get_gwrho_param_indices (g : Gibbs) : list nat :=
  indices_where (py_in "rho") (param_names g) 0.

Definition get_red_param_indices (g : Gibbs) : list nat :=
  indices_where (fun par => py_in "log10_A" par || py_in "gamma" par) (param_names g) 0.

Definition get_efacequad_indices (g : Gibbs) : list nat :=
  indices_where (fun par => py_in "efac" par || py_in "equad" par) (param_names g) 0.

Definition get_ecorr_indices (g : Gibbs) : list nat :=
  indices_where (py_in "ecorr") (param_names g) 0.

(** ** Likelihood evaluators *)

Definition get_lnprior (g : Gibbs) (xs : vec) : exn + float :=
  params <~ map_params g xs ;;
  inr (Float.sum (map (fun p => par_get_logpdf p params) (self_params g))).

Definition get_lnlikelihood_white (g : Gibbs) (xs : vec) : exn + float :=
  (* map parameters *)
  params <~ map_params g xs ;;
  Nvec <~ item (pta_get_ndiag (self_pta (setup g)) params) 0 ;;
  Tmat <~ item (pta_get_basis (self_pta (setup g)) (BDict params)) 0 ;;
  (* whitened residuals *)
  mn <~ dot_mv Tmat (self_b g) ;;
  yred <~ broadcast2 Float.sub (self_residuals (setup g)) mn ;;
  (* log determinant of N *)
  let logdet_N := Float.sum (map Float.log Nvec) in
  (* triple product in likelihood function *)
  q <~ broadcast2 Float.div (map (fun y => y * y)%flt yred) Nvec ;;
  let rNr := Float.sum q in
  inr (Fin (-0.5) * (logdet_N + rNr))%flt.

(** [tau = self._b[self.gwid]**2; tau = (tau[::2] + tau[1::2]) / 2].
    With [gwid] unset the index adds an axis and the result is an empty
    two-dimensional array, here [None]. *)
Definition quadrature_tau (g : Gibbs) : exn + option vec :=
  match self_gwid (setup g) with
  | None => inr None
  | Some gwid =>
      bg <~ take_indices (self_b g) gwid ;;
      let tau := map (fun x => x * x)%flt bg in
      s <~ broadcast2 Float.add (evens tau) (odds tau) ;;
      inr (Some (map (fun x => x / Fin 2)%flt s))
  end.

Definition signal_phi (sig : option Signal) (params : pdict) : exn + vec :=
  match sig with
  | Some s => inr (evens (sig_get_phi s params))
  | None => inl AttributeError
  end.

Definition get_lnlikelihood_red (g : Gibbs) (xs : vec) : exn + float :=
  params <~ map_params g xs ;;
  (* adding together squares of GP coefficients *)
  tau <~ quadrature_tau g ;;
  (* get intrinsic red noise and gw psd values *)
  irn <~ signal_phi (self_red_sig (setup g)) params ;;
  gwsig <~ signal_phi (self_gw_sig (setup g)) params ;;
  (* compute the log-likelihood *)
  den <~ broadcast2 Float.logaddexp (map Float.log irn) (map Float.log gwsig) ;;
  match tau with
  | None =>
      if (length (self_b g) =? length den) || (length (self_b g) =? 1) || (length den =? 1)
      then inr (Fin 0)
      else inl ValueError
  | Some tau =>
      logratio <~ broadcast2 Float.sub (map Float.log tau) den ;;
      inr (Float.sum (map (fun lr => lr - Float.exp lr)%flt logratio))
  end.

(** [try: body except np.linalg.LinAlgError: handler] *)
Definition try_except_LinAlgError {St A} (body handler : M St A) : M St A :=
  fun s => match body s with
           | Raise LinAlgError s' => handler s'
           | r => r
           end.

(** The cached cross-products, computed when both are unset:
<<
    if self.TNT is None and self.d is None:
        self.TNT = np.dot(T.T, T / Nvec[:,None])
        self.d = np.dot(T.T, residuals/Nvec)
>>  *)
Definition fill_cache (T : matrix) (Nvec : vec) : M World unit :=
  g <- gets self ;;
  match self_TNT g, self_d g with
  | None, None =>
      TN <- lift_result (broadcast2 (fun r x => map (fun y => y / x)%flt r) T Nvec) ;;
      TNT <- lift_result (dot_mm (transpose T) TN) ;;
      modify (on_self (set_TNT (Some TNT))) ;;;
      rN <- lift_result (broadcast2 Float.div (self_residuals (setup g)) Nvec) ;;
      d <- lift_result (dot_mv (transpose T) rN) ;;
      modify (on_self (set_d (Some d)))
  | _, _ => ret tt
  end.

(** [self.TNT + np.diag(phiinv)]; adding to an unset attribute is a
    [TypeError]. *)
Definition precision_matrix (g : Gibbs) (phiinv : vec) : exn + matrix :=
  match self_TNT g with
  | None => inl (TypeError "unsupported operand type(s) for +")
  | Some TNT => broadcast2 (vmap2 Float.add) TNT (np_diag phiinv)
  end.

Definition cached_d (g : Gibbs) : exn + vec :=
  match self_d g with
  | None => inl (TypeError "unsupported operand type(s)")
  | Some d => inr d
  end.

(** What [get_lnlikelihood_fullmarg] has computed when it reaches its
    [try] statement. *)
Record fullmarg_parts : Type := {
  fm_loglike : float;          (* [-0.5 * (logdet_N + rNr)] *)
  fm_logdet_phi : float;
  fm_Sigma : matrix            (* [self.TNT + np.diag(phiinv)] *)
}.

(** [get_lnlikelihood_fullmarg], up to the [try] statement. *)
Definition fullmarg_prepare (xs : vec) : M World fullmarg_parts :=
  g <- gets self ;;
  (* map parameter vector *)
  params <- lift_result (map_params g xs) ;;
  (* get auxiliaries *)
  Nvec <- lift_result (item (pta_get_ndiag (self_pta (setup g)) params) 0) ;;
  pl <- lift_result (item (pta_get_phiinv_logdet (self_pta (setup g)) params) 0) ;;
  let phiinv := fst pl in
  let logdet_phi := snd pl in
  let residuals := self_residuals (setup g) in
  T <- lift_result (item (pta_get_basis (self_pta (setup g)) (BDict params)) 0) ;;
  fill_cache T Nvec ;;;
  (* log determinant of N *)
  let logdet_N := Float.sum (map Float.log Nvec) in
  (* triple product in likelihood function *)
  q <- lift_result (broadcast2 Float.div (map (fun y => y * y)%flt residuals) Nvec) ;;
  let rNr := Float.sum q in
  (* first component of likelihood function *)
  let loglike := (Fin 0 + Fin (-0.5) * (logdet_N + rNr))%flt in
  (* Red noise piece *)
  g' <- gets self ;;
  Sigma <- lift_result (precision_matrix g' phiinv) ;;
  ret {| fm_loglike := loglike; fm_logdet_phi := logdet_phi; fm_Sigma := Sigma |}.

(** The [try] statement and what follows it:
<<
    try:
        cf = sl.cho_factor(Sigma)
        expval = sl.cho_solve(cf, self.d)
    except np.linalg.LinAlgError:
        return -np.inf
    logdet_sigma = np.sum(2 * np.log(np.diag(cf[0])))
    loglike += 0.5 * (np.dot(self.d, expval) - logdet_sigma - logdet_phi)
    return loglike
>>  *)
Definition fullmarg_finish (p : fullmarg_parts) : M World float :=
  g' <- gets self ;;
  r <- try_except_LinAlgError
         (cf <- lift_result (sl_cho_factor X (fm_Sigma p)) ;;
          d <- lift_result (cached_d g') ;;
          expval <- lift_result (sl_cho_solve X cf d) ;;
          ret (Some (cf, d, expval)))
         (ret None) ;;
  match r with
  | None => ret NInf
  | Some (cf, d, expval) =>
      let logdet_sigma :=
        Float.sum (map (fun x => Fin 2 * Float.log x)%flt (diag_of cf)) in
      de <- lift_result (if length d =? length expval then inr (vdot d expval)
                         else inl ValueError) ;;
      ret (fm_loglike p + Fin 0.5 * (de - logdet_sigma - fm_logdet_phi p))%flt
  end.

Definition get_lnlikelihood_fullmarg (xs : vec) : M World float :=
  p <- fullmarg_prepare xs ;;
  fullmarg_finish p.

(** A method as the callback the Metropolis engine receives: its value
    at the object the engine was started with. *)
Definition as_callback {A} (m : vec -> M World A) (w : World) (v : vec) : exn + A :=
  match m v w with
  | Ok a _ => inr a
  | Raise e _ => inl e
  end.

(** ** The latent-coefficient draw: [update_b] *)

(** [u * np.sqrt(1/s)] *)
Definition sampling_factor (u : matrix) (s : vec) : exn + matrix :=
  let w := map (fun x => Float.sqrt (Fin 1 / x)%flt) s in
  map_result (fun r => broadcast2 Float.mul r w) u.

Definition update_b (xs : vec) : M World vec :=
  g <- gets self ;;
  (* map parameter vector *)
  params <- lift_result (map_params g xs) ;;
  (* get auxiliaries *)
  Nvec <- lift_result (item (pta_get_ndiag (self_pta (setup g)) params) 0) ;;
  phiinv <- lift_result (item (pta_get_phiinv (self_pta (setup g)) params) 0) ;;
  T <- lift_result (item (pta_get_basis (self_pta (setup g)) (BDict params)) 0) ;;
  fill_cache T Nvec ;;;
  (* Red noise piece *)
  g' <- gets self ;;
  Sigma <- lift_result (precision_matrix g' phiinv) ;;
  d <- lift_result (cached_d g') ;;
  ml <- try_except_LinAlgError
          (usv <- lift_result (sl_svd X Sigma) ;;
           let u := fst (fst usv) in
           let s := snd (fst usv) in
           utd <- lift_result (dot_mv (transpose u) d) ;;
           q <- lift_result (broadcast2 Float.div utd s) ;;
           mn <- lift_result (dot_mv u q) ;;
           Li <- lift_result (sampling_factor u s) ;;
           ret (mn, Li))
          (QR <- lift_result (sl_qr X Sigma) ;;
           Sigi <- lift_result (sl_solve X (snd QR) (transpose (fst QR))) ;;
           mn <- lift_result (dot_mv Sigi d) ;;
           usv <- lift_result (sl_svd X Sigi) ;;
           Li <- lift_result (sampling_factor (fst (fst usv)) (snd (fst usv))) ;;
           ret (mn, Li)) ;;
  z <- map_M (fun _ => np_random_randn) (seq 0 (length (snd ml))) ;;
  Lz <- lift_result (dot_mv (snd ml) z) ;;
  lift_result (broadcast2 Float.add (fst ml) Lz).

(** ** The free-spectrum block: [update_gwrho_params] *)

Definition NOT_CONDITIONAL_MESSAGE : string :=
  "ERROR: Only conditional draws on rho for now...".

(** One row of [logpdf] for a frequency with statistic [tau] and
    intrinsic variance [irn], over the grid [rho_tmp]. *)
Definition logpdf_row (rho_tmp : vec) (tau irn : float) : vec :=
  map (fun rho =>
         let logratio := (Float.log tau - Float.logaddexp (Float.log irn) (Float.log rho))%flt in
         (logratio - Float.exp logratio)%flt) rho_tmp.

Definition update_gwrho_params (xs : addr) : M World addr :=
  g <- gets self ;;
  (* get hyper parameter indices *)
  let gwind := get_gwrho_param_indices g in
  xnew <- np_copy xs ;;
  if String.eqb (self_hypersample (setup g)) "conditional"
  then
    tau <- lift_result (t <~ quadrature_tau g ;;
                        match t with Some tau => inr tau | None => inl ValueError end) ;;
    rhonew <-
      match self_red_sig (setup g) with
      | None =>
          (* draw variance values analytically *)
          eta <- map_M (fun t => np_random_uniform (Fin 0)
                                   (eta_upper (self_rhomin (setup g)) (self_rhomax (setup g)) t))
                       tau ;;
          ret (zip_with (rhonew_analytic (self_rhomax (setup g))) tau eta)
      | Some red_sig =>
          (* draw variance values from numerical CDF *)
          v <- load xnew ;;
          params <- lift_result (map_params g v) ;;
          let irn := evens (sig_get_phi red_sig params) in
          (* grid is uniform in log10(rho); implicit log-uniform prior *)
          let rho_tmp := map Float.pow10
                           (np_linspace (Float.log10 (self_rhomin (setup g)))
                                        (Float.log10 (self_rhomax (setup g))) 1000) in
          logpdf <- lift_result (broadcast2 (logpdf_row rho_tmp) tau irn) ;;
          (* use Gumbel Max Trick *)
          gumbels <- map_M (fun _ => map_M (fun _ => np_random_gumbel) rho_tmp) tau ;;
          perturbed <- lift_result (broadcast2 (vmap2 Float.add) logpdf gumbels) ;;
          idx <- lift_result (map_result np_argmax perturbed) ;;
          lift_result (take_indices rho_tmp idx)
      end ;;
    v <- load xnew ;;
    v' <- lift_result (put_indices v gwind
                         (map (fun r => Fin 0.5 * Float.log10 r)%flt rhonew)) ;;
    store xnew v' ;;;
    ret xnew
  else
    print NOT_CONDITIONAL_MESSAGE ;;;
    ret xnew.

(** ** The white-noise block: [update_white_params] *)

(** [np.random.choice(sizes, p=probs)] with
    [sizes = [0.1, 0.5, 1.0, 3.0, 10.0]] and
    [probs = [0.1, 0.15, 0.5, 0.15, 0.1]]: the size whose cumulative
    probability first exceeds the uniform draw [u]. *)
Definition choice_scale (u : R) : float :=
  if Float.Rltb u 0.1 then Fin 0.1
  else if Float.Rltb u 0.25 then Fin 0.5
  else if Float.Rltb u 0.75 then Fin 1
  else if Float.Rltb u 0.9 then Fin 3
  else Fin 10.

(** [np.random.choice(wind, size=1)] *)
Definition choice_index (wind : list nat) : M World nat :=
  match wind with
  | [] => raise ValueError
  | _ =>
      n <- next_draw ;;
      lift_result (item wind (randint X n mod length wind))
  end.

(** The proposal of one Metropolis step: a copy of [xnew] with one
    parameter of the block perturbed.
<<
    q = xnew.copy()
    sigmas = 0.05 * len(wind)
    scale = np.random.choice(sizes, p=probs)
    par = np.random.choice(wind, size=1)
    q[par] += np.random.randn(len(q[par])) * sigmas * scale
>>  *)
Definition propose (wind : list nat) (xnew : addr) : M World addr :=
  q <- np_copy xnew ;;
  let sigmas := (Fin 0.05 * Float.of_nat (length wind))%flt in
  n <- next_draw ;;
  let scale := choice_scale (random_sample X n) in
  par <- choice_index wind ;;
  v <- load q ;;
  x <- lift_result (item v par) ;;
  z <- np_random_randn ;;
  store q (<[par := (x + z * sigmas * scale)%flt]> v) ;;;
  ret q.

(** The loop-carried variables of the Metropolis loops. *)
Record mh_state : Type := {
  mh_xnew : addr;
  mh_lnlike0 : float;
  mh_lnprior0 : float
}.

(** The Metropolis step on the proposal [q]:
<<
    lnlike1, lnprior1 = self.get_lnlikelihood_white(q), self.get_lnprior(q)
    diff = (lnlike1 + lnprior1) - (lnlike0 + lnprior0)
    if diff > np.log(np.random.rand()): ...
>>  *)
Definition metropolis_accept (lnlike1 lnprior1 lnlike0 lnprior0 u : float) : bool :=
  Float.gtb ((lnlike1 + lnprior1) - (lnlike0 + lnprior0))%flt (Float.log u).

Definition metropolis_white (q : addr) (st : mh_state) : M World mh_state :=
  g <- gets self ;;
  v <- load q ;;
  lnlike1 <- lift_result (get_lnlikelihood_white g v) ;;
  lnprior1 <- lift_result (get_lnprior g v) ;;
  u <- np_random_rand ;;
  if metropolis_accept lnlike1 lnprior1 (mh_lnlike0 st) (mh_lnprior0 st) u
  then ret {| mh_xnew := q; mh_lnlike0 := lnlike1; mh_lnprior0 := lnprior1 |}
  else ret st.

(** [int(np.max([int(acor.acor(col)[0]) for col in columns]))] *)
Definition aclength_of (columns : list vec) : exn + Z :=
  taus <~ map_result (fun col => r <~ acor_acor X col ;; py_int (fst (fst r))) columns ;;
  np_max_Z taus.

Definition update_white_params (xs : addr) (iters : option nat) : M World addr :=
  g <- gets self ;;
  (* get white noise parameter indices *)
  let wind := get_efacequad_indices g in
  xnew <- np_copy xs ;;
  v0 <- load xnew ;;
  lnlike0 <- lift_result (get_lnlikelihood_white g v0) ;;
  lnprior0 <- lift_result (get_lnprior g v0) ;;
  let st0 := {| mh_xnew := xnew; mh_lnlike0 := lnlike0; mh_lnprior0 := lnprior0 |} in
  match iters with
  | Some iters =>
      r <- for_range iters 0
             (fun ii acc =>
                q <- propose wind (mh_xnew (fst acc)) ;;
                st <- metropolis_white q (fst acc) ;;
                vq <- load q ;;
                row <- lift_result (take_indices vq wind) ;;
                ret (st, snd acc ++ [row]))
             (st0, []) ;;
      let short_chain := drop 100 (snd r) in
      let cov_white := np_cov X short_chain in
      modify (on_self (set_cov_white cov_white)) ;;;
      (* [np.cov] of a single column is zero-dimensional: [np.diag] rejects it *)
      sigma_white <- (if length wind =? 1 then raise ValueError
                      else ret (map Float.sqrt (diag_of cov_white))) ;;
      modify (on_self (set_sigma_white sigma_white)) ;;;
      svd_white <- lift_result (np_linalg_svd X cov_white) ;;
      modify (on_self (set_svd_white svd_white)) ;;;
      a <- lift_result (aclength_of (map (fun jj => column jj short_chain)
                                         (seq 0 (length wind)))) ;;
      modify (on_self (set_aclength_white a)) ;;;
      ret (mh_xnew (fst r))
  | None =>
      a <- lift_result (match self_aclength_white g with
                        | Some a => inr a
                        | None => inl AttributeError
                        end) ;;
      st <- for_range (Z.to_nat a) 0
              (fun ii st => q <- propose wind (mh_xnew st) ;; metropolis_white q st)
              st0 ;;
      ret (mh_xnew st)
  end.

(** ** The red-noise block: [update_red_params] *)

(** The log-likelihood callback the engine holds. *)
Definition engine_logl (w : World) (m : logl_method) : vec -> exn + float :=
  match m with
  | LoglFullmarg => as_callback get_lnlikelihood_fullmarg w
  | LoglRed => get_lnlikelihood_red (self w)
  end.

(** [self.ptsampler_rn.PTMCMCOneStep(xnew, lnlike0, lnprob0, 0)]; the
    state returned by the engine is a new array. *)
Definition engine_one_step (xnew : addr) (lnlike0 lnprob0 : float) : M World addr :=
  w <- get ;;
  pt <- lift_result (match self_ptsampler_rn (self w) with
                     | Some pt => inr pt
                     | None => inl AttributeError
                     end) ;;
  v <- load xnew ;;
  r <- lift_result (PTMCMCOneStep X pt (engine_logl w (pt_logl pt)) (get_lnprior (self w))
                                  v lnlike0 lnprob0 0 (draws (env w))) ;;
  let '(v', _, _, pt', n') := r in
  modify (on_self (set_ptsampler_rn pt')) ;;;
  modify (on_env (set_draws n')) ;;;
  alloc v'.

(** [shutil.rmtree(outDir)]: every file below [outDir] disappears. *)
Definition rmtree (outDir : string) : M World unit :=
  modify (on_env (fun e =>
    log_event (EvRmtree outDir)
      (set_fs (filter (fun kv => String.prefix outDir (fst kv) = false) (fs e)) e))).

Definition set_pt_groups {E} (gr : list (list nat)) (pt : PTSampler E) : PTSampler E :=
  {| pt_ndim := pt_ndim pt; pt_logl := pt_logl pt; pt_cov := pt_cov pt; pt_groups := gr;
     pt_U := pt_U pt; pt_S := pt_S pt; pt_state := pt_state pt |}.
Definition set_pt_cov {E} (c : matrix) (pt : PTSampler E) : PTSampler E :=
  {| pt_ndim := pt_ndim pt; pt_logl := pt_logl pt; pt_cov := c; pt_groups := pt_groups pt;
     pt_U := pt_U pt; pt_S := pt_S pt; pt_state := pt_state pt |}.
Definition set_pt_US {E} (U : list matrix) (S : list vec) (pt : PTSampler E) : PTSampler E :=
  {| pt_ndim := pt_ndim pt; pt_logl := pt_logl pt; pt_cov := pt_cov pt;
     pt_groups := pt_groups pt; pt_U := U; pt_S := S; pt_state := pt_state pt |}.
Definition set_pt_logl {E} (m : logl_method) (pt : PTSampler E) : PTSampler E :=
  {| pt_ndim := pt_ndim pt; pt_logl := m; pt_cov := pt_cov pt; pt_groups := pt_groups pt;
     pt_U := pt_U pt; pt_S := pt_S pt; pt_state := pt_state pt |}.

(** An assignment to an attribute of [self.ptsampler_rn]. *)
Definition with_ptsampler
    (f : PTSampler (engine_state X) -> exn + PTSampler (engine_state X)) : M World unit :=
  g <- gets self ;;
  pt <- lift_result (match self_ptsampler_rn g with
                     | Some pt => inr pt
                     | None => inl AttributeError
                     end) ;;
  pt' <- lift_result (f pt) ;;
  modify (on_self (set_ptsampler_rn pt')).

Definition update_red_params (xs : addr) (iters : option nat) : M World addr :=
  g <- gets self ;;
  (* get hyper parameter indices *)
  let rind := get_red_param_indices g in
  xnew <- np_copy xs ;;
  v <- load xnew ;;
  match iters with
  | Some iters =>
      (* use the full marginalized PTA likelihood to sample everything *)
      lnlike0 <- get_lnlikelihood_fullmarg v ;;
      l <- get_lnlikelihood_fullmarg v ;;
      lp <- lift_result (get_lnprior g v) ;;
      let lnprob0 := (l + lp)%flt in
      (* setup ptmcmc sampler *)
      let outDir := "./dummy_" +:+ self_pulsar_name (setup g) +:+ "/" in
      let cov := map (map (fun x => Fin 0.01 * x)%flt) (np_diag (map (fun _ => Fin 1) v)) in
      modify (on_self (set_ptsampler_rn (ptmcmc_init X (length v) LoglFullmarg cov outDir))) ;;;
      (* sample everything to estimate cov matrix and de buffer *)
      w <- get ;;
      r <- lift_result (ptmcmc_sample X (ptmcmc_init X (length v) LoglFullmarg cov outDir)
                          (engine_logl w LoglFullmarg) (get_lnprior (self w))
                          v iters 30 15 50 (iters + 1) (Z.of_nat iters - 1) (draws (env w))) ;;
      modify (on_self (set_ptsampler_rn (fst r))) ;;;
      modify (on_env (set_draws (snd r))) ;;;
      xnew' <- engine_one_step xnew lnlike0 lnprob0 ;;
      (* select only red noise as sampling group from now on *)
      with_ptsampler (fun pt => inr (set_pt_groups [rind] pt)) ;;;
      (* grab only red noise portions of cov matrix *)
      with_ptsampler (fun pt => cov_rows <~ take_indices (pt_cov pt) rind ;;
                                cov_red <~ take_columns cov_rows rind ;;
                                inr (set_pt_cov cov_red pt)) ;;;
      (* update parameter group svd for jumps *)
      with_ptsampler (fun pt => inr (set_pt_US (map (fun _ => []) (pt_groups pt))
                                               (map (fun _ => []) (pt_groups pt)) pt)) ;;;
      with_ptsampler (fun pt => usv <~ np_linalg_svd X (pt_cov pt) ;;
                                inr (set_pt_US (<[0 := fst (fst usv)]> (pt_U pt))
                                               (<[0 := snd (fst usv)]> (pt_S pt)) pt)) ;;;
      (* update likelihood to be red-noise only *)
      with_ptsampler (fun pt => inr (set_pt_logl LoglRed pt)) ;;;
      (* delete the dummy directory that ptmcmcsampler makes *)
      rmtree outDir ;;;
      ret xnew'
  | None =>
      (* use the red-noise portion of the unmarginalized likelihood *)
      lnlike0 <- lift_result (get_lnlikelihood_red g v) ;;
      l <- lift_result (get_lnlikelihood_red g v) ;;
      lp <- lift_result (get_lnprior g v) ;;
      let lnprob0 := (l + lp)%flt in
      (* run the ptmcmc sampler for 20 steps *)
      for_range 20 0 (fun _ x => engine_one_step x lnlike0 lnprob0) xnew
  end.

(** ** The scheduler: [sample] *)

(** [np.savetxt(path, lines, fmt="%s")] *)
Definition np_savetxt (path : string) (lines : list string) : M World unit :=
  modify (on_env (fun e =>
    log_event (EvSavetxt path) (set_fs (<[path := TextLines lines]> (fs e)) e))).

(** [np.save(path, arr)] *)
Definition np_save (path : string) (arr : matrix) : M World unit :=
  modify (on_env (fun e =>
    log_event (EvSave path (length arr)) (set_fs (<[path := NpyArray arr]> (fs e)) e))).

(** [np.loadtxt(path)] *)
Definition np_loadtxt (path : string) : M World matrix :=
  modify (on_env (log_event (EvLoadtxt path))) ;;;
  e <- gets env ;;
  match fs e !! path with
  | None => raise (FileNotFoundError path)
  | Some (TextLines lines) => lift_result (np_loadtxt_parse X lines)
  | Some (NpyArray _) => raise ValueError
  end.

(** The rows of [self.chain], read from array memory. *)
Definition chain_rows (rows : list addr) : M World matrix := map_M load rows.

(** [self.chain[:k] = src], the rows of [self.chain] having [width]
    columns. *)
Definition assign_chain_prefix (width k : nat) (src : matrix) : M World unit :=
  g <- gets self ;;
  let target := take k (self_chain g) in
  rows <- lift_result (broadcast_rows (length target) width src) ;;
  map_M (fun ar => store (fst ar) (snd ar)) (zip target rows) ;;;
  ret tt.

(** [self.bchain[:k] = src] *)
Definition assign_bchain_prefix (width k : nat) (src : matrix) : M World unit :=
  g <- gets self ;;
  let target := take k (self_bchain g) in
  rows <- lift_result (broadcast_rows (length target) width src) ;;
  modify (on_self (set_bchain (rows ++ drop k (self_bchain g)))).

(** The part of [sample] under [if resume:], for chains of [nx] and
    [nb] columns; its value is [(startLength, xnew)]. *)
Definition resume_chain (outdir : string) (nx nb : nat) : M World (nat * addr) :=
  print "Resuming from previous run..." ;;;
  (* read in previous chains *)
  tmp0 <- np_loadtxt (outdir +:+ "/chain.txt") ;;
  tmp1 <- np_loadtxt (outdir +:+ "/bchain.txt") ;;
  (* find minimum length *)
  let minLength := Nat.min (length tmp0) (length tmp1) in
  (* take only the minimum length entries of each chain *)
  let tmp0 := take minLength tmp0 in
  let tmp1 := take minLength tmp1 in
  (* pad with zeros if shorter than niter *)
  assign_chain_prefix nx (length tmp0) tmp0 ;;;
  assign_bchain_prefix nb (length tmp1) tmp1 ;;;
  (* set new starting point for sampling *)
  g <- gets self ;;
  xnew <- lift_result (py_item (self_chain g) (Z.of_nat minLength - 1)) ;;
  ret (minLength, xnew).

(** [np.all(xnew != c)] *)
Definition all_differ_from (xnew : vec) (c : float) : bool :=
  forallb (fun x => Float.neb x c) xnew.

(** [ii % 100 == 0 and ii > 0] *)
Definition snapshot_due (ii : nat) : bool := (ii mod 100 =? 0) && (0 <? ii).

(** The test of the source for redrawing the latent vector:
<<
    if np.all(xnew != self.chain[ii,-1]):
        self._b = self.update_b(xnew)
>>  *)
Definition redraw_if_changed (ii : nat) (xnew : addr) : M World unit :=
  g <- gets self ;;
  row <- (a <- lift_result (item (self_chain g) ii) ;; load a) ;;
  c <- lift_result (py_item row (-1)) ;;
  v <- load xnew ;;
  if all_differ_from v c
  then b <- update_b v ;; modify (on_self (set_b b))
  else ret tt.

(** What the loop body does after recording the state: cache reset,
    block samplers, latent redraw. *)
Definition run_blocks (xs : addr) (ii : nat) (xnew : addr) : M World addr :=
  (if ii =? 0
   then v <- load xs ;; b <- update_b v ;; modify (on_self (set_b b))
   else ret tt) ;;;
  modify (on_self (set_TNT None)) ;;;
  modify (on_self (set_d None)) ;;;
  (* update efac/equad parameters *)
  g <- gets self ;;
  xnew <- (if negb (length (get_efacequad_indices g) =? 0)
           then if ii =? 0 then update_white_params xnew (Some 1000)
                else update_white_params xnew None
           else ret xnew) ;;
  (* update ecorr parameters *)
  (if negb (length (get_ecorr_indices g) =? 0)
   then print "ERROR: No ECORR for now..."
   else ret tt) ;;;
  (* update red noise parameters *)
  xnew <- (if negb (length (get_red_param_indices g) =? 0)
           then if ii =? 0 then update_red_params xnew (Some 10000)
                else update_red_params xnew None
           else ret xnew) ;;
  (* update gw free-spectral hyper-parameters *)
  xnew <- (if negb (length (get_gwrho_param_indices g) =? 0)
           then update_gwrho_params xnew
           else ret xnew) ;;
  (* if accepted, update quadratic params *)
  redraw_if_changed ii xnew ;;;
  ret xnew.

(** One pass of the loop [for ii in range(startLength, niter)]. *)
Definition sample_iteration (xs : addr) (outdir : string) (ii : nat) (xnew : addr)
    : M World addr :=
  modify (on_self (set_iter ii)) ;;;
  (* self.chain[ii, :] = xnew *)
  g <- gets self ;;
  a <- lift_result (item (self_chain g) ii) ;;
  old <- load a ;;
  v <- load xnew ;;
  row <- lift_result (broadcast_row (length old) v) ;;
  store a row ;;;
  (* self.bchain[ii,:] = self._b *)
  oldb <- lift_result (item (self_bchain g) ii) ;;
  brow <- lift_result (broadcast_row (length oldb) (self_b g)) ;;
  modify (on_self (set_bchain (<[ii := brow]> (self_bchain g)))) ;;;
  xnew <- run_blocks xs ii xnew ;;
  (if snapshot_due ii
   then
     g <- gets self ;;
     rows <- chain_rows (take (ii + 1) (self_chain g)) ;;
     np_save (outdir +:+ "/chain.npy") rows ;;;
     np_save (outdir +:+ "/bchain.npy") (take (ii + 1) (self_bchain g))
   else ret tt) ;;;
  ret xnew.

(** [sample], up to its loop; the value is [(startLength, xnew)]. *)
Definition sample_prologue (xs : addr) (outdir : string) (niter : nat) (resume : bool)
    : M World (nat * addr) :=
  print ("Creating chain directory: " +:+ outdir) ;;;
  modify (on_env (log_event (EvMkdir outdir))) ;;;
  g <- gets self ;;
  np_savetxt (outdir +:+ "/pars_chain.txt") (param_names g) ;;;
  np_savetxt (outdir +:+ "/pars_bchain.txt") (self_b_param_names (setup g)) ;;;
  v <- load xs ;;
  chain <- map_M (fun _ => alloc (np_zeros (length v))) (seq 0 niter) ;;
  modify (on_self (set_chain chain)) ;;;
  modify (on_self (set_bchain (replicate niter (np_zeros (length (self_b g)))))) ;;;
  modify (on_self (set_iter 0)) ;;;
  if resume then resume_chain outdir (length v) (length (self_b g)) else ret (0, xs).

(** The loop of [sample], from iteration [start] on the vector at
    [xnew]. *)
Definition sample_loop (xs : addr) (outdir : string) (niter start : nat) (xnew : addr)
    : M World addr :=
  for_range (niter - start) start (sample_iteration xs outdir) xnew.

Definition sample (xs : addr) (outdir : string) (niter : nat) (resume : bool)
    : M World unit :=
  start <- sample_prologue xs outdir niter resume ;;
  sample_loop xs outdir niter (fst start) (snd start) ;;;
  ret tt.

End Model.


Arguments setup {X} _.
Arguments self_b {X} _.
Arguments self_TNT {X} _.
Arguments self_d {X} _.
Arguments self_cov_white {X} _.
Arguments self_sigma_white {X} _.
Arguments self_svd_white {X} _.
Arguments self_aclength_white {X} _.
Arguments self_ptsampler_rn {X} _.
Arguments self_chain {X} _.
Arguments self_bchain {X} _.
Arguments self_iter {X} _.
Arguments self {X} _.
Arguments env {X} _.
Arguments on_self {X} _ _.
Arguments on_env {X} _ _.
Arguments set_b {X} _ _.
Arguments set_TNT {X} _ _.
Arguments set_d {X} _ _.
Arguments set_cov_white {X} _ _.
Arguments set_sigma_white {X} _ _.
Arguments set_svd_white {X} _ _.
Arguments set_aclength_white {X} _ _.
Arguments set_ptsampler_rn {X} _ _.
Arguments set_chain {X} _ _.
Arguments set_bchain {X} _ _.
Arguments set_iter {X} _ _.

(** ** A small configuration

    One pulsar with a single observation, two white-noise parameters
    and a free-spectrum process of one frequency (two basis columns), no
    intrinsic red noise; collaborators that answer with fixed values. *)

Definition fixed_collaborators : Externals := {|
  random_sample := fun _ => 0%R;
  standard_normal := fun _ => 1%R;
  standard_gumbel := fun _ => 0%R;
  randint := fun n => n;
  py_float := fun s => if String.eqb s "-9" then inr (Fin (-9))
                       else if String.eqb s "-4" then inr (Fin (-4))
                       else inl ValueError;
  np_cov := fun _ => [[Fin 1; Fin 0]; [Fin 0; Fin 1]];
  np_linalg_svd := fun m => inr (m, map (fun _ => Fin 1) m, m);
  sl_svd := fun m => inr (m, map (fun _ => Fin 1) m, m);
  sl_qr := fun m => inr (m, m);
  sl_solve := fun _ m => inr m;
  sl_cho_factor := fun _ => inl LinAlgError;
  sl_cho_solve := fun _ d => inr d;
  np_loadtxt_parse := fun _ => inl ValueError;
  acor_acor := fun _ => inr (Fin (1 / 2), Fin 0, Fin 0);
  selections_by_backend := fun _ => [];
  engine_state := unit;
  ptmcmc_init := fun ndim logl cov _ =>
    {| pt_ndim := ndim; pt_logl := logl; pt_cov := cov; pt_groups := [seq 0 ndim];
       pt_U := [cov]; pt_S := [map (fun _ => Fin 1) cov]; pt_state := tt |};
  ptmcmc_sample := fun pt _ _ _ _ _ _ _ _ _ n => inr (pt, n);
  PTMCMCOneStep := fun pt _ _ v lnlike lnprob _ n => inr (v, lnlike, lnprob, pt, n)
|}.

Definition flat_prior : pdict -> float := fun _ => Fin 0.

Definition small_params : list Param :=
  [ {| par_name := "J0000+0000_efac"; par_size := None;
       par_repr := "J0000+0000_efac:Uniform(pmin=0.01, pmax=10.0)";
       par_sample := fun _ => PFloat (Fin 1); par_get_logpdf := flat_prior |};
    {| par_name := "J0000+0000_log10_t2equad"; par_size := None;
       par_repr := "J0000+0000_log10_t2equad:Uniform(pmin=-8.5, pmax=-5)";
       par_sample := fun _ => PFloat (Fin (-7)); par_get_logpdf := flat_prior |};
    {| par_name := "J0000+0000_gw_log10_rho"; par_size := Some 1;
       par_repr := "J0000+0000_gw_log10_rho:Uniform(pmin=-9, pmax=-4)[1]";
       par_sample := fun _ => PArray [Fin (-7)]; par_get_logpdf := flat_prior |} ].

Definition white_signal : Signal :=
  {| sig_class_name := "MeasurementNoise"; sig_name := "measurement_noise";
     sig_basis_ncols := None; sig_get_phi := fun _ => [] |}.

Definition gw_signal : Signal :=
  {| sig_class_name := "FourierBasisGP"; sig_name := "gw";
     sig_basis_ncols := Some 2; sig_get_phi := fun _ => [Fin 1; Fin 1] |}.

Definition kernel_ecorr_signal : Signal :=
  {| sig_class_name := "EcorrKernelNoise"; sig_name := "ecorr_sherman-morrison";
     sig_basis_ncols := None; sig_get_phi := fun _ => [] |}.

Definition small_pta_with (sigs : list (string * Signal)) : PTA :=
  {| pta_pulsars := ["J0000+0000"];
     pta_signals := sigs;
     pta_params := small_params;
     pta_get_residuals := [[Fin 0]];
     pta_get_basis := fun _ => [[[Fin 1; Fin 0]]];
     pta_get_ndiag := fun _ => [[Fin 1]];
     pta_get_phiinv := fun _ => [[Fin 1; Fin 1]];
     pta_get_phiinv_logdet := fun _ => [([Fin 1; Fin 1], Fin 0)] |}.

Definition small_pta : PTA :=
  small_pta_with [("J0000+0000_measurement_noise", white_signal);
                  ("J0000+0000_gw", gw_signal)].

Definition kernel_ecorr_pta : PTA :=
  small_pta_with [("J0000+0000_measurement_noise", white_signal);
                  ("J0000+0000_ecorr_sherman-morrison", kernel_ecorr_signal);
                  ("J0000+0000_gw", gw_signal)].

(** A process that holds one array, the initial parameter vector, at
    address [0]. *)
Definition small_env : Env :=
  {| heap := [[Fin 1; Fin (-7); Fin (-7)]]; fs := ∅; trace := []; draws := 0 |}.

(** The object [PulsarBlockGibbs(small_pta, hypersample, 'mh')], with
    the default object where construction fails. *)
Definition blank_object (pta : PTA) (hypersample : string) : Gibbs fixed_collaborators :=
  {| setup := {| self_pta := pta; self_pulsar_name := ""; self_hypersample := hypersample;
                 self_ecorrsample := ""; self_residuals := []; self_rhomin := NaN;
                 self_rhomax := NaN; self_b_param_names := []; self_gwid := None;
                 self_ecid := None; self_ecorr_bounds := None; self_ecorr_sel := None;
                 self_red_sig := None; self_gw_sig := None |};
     self_b := []; self_TNT := None; self_d := None; self_cov_white := None;
     self_sigma_white := None; self_svd_white := None; self_aclength_white := None;
     self_ptsampler_rn := None; self_chain := []; self_bchain := []; self_iter := 0 |}.

Definition small_world (hypersample : string) : World fixed_collaborators :=
  match init fixed_collaborators small_pta hypersample "mh" None small_env with
  | Ok g e => {| self := g; env := e |}
  | Raise _ e => {| self := blank_object small_pta hypersample; env := e |}
  end.

(** [self.hypersample = mode] *)
Definition with_hypersample {X : Externals} (mode : string) (g : Gibbs X) : Gibbs X :=
  {| setup :=
       {| self_pta := self_pta (setup g);
          self_pulsar_name := self_pulsar_name (setup g);
          self_hypersample := mode;
          self_ecorrsample := self_ecorrsample (setup g);
          self_residuals := self_residuals (setup g);
          self_rhomin := self_rhomin (setup g);
          self_rhomax := self_rhomax (setup g);
          self_b_param_names := self_b_param_names (setup g);
          self_gwid := self_gwid (setup g);
          self_ecid := self_ecid (setup g);
          self_ecorr_bounds := self_ecorr_bounds (setup g);
          self_ecorr_sel := self_ecorr_sel (setup g);
          self_red_sig := self_red_sig (setup g);
          self_gw_sig := self_gw_sig (setup g) |};
     self_b := self_b g; self_TNT := self_TNT g; self_d := self_d g;
     self_cov_white := self_cov_white g; self_sigma_white := self_sigma_white g;
     self_svd_white := self_svd_white g; self_aclength_white := self_aclength_white g;
     self_ptsampler_rn := self_ptsampler_rn g; self_chain := self_chain g;
     self_bchain := self_bchain g; self_iter := self_iter g |}.

(** ** Observations on the state *)

Definition is_save (ev : event) : bool :=
  match ev with
  | EvSave _ _ => true
  | _ => false
  end.

(** The [np.save] calls made so far, most recent first. *)
Definition save_events (e : Env) : list event := List.filter is_save (trace e).

(** What no block sampler changes: arrays that exist keep their
    contents, the rows of the chains stay the same arrays, the
    construction-time attributes stay, no snapshot is written and no
    file appears. *)
Definition block_step {X : Externals} (w w' : World X) : Prop :=
  heap (env w) `prefix_of` heap (env w') /\
  self_chain (self w') = self_chain (self w) /\
  self_bchain (self w') = self_bchain (self w) /\
  setup (self w') = setup (self w) /\
  save_events (env w') = save_events (env w) /\
  (forall p, fs (env w) !! p = None -> fs (env w') !! p = None).

(** [v] has the length of [v0] and agrees with it at every position
    outside [ind]. *)
Definition agree_outside (ind : list nat) (v v0 : vec) : Prop :=
  length v = length v0 /\ forall j, j ∉ ind -> v !! j = v0 !! j.

(** The attributes that the white-noise block never assigns. *)
Definition same_but_white_tuning {X : Externals} (g g' : Gibbs X) : Prop :=
  setup g' = setup g /\ self_b g' = self_b g /\ self_TNT g' = self_TNT g /\
  self_d g' = self_d g /\ self_ptsampler_rn g' = self_ptsampler_rn g /\
  self_chain g' = self_chain g /\ self_bchain g' = self_bchain g /\
  self_iter g' = self_iter g.

(** What a call of [update_white_params] may change: new arrays, the
    generator, and the tuning attributes. *)
Definition white_step {X : Externals} (w w' : World X) : Prop :=
  heap (env w) `prefix_of` heap (env w') /\
  fs (env w') = fs (env w) /\
  trace (env w') = trace (env w) /\
  same_but_white_tuning (self w) (self w').

(** Nothing changed but the generator. *)
Definition only_draws {X : Externals} (w w' : World X) : Prop :=
  self w' = self w /\ heap (env w') = heap (env w) /\
  fs (env w') = fs (env w) /\ trace (env w') = trace (env w).

(** The invariant of the Metropolis loops of [update_white_params]
    started in [w] on a vector of contents [v0]: the current state is an
    array made since, which agrees with [v0] outside the block. *)
Definition white_inv {X : Externals} (w : World X) (wind : list nat) (v0 : vec)
    (st : mh_state) (s : World X) : Prop :=
  self s = self w /\ fs (env s) = fs (env w) /\ trace (env s) = trace (env w) /\
  heap (env w) `prefix_of` heap (env s) /\
  length (heap (env w)) <= mh_xnew st < length (heap (env s)) /\
  agree_outside wind (heap (env s) !!! mh_xnew st) v0.

(** The state of a run of the small configuration at the end of its
    pass [0] over the blocks: chain row [0] (the array at address [0])
    holds the recorded vector, and the current vector (the array at
    address [1]) differs from it in its first position only. *)
Definition changed_first_world : World fixed_collaborators :=
  {| self := set_chain [0] (self (small_world "conditional"));
     env := {| heap := [[Fin 1; Fin (-7); Fin (-7)]; [Fin 2; Fin (-7); Fin (-7)]];
               fs := ∅; trace := []; draws := 0 |} |}.

(** ** Files of a run *)

(** The two name lists that [sample] writes first. *)
Definition name_list_paths (outdir : string) : list string :=
  [outdir +:+ "/pars_chain.txt"; outdir +:+ "/pars_bchain.txt"].

(** The two chain snapshots. *)
Definition snapshot_paths (outdir : string) : list string :=
  [outdir +:+ "/chain.npy"; outdir +:+ "/bchain.npy"].

(** No file appears outside [paths]. *)
Definition writes_within {X : Externals} (paths : list string) (w w' : World X) : Prop :=
  forall p, p ∉ paths -> fs (env w) !! p = None -> fs (env w') !! p = None.

(** No snapshot is written: no call of [np.save], and no file appears
    but the two name lists. *)
Definition no_snapshot {X : Externals} (outdir : string) (w w' : World X) : Prop :=
  save_events (env w') = save_events (env w) /\
  writes_within (name_list_paths outdir) w w'.

(** Every file that [sample] may write. *)
Definition run_paths (outdir : string) : list string :=
  name_list_paths outdir ++ snapshot_paths outdir.

(** [raises m s e]: from [s], [m] raises [e]. *)
Definition raises {St A} (m : M St A) (s : St) (e : exn) : Prop :=
  exists s', m s = Raise e s'.

(** [returns m s Q]: from [s], [m] returns (it does not raise), with a
    value and a state in [Q]. *)
Definition returns {St A} (m : M St A) (s : St) (Q : A -> St -> Prop) : Prop :=
  post m s Q (fun _ => False).

(** What the Metropolis loops of the white-noise block need of the
    object to run on vectors of [n] entries: a block that is not empty,
    whose indices are positions of the vector, and evaluators that
    return on such vectors. *)
Definition white_ready {X : Externals} (g : Gibbs X) (n : nat) : Prop :=
  get_efacequad_indices X g <> [] /\
  Forall (fun i => i < n) (get_efacequad_indices X g) /\
  (forall v, length v = n -> exists l, get_lnlikelihood_white X g v = inr l) /\
  (forall v, length v = n -> exists l, get_lnprior X g v = inr l).

(** What the tuning run needs besides: more than one white-noise
    parameter, and a decomposition and an autocorrelation estimator that
    return. *)
Definition tuning_ready {X : Externals} (g : Gibbs X) : Prop :=
  length (get_efacequad_indices X g) <> 1 /\
  (forall m, exists r, np_linalg_svd X m = inr r) /\
  (forall cols, length cols = length (get_efacequad_indices X g) ->
                exists z, aclength_of X cols = inr z).

(** The attributes other than the cached cross-products [TNT] and [d]
    are the same. *)
Definition same_but_cache {X : Externals} (g g' : Gibbs X) : Prop :=
  setup g' = setup g /\ self_b g' = self_b g /\
  self_cov_white g' = self_cov_white g /\ self_sigma_white g' = self_sigma_white g /\
  self_svd_white g' = self_svd_white g /\ self_aclength_white g' = self_aclength_white g /\
  self_ptsampler_rn g' = self_ptsampler_rn g /\
  self_chain g' = self_chain g /\ self_bchain g' = self_bchain g /\
  self_iter g' = self_iter g.

(** One of the two cached cross-products is set. *)
Definition cache_set {X : Externals} (g : Gibbs X) : Prop :=
  self_TNT g <> None \/ self_d g <> None.

(** What an evaluation that uses the cache may change: the cache, when
    no part of it was set, and the generator. Arrays, files and console
    are as before. *)
Definition cache_step {X : Externals} (w w' : World X) : Prop :=
  heap (env w') = heap (env w) /\ fs (env w') = fs (env w) /\
  trace (env w') = trace (env w) /\
  same_but_cache (self w) (self w') /\
  (cache_set (self w) -> self w' = self w).

(** Nothing changed. *)
Definition same_state {St : Type} (s s' : St) : Prop := s' = s.

(** Collaborators as [fixed_collaborators], with a singular value
    decomposition that never converges. *)
Definition svd_failing_collaborators : Externals := {|
  random_sample := random_sample fixed_collaborators;
  standard_normal := standard_normal fixed_collaborators;
  standard_gumbel := standard_gumbel fixed_collaborators;
  randint := randint fixed_collaborators;
  py_float := py_float fixed_collaborators;
  np_cov := np_cov fixed_collaborators;
  np_linalg_svd := np_linalg_svd fixed_collaborators;
  sl_svd := fun _ => inl LinAlgError;
  sl_qr := sl_qr fixed_collaborators;
  sl_solve := sl_solve fixed_collaborators;
  sl_cho_factor := sl_cho_factor fixed_collaborators;
  sl_cho_solve := sl_cho_solve fixed_collaborators;
  np_loadtxt_parse := np_loadtxt_parse fixed_collaborators;
  acor_acor := acor_acor fixed_collaborators;
  selections_by_backend := selections_by_backend fixed_collaborators;
  engine_state := engine_state fixed_collaborators;
  ptmcmc_init := ptmcmc_init fixed_collaborators;
  ptmcmc_sample := ptmcmc_sample fixed_collaborators;
  PTMCMCOneStep := PTMCMCOneStep fixed_collaborators
|}.

(** The object [PulsarBlockGibbs(pta, hypersample, 'mh')] made in
    [small_env] with the collaborators [X], and the process after its
    construction; where the construction fails, the object holds what
    was assigned before the failure could occur. *)
Definition world_of (X : Externals) (pta : PTA) (hypersample : string) : World X :=
  match init X pta hypersample "mh" None small_env with
  | Ok g e => {| self := g; env := e |}
  | Raise _ e =>
      {| self :=
           {| setup := {| self_pta := pta; self_pulsar_name := "";
                          self_hypersample := hypersample; self_ecorrsample := "mh";
                          self_residuals := []; self_rhomin := NaN; self_rhomax := NaN;
                          self_b_param_names := []; self_gwid := None; self_ecid := None;
                          self_ecorr_bounds := None; self_ecorr_sel := None;
                          self_red_sig := None; self_gw_sig := None |};
              self_b := []; self_TNT := None; self_d := None; self_cov_white := None;
              self_sigma_white := None; self_svd_white := None;
              self_aclength_white := None; self_ptsampler_rn := None; self_chain := [];
              self_bchain := []; self_iter := 0 |};
         env := e |}
  end.

(** A model with a single white-noise parameter, and the process in
    which its object was made and the vector [(1, -7)] is the only
    array. *)
Definition single_white_pta : PTA :=
  {| pta_pulsars := ["J0000+0000"];
     pta_signals := [("J0000+0000_measurement_noise", white_signal);
                     ("J0000+0000_gw", gw_signal)];
     pta_params :=
       [ {| par_name := "J0000+0000_efac"; par_size := None;
            par_repr := "J0000+0000_efac:Uniform(pmin=0.01, pmax=10.0)";
            par_sample := fun _ => PFloat (Fin 1); par_get_logpdf := flat_prior |};
         {| par_name := "J0000+0000_gw_log10_rho"; par_size := Some 1;
            par_repr := "J0000+0000_gw_log10_rho:Uniform(pmin=-9, pmax=-4)[1]";
            par_sample := fun _ => PArray [Fin (-7)]; par_get_logpdf := flat_prior |} ];
     pta_get_residuals := [[Fin 0]];
     pta_get_basis := fun _ => [[[Fin 1; Fin 0]]];
     pta_get_ndiag := fun _ => [[Fin 1]];
     pta_get_phiinv := fun _ => [[Fin 1; Fin 1]];
     pta_get_phiinv_logdet := fun _ => [([Fin 1; Fin 1], Fin 0)] |}.

Definition single_white_world : World fixed_collaborators :=
  on_env (set_heap [[Fin 1; Fin (-7)]])
         (world_of fixed_collaborators single_white_pta "conditional").

(** A model without a free-spectrum parameter. *)
Definition no_rho_pta : PTA :=
  {| pta_pulsars := ["J0000+0000"];
     pta_signals := [("J0000+0000_measurement_noise", white_signal)];
     pta_params :=
       [ {| par_name := "J0000+0000_efac"; par_size := None;
            par_repr := "J0000+0000_efac:Uniform(pmin=0.01, pmax=10.0)";
            par_sample := fun _ => PFloat (Fin 1); par_get_logpdf := flat_prior |} ];
     pta_get_residuals := [[Fin 0]];
     pta_get_basis := fun _ => [[[Fin 1; Fin 0]]];
     pta_get_ndiag := fun _ => [[Fin 1]];
     pta_get_phiinv := fun _ => [[Fin 1; Fin 1]];
     pta_get_phiinv_logdet := fun _ => [([Fin 1; Fin 1], Fin 0)] |}.

(** Row [i] of [self.chain], read from array memory. *)
Definition chain_row {X : Externals} (w : World X) (i : nat) : option vec :=
  match self_chain (self w) !! i with
  | Some a => heap (env w) !! a
  | None => None
  end.

(** The chains as [sample] allocates them: [self.chain] is [niter]
    arrays of [nx] entries, no two of them the same array, and
    [self.bchain] is [niter] rows of [nb] entries. *)
Definition chains_ok {X : Externals} (niter nx nb : nat) (w : World X) : Prop :=
  length (self_chain (self w)) = niter /\
  NoDup (self_chain (self w)) /\
  Forall (fun a => a < length (heap (env w)) /\ length (heap (env w) !!! a) = nx)
         (self_chain (self w)) /\
  length (self_bchain (self w)) = niter /\
  Forall (fun r => length r = nb) (self_bchain (self w)).

(** What numpy assigns to a row of [n] entries from the vector [v]: [v]
    itself, or its only entry repeated. *)
Definition assigned_row (n : nat) (v row : vec) : Prop :=
  (length v = n /\ row = v) \/ (exists x, v = [x] /\ row = replicate n x).

(** A model whose only parameter is the free-spectrum power of one
    frequency, and the process in which its object was made in the mode
    [hypersample] and the vector [(-7)] is the only array. *)
Definition rho_only_pta : PTA :=
  {| pta_pulsars := ["J0000+0000"];
     pta_signals := [("J0000+0000_gw", gw_signal)];
     pta_params :=
       [ {| par_name := "J0000+0000_gw_log10_rho"; par_size := Some 1;
            par_repr := "J0000+0000_gw_log10_rho:Uniform(pmin=-9, pmax=-4)[1]";
            par_sample := fun _ => PArray [Fin (-7)]; par_get_logpdf := flat_prior |} ];
     pta_get_residuals := [[Fin 0]];
     pta_get_basis := fun _ => [[[Fin 1; Fin 0]]];
     pta_get_ndiag := fun _ => [[Fin 1]];
     pta_get_phiinv := fun _ => [[Fin 1; Fin 1]];
     pta_get_phiinv_logdet := fun _ => [([Fin 1; Fin 1], Fin 0)] |}.

Definition rho_only_world (hypersample : string) : World fixed_collaborators :=
  on_env (set_heap [[Fin (-7)]]) (world_of fixed_collaborators rho_only_pta hypersample).

(** ** The tuning loop of the white-noise block

    The loop of [update_white_params] for [iters is not None], from the
    loop-carried variables [st0]: a pass proposes, takes the Metropolis
    step and records [q[wind]] as the next row of [short_chain]. Its value
    is the last state and the rows recorded. *)
Definition white_tuning_loop (X : Externals) (wind : list nat) (iters : nat) (st0 : mh_state)
  : M (World X) (mh_state * matrix) :=
  for_range iters 0
    (fun ii acc =>
       q <- propose X wind (mh_xnew (fst acc)) ;;
       st <- metropolis_white X q (fst acc) ;;
       vq <- load q ;;
       row <- lift_result (take_indices vq wind) ;;
       ret (st, snd acc ++ [row]))
    (st0, []).

(** [update_white_params(xs, iters)] up to the end of that loop: the
    copy of [xs], likelihood and prior on it, and the loop. *)
Definition white_tuning_chain (X : Externals) (xs : addr) (iters : nat)
  : M (World X) (mh_state * matrix) :=
  g <- gets self ;;
  let wind := get_efacequad_indices X g in
  xnew <- np_copy xs ;;
  v0 <- load xnew ;;
  lnlike0 <- lift_result (get_lnlikelihood_white X g v0) ;;
  lnprior0 <- lift_result (get_lnprior X g v0) ;;
  white_tuning_loop X wind iters
    {| mh_xnew := xnew; mh_lnlike0 := lnlike0; mh_lnprior0 := lnprior0 |}.

(** [[short_chain[100:,jj] for jj in range(len(wind))]] *)
Definition thinning_columns (wind : list nat) (short_chain : matrix) : list vec :=
  map (fun jj => column jj (drop 100 short_chain)) (seq 0 (length wind)).

(** ** The analytic draw in binary64

    The arrays of the sampler hold IEEE 754 binary64 numbers, and
<<
    eta = np.random.uniform(0, 1-np.exp((tau/self.rhomax) - (tau/self.rhomin)))
    rhonew = tau / ((tau/self.rhomax) - np.log(1-eta))
>>
    is evaluated in that arithmetic: each [/], [-], [*] and [+] rounds to
    the nearest binary64 number. Below, the arithmetic is that of the
    kernel's primitive floats; [np.exp] and [np.log] are the functions of
    the C library, of which only single values are used. *)

From Stdlib Require PrimFloat.

Module Binary64.

#[local] Set Warnings "-notation-overridden".
Import PrimFloat.
#[local] Set Warnings "notation-overridden".

Record Libm : Type := {
  np_exp : float -> float;
  np_log : float -> float
}.

(** [1-np.exp((tau/self.rhomax) - (tau/self.rhomin))] *)
Definition eta_upper_b64 (L : Libm) (rhomin rhomax tau : float) : float :=
  (1 - np_exp L (tau / rhomax - tau / rhomin))%float.

(** [np.random.uniform(low, high)] on the value [u] of [random_sample()]:
    [low + (high - low) * u]. *)
Definition np_random_uniform_b64 (low high u : float) : float :=
  (low + (high - low) * u)%float.

(** [tau / ((tau/self.rhomax) - np.log(1-eta))] *)
Definition rhonew_analytic_b64 (L : Libm) (rhomax tau eta : float) : float :=
  (tau / (tau / rhomax - np_log L (1 - eta)))%float.

(** The bounds [1e-20] and [1e-10] of the prior, as binary64 numbers. *)
Definition rhomin_1e20 : float := 0x1.79ca10c924223p-67%float.
Definition rhomax_1e10 : float := 0x1.b7cdfd9d7bdbbp-34%float.

(** The statistic [1.8e-36] and the value [0.875] of [random_sample()]. *)
Definition tau_small : float := 0x1.32410eadbdd01p-119%float.
Definition u_sample : float := 0x1.cp-1%float.

(** [tau/rhomax - tau/rhomin] at these values, about [-1.8e-16], and
    the binary64 number nearest to its exponential, [1 - 2**-52]. *)
Definition exp_argument : float := (-0x1.9f0d3ef048af3p-53)%float.
Definition exp_value : float := 0x1.ffffffffffffep-1%float.

(** The upper end [2**-52] of the uniform draw at these values, and the
    variate [1.75 * 2**-53] drawn. *)
Definition eta_end : float := 0x1p-52%float.
Definition eta_drawn : float := 0x1.cp-53%float.

(** [1 - eta] at these values, again [1 - 2**-52], and the binary64
    number nearest to its logarithm, [-(2**-52 + 2**-104)]. *)
Definition log_argument : float := 0x1.ffffffffffffep-1%float.
Definition log_value : float := (-0x1.0000000000001p-52)%float.

(** The draw at these values, about [8.1e-21]. *)
Definition rhonew_small : float := 0x1.32410ead532f1p-67%float.

(** A C library that is known at the two arguments only. *)
Definition two_value_libm : Libm :=
  {| np_exp := fun x => if (x =? exp_argument)%float then exp_value else 1%float;
     np_log := fun y => if (y =? log_argument)%float then log_value else 0%float |}.

End Binary64.
(** * Properties *)

(** ** Floating-point arithmetic on finite values *)

Section FloatFacts.

Local Open Scope R_scope.

Lemma Rltb_true (a b : R) : a < b -> Float.Rltb a b = true.
Proof.
  intros H. unfold Float.Rltb. destruct (Rlt_dec a b); [reflexivity | contradiction].
Qed.

Lemma Rltb_false (a b : R) : b <= a -> Float.Rltb a b = false.
Proof.
  intros H. unfold Float.Rltb. destruct (Rlt_dec a b); [lra | reflexivity].
Qed.

Lemma Rltb_spec (a b : R) : Float.Rltb a b = true <-> a < b.
Proof.
  unfold Float.Rltb. destruct (Rlt_dec a b); split; intros; try assumption;
    try reflexivity; try discriminate; contradiction.
Qed.

Lemma Reqb_refl (a : R) : Float.Reqb a a = true.
Proof.
  unfold Float.Reqb. destruct (Req_dec_T a a); [reflexivity | contradiction].
Qed.

Lemma Reqb_false (a b : R) : a <> b -> Float.Reqb a b = false.
Proof.
  intros H. unfold Float.Reqb. destruct (Req_dec_T a b); [contradiction | reflexivity].
Qed.

Lemma div_fin (a b : R) : b <> 0 -> (Fin a / Fin b)%flt = Fin (a / b).
Proof. intros H. simpl. now rewrite Reqb_false. Qed.

Lemma log_fin (a : R) : 0 < a -> Float.log (Fin a) = Fin (ln a).
Proof. intros H. simpl. now rewrite Rltb_true. Qed.

Lemma eta_upper_fin (rhomin rhomax tau : R) :
  rhomin <> 0 -> rhomax <> 0 ->
  eta_upper (Fin rhomin) (Fin rhomax) (Fin tau) =
  Fin (1 - exp (tau / rhomax - tau / rhomin)).
Proof.
  intros Hmin Hmax. unfold eta_upper. rewrite !div_fin by assumption.
  reflexivity.
Qed.

(** The denominator of the analytic draw lies strictly between
    [tau/rhomax] and [tau/rhomin]. *)
Lemma analytic_denominator (tau rhomin rhomax u : R) :
  0 < tau -> 0 < rhomin -> rhomin < rhomax ->
  0 < u -> u < 1 - exp (tau / rhomax - tau / rhomin) ->
  0 < 1 - u /\
  tau / rhomax < tau / rhomax - ln (1 - u) < tau / rhomin.
Proof.
  intros Htau Hmin Hlt Hu0 Hu1.
  pose proof (exp_pos (tau / rhomax - tau / rhomin)) as Hexp.
  assert (Hpos : 0 < 1 - u) by lra.
  split; [assumption |].
  assert (Hlo : tau / rhomax - tau / rhomin < ln (1 - u)).
  { rewrite <- (ln_exp (tau / rhomax - tau / rhomin)).
    apply ln_increasing; lra. }
  assert (Hhi : ln (1 - u) < 0).
  { rewrite <- ln_1. apply ln_increasing; lra. }
  lra.
Qed.

End FloatFacts.

(** The formula of the analytic draw over the real numbers, where no
    operation rounds: for [tau > 0], [0 < rhomin < rhomax] and a variate
    [u] strictly between [0] and [1 - exp(tau/rhomax - tau/rhomin)], the
    value [tau / (tau/rhomax - log(1-u))] is in [[rhomin, rhomax]]. The
    code evaluates the formula in binary64, where this fails. *)
Theorem rhonew_analytic_within_bounds (tau rhomin rhomax u : R) :
  (0 < tau)%R -> (0 < rhomin)%R -> (rhomin < rhomax)%R ->
  Float.ltb (Fin 0) (Fin u) = true ->
  Float.ltb (Fin u) (eta_upper (Fin rhomin) (Fin rhomax) (Fin tau)) = true ->
  exists rho : R,
    rhonew_analytic (Fin rhomax) (Fin tau) (Fin u) = Fin rho /\
    (rhomin <= rho <= rhomax)%R.
Proof.
  intros Htau Hmin Hlt Hu0 Hu1.
  rewrite eta_upper_fin in Hu1 by lra.
  simpl in Hu0, Hu1. apply Rltb_spec in Hu0. apply Rltb_spec in Hu1.
  destruct (analytic_denominator tau rhomin rhomax u Htau Hmin Hlt Hu0 Hu1)
    as [Hpos [Hlo Hhi]].
  assert (Hmax : (0 < rhomax)%R) by lra.
  assert (Hq : (0 < tau / rhomax)%R) by (apply Rdiv_lt_0_compat; assumption).
  set (den := (tau / rhomax - ln (1 - u))%R) in *.
  assert (Hden : (0 < den)%R) by lra.
  exists (tau / den)%R. split.
  - unfold rhonew_analytic. rewrite div_fin by lra.
    change (Fin 1 - Fin u)%flt with (Fin (1 - u)).
    rewrite log_fin by assumption.
    change (Fin (tau / rhomax) - Fin (ln (1 - u)))%flt with (Fin den).
    apply div_fin. lra.
  - split.
    + apply (Rmult_le_reg_r den); [assumption |].
      replace (tau / den * den)%R with tau by (field; lra).
      apply (Rmult_lt_compat_l rhomin) in Hhi; [| assumption].
      replace (rhomin * (tau / rhomin))%R with tau in Hhi by (field; lra).
      lra.
    + apply (Rmult_le_reg_r den); [assumption |].
      replace (tau / den * den)%R with tau by (field; lra).
      apply (Rmult_lt_compat_l rhomax) in Hlo; [| assumption].
      replace (rhomax * (tau / rhomax))%R with tau in Hlo by (field; lra).
      lra.
Qed.

(** [tau = 1], [rhomin = 1], [rhomax = 2], [u = 1/4]. *)
Lemma rhonew_analytic_within_bounds_witness :
  exists rho : R,
    rhonew_analytic (Fin 2) (Fin 1) (Fin (1 / 4)) = Fin rho /\ (1 <= rho <= 2)%R.
Proof.
  apply (rhonew_analytic_within_bounds 1 1 2 (1 / 4)); try lra.
  - simpl. apply Rltb_true. lra.
  - rewrite eta_upper_fin by lra. simpl. apply Rltb_true.
    pose proof (exp_ineq1 (1 / 2)%R ltac:(lra)) as H.
    replace (1 / 2 - 1 / 1)%R with (- (1 / 2))%R by lra.
    rewrite exp_Ropp.
    assert (Hinv : (/ exp (1 / 2) < / (3 / 2))%R).
    { apply Rinv_lt_contravar; [| lra].
      apply Rmult_lt_0_compat; [lra | apply exp_pos]. }
    lra.
Defined.

(** ** Reasoning about statements *)

Section Reasoning.

Context {St : Type}.

Lemma post_ret {A} (a : A) s (Q : A -> St -> Prop) QE : Q a s -> post (ret a) s Q QE.
Proof. exact (fun H => H). Qed.

Lemma post_raise {A} e s (Q : A -> St -> Prop) (QE : St -> Prop) :
  QE s -> post (raise e) s Q QE.
Proof. exact (fun H => H). Qed.

Lemma post_bind {A B} (c : M St A) (k : A -> M St B) s Q QE :
  post c s (fun a s' => post (k a) s' Q QE) QE -> post (bind c k) s Q QE.
Proof. unfold post, bind. destruct (c s); exact (fun H => H). Qed.

Lemma post_gets {A} (f : St -> A) s (Q : A -> St -> Prop) QE :
  Q (f s) s -> post (gets f) s Q QE.
Proof. exact (fun H => H). Qed.

Lemma post_get s (Q : St -> St -> Prop) QE : Q s s -> post get s Q QE.
Proof. exact (fun H => H). Qed.

Lemma post_modify (f : St -> St) s (Q : unit -> St -> Prop) QE :
  Q tt (f s) -> post (modify f) s Q QE.
Proof. exact (fun H => H). Qed.

Lemma post_lift_result {A} (r : exn + A) s (Q : A -> St -> Prop) (QE : St -> Prop) :
  (forall a, r = inr a -> Q a s) -> (forall e, r = inl e -> QE s) ->
  post (lift_result r) s Q QE.
Proof. destruct r; intros HQ HE; [apply (HE e) | apply (HQ a)]; reflexivity. Qed.

Lemma post_conseq {A} (m : M St A) s (Q Q' : A -> St -> Prop) (QE QE' : St -> Prop) :
  post m s Q QE ->
  (forall a s', Q a s' -> Q' a s') -> (forall s', QE s' -> QE' s') ->
  post m s Q' QE'.
Proof. unfold post. destruct (m s); intros H HQ HE; auto. Qed.

Lemma post_try {A} (body handler : M St A) s Q QE :
  post body s Q (fun s' => QE s' /\ post handler s' Q QE) ->
  post (try_except_LinAlgError body handler) s Q QE.
Proof.
  unfold post, try_except_LinAlgError. destruct (body s) as [a s' | e s']; [auto |].
  intros [HE Hh]. destruct e; assumption.
Qed.

(** Loop rule: [Inv i acc s] holds before the pass with index [i]. *)
Lemma post_for_range {A} (body : nat -> A -> M St A) (Inv : nat -> A -> St -> Prop)
    (QE : St -> Prop) n :
  forall lo acc s,
    Inv lo acc s ->
    (forall i acc s, lo <= i < lo + n -> Inv i acc s ->
                     post (body i acc) s (Inv (S i)) QE) ->
    post (for_range n lo body acc) s (Inv (lo + n)) QE.
Proof.
  induction n as [| n IH]; intros lo acc s H0 Hbody; simpl.
  - apply post_ret. now rewrite Nat.add_0_r.
  - apply post_bind. eapply post_conseq.
    + apply Hbody; [lia | exact H0].
    + intros acc' s' H1. simpl. replace (lo + S n) with (S lo + n) by lia.
      apply IH; [exact H1 |]. intros i acc'' s'' Hi. apply Hbody. lia.
    + auto.
Qed.

(** Rule for comprehensions: [Inv done s] after the elements [done]. *)
Lemma post_map_M {A B} (f : A -> M St B) (Inv : list B -> St -> Prop) (QE : St -> Prop) :
  forall l acc s,
    Inv acc s ->
    (forall x acc s, x ∈ l -> Inv acc s ->
                     post (f x) s (fun y s' => Inv (acc ++ [y]) s') QE) ->
    post (map_M f l) s (fun ys s' => Inv (acc ++ ys) s') QE.
Proof.
  induction l as [| x l IH]; intros acc s H0 Hf; simpl.
  - apply post_ret. now rewrite app_nil_r.
  - apply post_bind. eapply post_conseq.
    + apply Hf; [left | exact H0].
    + intros y s' H1. simpl. apply post_bind. eapply post_conseq.
      * apply (IH (acc ++ [y]) s' H1). intros x' acc' s'' Hx. apply Hf. now right.
      * intros ys s'' H2. cbv beta in H2. apply post_ret.
        now rewrite <- app_assoc in H2.
      * auto.
    + auto.
Qed.

Section Keeps.

Variable R : St -> St -> Prop.
Hypothesis R_refl : forall s, R s s.
Hypothesis R_trans : forall s1 s2 s3, R s1 s2 -> R s2 s3 -> R s1 s3.

Lemma keeps_ret {A} (a : A) : keeps R (ret a).
Proof. intros s. apply R_refl. Qed.

Lemma keeps_raise {A} e : keeps R (@raise St A e).
Proof. intros s. apply R_refl. Qed.

Lemma keeps_gets {A} (f : St -> A) : keeps R (gets f).
Proof. intros s. apply R_refl. Qed.

Lemma keeps_get : keeps R get.
Proof. intros s. apply R_refl. Qed.

Lemma keeps_lift_result {A} (r : exn + A) : keeps R (@lift_result St A r).
Proof. intros s. destruct r; apply R_refl. Qed.

Lemma keeps_modify (f : St -> St) : (forall s, R s (f s)) -> keeps R (modify f).
Proof. intros H s. apply H. Qed.

Lemma keeps_bind {A B} (c : M St A) (k : A -> M St B) :
  keeps R c -> (forall a, keeps R (k a)) -> keeps R (bind c k).
Proof.
  intros Hc Hk s. unfold bind. specialize (Hc s).
  destruct (c s) as [a s' | e s']; simpl in *; [| exact Hc].
  eapply R_trans; [exact Hc | apply Hk].
Qed.

Lemma keeps_try {A} (body handler : M St A) :
  keeps R body -> keeps R handler -> keeps R (try_except_LinAlgError body handler).
Proof.
  intros Hb Hh s. unfold try_except_LinAlgError. specialize (Hb s).
  destruct (body s) as [a s' | e s']; simpl in *; [exact Hb |].
  destruct e; simpl; try exact Hb.
  eapply R_trans; [exact Hb | apply Hh].
Qed.

Lemma keeps_for_range {A} (body : nat -> A -> M St A) n :
  (forall i acc, keeps R (body i acc)) ->
  forall lo acc, keeps R (for_range n lo body acc).
Proof.
  intros Hbody. induction n as [| n IH]; intros lo acc; simpl.
  - apply keeps_ret.
  - apply keeps_bind; [apply Hbody | intros acc'; apply IH].
Qed.

Lemma keeps_map_M {A B} (f : A -> M St B) l :
  (forall x, keeps R (f x)) -> keeps R (map_M f l).
Proof.
  intros Hf. induction l as [| x l IH]; simpl.
  - apply keeps_ret.
  - apply keeps_bind; [apply Hf | intros y].
    apply keeps_bind; [exact IH | intros ys; apply keeps_ret].
Qed.

Lemma keeps_post {A} (m : M St A) s :
  keeps R m -> post m s (fun _ s' => R s s') (fun s' => R s s').
Proof. intros H. specialize (H s). unfold post. destruct (m s); exact H. Qed.

End Keeps.

End Reasoning.

(** Splits a statement along its structure, for a relation with proofs
    [refl] and [trans] of reflexivity and transitivity; calls are closed
    by the lemmas in hand, state updates by [leaf]. *)
Ltac keeps_split refl trans leaf :=
  repeat lazymatch goal with
    | |- keeps _ (bind _ _) => apply (keeps_bind _ trans); [| intros ?]
    | |- keeps _ (ret _) => apply (keeps_ret _ refl)
    | |- keeps _ (raise _) => apply (keeps_raise _ refl)
    | |- keeps _ (gets _) => apply (keeps_gets _ refl)
    | |- keeps _ get => apply (keeps_get _ refl)
    | |- keeps _ (lift_result _) => apply (keeps_lift_result _ refl)
    | |- keeps _ (modify _) => apply keeps_modify; leaf
    | |- keeps _ (try_except_LinAlgError _ _) => apply (keeps_try _ trans)
    | |- keeps _ (for_range _ _ _ _) => apply (keeps_for_range _ refl trans); intros ? ?
    | |- keeps _ (map_M _ _) => apply (keeps_map_M _ refl trans); intros ?
    | |- keeps _ (match ?x with _ => _ end) => destruct x
    | |- keeps _ (let (_, _) := ?x in _) => destruct x
    | |- keeps _ _ => solve [eauto]
    end.

(** ** Construction *)

Section Construction.

Context (X : Externals).

(** C8. Constructing the sampler over a model that has a signal of
    class [EcorrKernelNoise] (correlated noise as a kernel, not a basis)
    raises at once: a [TypeError] with the message of the source (an
    [IndexError] if the model has no pulsar at all), with no output, no
    draw and no object on which [sample] could run. *)
Theorem init_rejects_kernel_ecorr (pta : PTA) (hypersample ecorrsample : string)
    (psr : option Pulsar) (e : Env) :
  existsb (py_in "EcorrKernelNoise")
          (map (fun kv => sig_class_name (snd kv)) (pta_signals pta)) = true ->
  init X pta hypersample ecorrsample psr e =
  Raise (match pta_pulsars pta with
         | [] => IndexError
         | _ :: _ => TypeError KERNEL_ECORR_MESSAGE
         end) e.
Proof.
  intros Hkernel. unfold init, bind.
  destruct (pta_pulsars pta) as [| name rest]; simpl; [reflexivity |].
  now rewrite Hkernel.
Qed.

(** The constructor never looks at [hypersample]: it only stores it. *)
Lemma bind_under_outcome {A B} (c : M Env A) (k k' : A -> M Env B)
    (F : outcome Env B -> outcome Env B) (s : Env) :
  (forall ex s', F (Raise ex s') = Raise ex s') ->
  (forall a s', k a s' = F (k' a s')) ->
  bind c k s = F (bind c k' s).
Proof.
  intros HF Hk. unfold bind. destruct (c s); [apply Hk | symmetry; apply HF].
Qed.

Lemma init_ignores_hypersample (pta : PTA) (mode mode' ecorrsample : string)
    (psr : option Pulsar) (e : Env) :
  init X pta mode ecorrsample psr e =
  match init X pta mode' ecorrsample psr e with
  | Ok g e' => Ok (with_hypersample mode g) e'
  | Raise ex e' => Raise ex e'
  end.
Proof.
  unfold init.
  set (F := fun o : outcome Env (Gibbs X) =>
              match o with
              | Ok g e' => Ok (with_hypersample mode g) e'
              | Raise ex e' => Raise ex e'
              end).
  change (match ?o with Ok g e' => Ok (with_hypersample mode g) e'
                      | Raise ex e' => Raise ex e' end) with (F o).
  repeat first
    [ apply (bind_under_outcome _ _ _ F); [reflexivity | intros ? ?; cbv beta zeta]
    | lazymatch goal with
      | |- (if ?b then _ else _) _ = _ => destruct b; [reflexivity |]
      end ].
  reflexivity.
Qed.

End Construction.

(** C8 at [kernel_ecorr_pta]. *)
Lemma init_rejects_kernel_ecorr_witness :
  init fixed_collaborators kernel_ecorr_pta "conditional" "mh" None small_env =
  Raise (TypeError KERNEL_ECORR_MESSAGE) small_env.
Proof.
  apply (init_rejects_kernel_ecorr fixed_collaborators kernel_ecorr_pta). reflexivity.
Defined.

(** [PulsarBlockGibbs(small_pta, mode, 'mh')] succeeds for every mode. *)
Lemma small_init (mode : string) :
  init fixed_collaborators small_pta mode "mh" None small_env =
  Ok (self (small_world mode)) (env (small_world mode)).
Proof.
  unfold small_world.
  rewrite (init_ignores_hypersample fixed_collaborators small_pta mode "mh").
  assert (H : exists g e, init fixed_collaborators small_pta "mh" "mh" None small_env
                          = Ok g e).
  { eexists _, _. cbv -[IZR Rplus Rmult Ropp Rdiv Rtrigo_def.exp ln]. reflexivity. }
  destruct H as (g & e & ->). reflexivity.
Qed.

(** ** The free-spectrum block outside the conditional mode *)

Section NotConditional.

Context (X : Externals).

(** With a mode other than ['conditional'], [update_gwrho_params]
    copies its argument, prints and returns the copy. *)
Lemma update_gwrho_not_conditional (w : World X) (xs : addr) :
  String.eqb (self_hypersample (setup (self w))) "conditional" = false ->
  update_gwrho_params X xs w =
  Ok (length (heap (env w)))
     (on_env (fun e => log_event (EvPrint NOT_CONDITIONAL_MESSAGE)
                         (set_heap (heap e ++ [heap e !!! xs]) e)) w).
Proof.
  intros Hmode. unfold update_gwrho_params.
  unfold bind at 1. unfold gets. cbv beta iota zeta.
  unfold bind at 1. unfold np_copy at 1. unfold bind at 1.
  unfold load, alloc, bind, gets, modify, ret. cbv beta iota zeta.
  rewrite Hmode. reflexivity.
Qed.

(** C3, as the code has it. The constructor does not check
    [hypersample]: with any mode it fails or succeeds exactly as with
    ['conditional'] and stores the mode. With a mode other than
    ['conditional'], every call of [update_gwrho_params] returns a new
    copy of the parameter vector, unchanged, after printing
    [ERROR: Only conditional draws on rho for now...]; it draws nothing
    and raises nothing. *)
Theorem hypersample_is_not_checked (pta : PTA) (mode ecorrsample : string)
    (psr : option Pulsar) (e : Env) :
  String.eqb mode "conditional" = false ->
  init X pta mode ecorrsample psr e =
    match init X pta "conditional" ecorrsample psr e with
    | Ok g e' => Ok (with_hypersample mode g) e'
    | Raise ex e' => Raise ex e'
    end /\
  forall (w : World X) (xs : addr),
    self_hypersample (setup (self w)) = mode ->
    exists w',
      update_gwrho_params X xs w = Ok (length (heap (env w))) w' /\
      heap (env w') = heap (env w) ++ [heap (env w) !!! xs] /\
      trace (env w') = EvPrint NOT_CONDITIONAL_MESSAGE :: trace (env w) /\
      draws (env w') = draws (env w) /\
      fs (env w') = fs (env w) /\
      self w' = self w.
Proof.
  intros Hmode. split; [apply init_ignores_hypersample |].
  intros w xs Hw. eexists. split.
  - apply update_gwrho_not_conditional. now rewrite Hw.
  - repeat split.
Qed.

End NotConditional.

(** The amended C3 at the mode ['mh']. *)
Lemma hypersample_is_not_checked_witness :
  init fixed_collaborators small_pta "mh" "mh" None small_env =
    match init fixed_collaborators small_pta "conditional" "mh" None small_env with
    | Ok g e' => Ok (with_hypersample "mh" g) e'
    | Raise ex e' => Raise ex e'
    end /\
  forall (w : World fixed_collaborators) (xs : addr),
    self_hypersample (setup (self w)) = "mh" ->
    exists w',
      update_gwrho_params fixed_collaborators xs w = Ok (length (heap (env w))) w' /\
      heap (env w') = heap (env w) ++ [heap (env w) !!! xs] /\
      trace (env w') = EvPrint NOT_CONDITIONAL_MESSAGE :: trace (env w) /\
      draws (env w') = draws (env w) /\
      fs (env w') = fs (env w) /\
      self w' = self w.
Proof.
  apply (hypersample_is_not_checked fixed_collaborators small_pta "mh" "mh" None small_env).
  reflexivity.
Defined.

(** C3 fails as stated: with [hypersample='mh'] the construction
    succeeds, and the free-spectrum update returns the parameter vector
    it was given, position by position. *)
Lemma hypersample_mh_is_accepted :
  exists (g : Gibbs fixed_collaborators) (e : Env) (a : addr)
         (w' : World fixed_collaborators),
    init fixed_collaborators small_pta "mh" "mh" None small_env = Ok g e /\
    self_hypersample (setup g) = "mh" /\
    update_gwrho_params fixed_collaborators 0 {| self := g; env := e |} = Ok a w' /\
    heap (env w') !!! a = [Fin 1; Fin (-7); Fin (-7)] /\
    heap e !!! 0 = [Fin 1; Fin (-7); Fin (-7)].
Proof.
  exists (self (small_world "mh")), (env (small_world "mh")).
  eexists _, _. split; [apply small_init |].
  split; [reflexivity |]. split.
  - apply update_gwrho_not_conditional. reflexivity.
  - split; reflexivity.
Qed.

(** Evaluates a statement on concrete data, leaving the arithmetic of
    the reals alone. *)
Ltac run :=
  cbv -[IZR Rplus Rmult Ropp Rminus Rdiv Rinv Rtrigo_def.exp ln R_sqrt.sqrt
        Req_dec_T Rlt_dec Int_part up].

(** ** The full-marginal likelihood *)

Section FullMarginal.

Context (X : Externals).

(** A proposal whose log-likelihood is [-inf] never passes the
    Metropolis test of this class, whatever the other terms are. *)
Lemma metropolis_rejects_neg_inf (lnprior1 lnlike0 lnprior0 u : float) :
  metropolis_accept NInf lnprior1 lnlike0 lnprior0 u = false.
Proof.
  unfold metropolis_accept, Float.gtb.
  destruct lnprior1, lnlike0, lnprior0, (Float.log u); reflexivity.
Qed.

(** C7. When [get_lnlikelihood_fullmarg] reaches its Cholesky
    factorization and [cho_factor] fails with [LinAlgError] ([Sigma] is
    not positive-definite), the method returns [-inf] and raises
    nothing, leaving the object as the statements before the [try] made
    it; and a proposal of log-likelihood [-inf] is rejected by the
    Metropolis test, whatever the prior and the current state are. *)
Theorem fullmarg_cholesky_failure (w w1 : World X) (xs : vec) (p : fullmarg_parts) :
  fullmarg_prepare X xs w = Ok p w1 ->
  sl_cho_factor X (fm_Sigma p) = inl LinAlgError ->
  get_lnlikelihood_fullmarg X xs w = Ok NInf w1 /\
  forall lnprior1 lnlike0 lnprior0 u : float,
    metropolis_accept NInf lnprior1 lnlike0 lnprior0 u = false.
Proof.
  intros Hprep Hchol. split; [| apply metropolis_rejects_neg_inf].
  unfold get_lnlikelihood_fullmarg, bind. rewrite Hprep.
  unfold fullmarg_finish, bind, gets, try_except_LinAlgError, lift_result.
  rewrite Hchol. reflexivity.
Qed.

End FullMarginal.

(** C7 at the small configuration, whose [cho_factor] always fails. *)
Lemma fullmarg_cholesky_failure_witness :
  exists w1 : World fixed_collaborators,
    get_lnlikelihood_fullmarg fixed_collaborators [Fin 1; Fin (-7); Fin (-7)]
      (small_world "conditional") = Ok NInf w1 /\
    forall lnprior1 lnlike0 lnprior0 u : float,
      metropolis_accept NInf lnprior1 lnlike0 lnprior0 u = false.
Proof.
  eexists.
  eapply (fullmarg_cholesky_failure fixed_collaborators (small_world "conditional")).
  - run. reflexivity.
  - reflexivity.
Defined.

(** ** What the block samplers leave alone *)

Lemma bind_Ok_inv {St A B} (c : M St A) (k : A -> M St B) s b s' :
  bind c k s = Ok b s' -> exists a s1, c s = Ok a s1 /\ k a s1 = Ok b s'.
Proof.
  unfold bind. destruct (c s) as [a s1 | e s1]; [| discriminate].
  intros H. now exists a, s1.
Qed.

Lemma keeps_weaken {St A} (R R' : St -> St -> Prop) (m : M St A) :
  (forall s s', R s s' -> R' s s') -> keeps R m -> keeps R' m.
Proof. intros HR Hm s. apply HR, Hm. Qed.

Section BlockFrame.

Context (X : Externals).

Lemma block_step_refl (w : World X) : block_step w w.
Proof. unfold block_step. repeat split; auto. Qed.

Lemma block_step_trans (w1 w2 w3 : World X) :
  block_step w1 w2 -> block_step w2 w3 -> block_step w1 w3.
Proof.
  unfold block_step. intros (P1 & C1 & B1 & S1 & E1 & F1) (P2 & C2 & B2 & S2 & E2 & F2).
  repeat split; try congruence; [etrans; eassumption | auto].
Qed.

(** Solves the state updates met in the block samplers. *)
Ltac block_leaf :=
  intros; unfold block_step; cbn;
  repeat split; auto; try reflexivity;
  try (apply prefix_app_r; reflexivity).

Ltac block_split := keeps_split block_step_refl block_step_trans block_leaf.

Lemma keeps_print (msg : string) : keeps block_step (print (St := World X) msg).
Proof. unfold print. block_split. Qed.

Lemma keeps_next_draw : keeps block_step (next_draw (St := World X)).
Proof. unfold next_draw. block_split. Qed.

Lemma keeps_randn : keeps block_step (np_random_randn X (St := World X)).
Proof. pose proof keeps_next_draw. unfold np_random_randn. block_split. Qed.

Lemma keeps_rand : keeps block_step (np_random_rand X (St := World X)).
Proof. pose proof keeps_next_draw. unfold np_random_rand. block_split. Qed.

Lemma keeps_uniform lo hi : keeps block_step (np_random_uniform X (St := World X) lo hi).
Proof. pose proof keeps_next_draw. unfold np_random_uniform. block_split. Qed.

Lemma keeps_gumbel : keeps block_step (np_random_gumbel X (St := World X)).
Proof. pose proof keeps_next_draw. unfold np_random_gumbel. block_split. Qed.

Lemma keeps_alloc v : keeps block_step (alloc (St := World X) v).
Proof. unfold alloc. block_split. Qed.

Lemma keeps_load a : keeps block_step (load (St := World X) a).
Proof. unfold load. block_split. Qed.

Lemma keeps_np_copy a : keeps block_step (np_copy (St := World X) a).
Proof. pose proof keeps_alloc. pose proof keeps_load. unfold np_copy. block_split. Qed.

Lemma keeps_fill_cache T Nvec : keeps block_step (fill_cache X T Nvec).
Proof. unfold fill_cache. block_split. Qed.

Lemma keeps_fullmarg xs : keeps block_step (get_lnlikelihood_fullmarg X xs).
Proof.
  pose proof keeps_fill_cache.
  unfold get_lnlikelihood_fullmarg, fullmarg_prepare, fullmarg_finish. block_split.
Qed.

Lemma keeps_update_b xs : keeps block_step (update_b X xs).
Proof.
  pose proof keeps_fill_cache. pose proof keeps_randn.
  unfold update_b. block_split.
Qed.

Lemma insert_at_end {A} (h : list A) (x v : A) :
  <[length h := x]> (h ++ [v]) = h ++ [x].
Proof.
  replace (length h) with (length h + 0) by lia.
  now rewrite insert_app_r.
Qed.

Lemma lookup_total_at_end (h : list vec) (v : vec) : (h ++ [v]) !!! length h = v.
Proof.
  apply list_lookup_total_correct.
  rewrite lookup_app_r by lia. now rewrite Nat.sub_diag.
Qed.

Lemma item_inr_lookup {A} (l : list A) i x : item l i = inr x -> l !! i = Some x.
Proof. unfold item. destruct (l !! i); congruence. Qed.

(** The proposal is a new array: a copy of [xnew] in which one
    position of the block may differ. Nothing else changes but the
    generator. *)
Lemma propose_post (w : World X) (wind : list nat) (xnew : addr) :
  post (propose X wind xnew) w
    (fun q w' =>
       q = length (heap (env w)) /\ self w' = self w /\
       fs (env w') = fs (env w) /\ trace (env w') = trace (env w) /\
       exists par z, par ∈ wind /\ par < length (heap (env w) !!! xnew) /\
         heap (env w') = heap (env w) ++ [<[par := z]> (heap (env w) !!! xnew)])
    (fun w' =>
       self w' = self w /\ fs (env w') = fs (env w) /\ trace (env w') = trace (env w) /\
       heap (env w') = heap (env w) ++ [heap (env w) !!! xnew]).
Proof.
  unfold post, propose, np_copy, alloc, load, store, choice_index, np_random_randn,
    next_draw, bind, gets, modify, ret, raise, lift_result.
  destruct wind as [| i0 wind']; [cbn; repeat split |].
  set (wind := i0 :: wind').
  cbn -[Nat.modulo Float.add Float.mul Float.of_nat choice_scale item lookup_total
        insert wind].
  destruct (item wind _) as [e | par] eqn:Hpar; [repeat split |].
  cbn -[Float.add Float.mul Float.of_nat choice_scale item lookup_total insert wind].
  rewrite lookup_total_at_end.
  destruct (item _ par) as [e | x] eqn:Hx; [repeat split |].
  cbn -[Float.add Float.mul Float.of_nat choice_scale item lookup_total insert wind].
  do 4 (split; [reflexivity |]).
  exists par. eexists. split; [| split].
  - apply item_inr_lookup in Hpar. eapply list_elem_of_lookup_2; eassumption.
  - apply item_inr_lookup in Hx. eapply lookup_lt_Some; eassumption.
  - apply insert_at_end.
Qed.

Lemma agree_outside_refl (ind : list nat) (v : vec) : agree_outside ind v v.
Proof. split; auto. Qed.

Lemma agree_outside_insert (ind : list nat) (v v0 : vec) (par : nat) (z : float) :
  par ∈ ind -> agree_outside ind v v0 -> agree_outside ind (<[par := z]> v) v0.
Proof.
  intros Hpar [Hlen Hag]. split.
  - now rewrite length_insert.
  - intros j Hj. rewrite list_lookup_insert_ne; [auto |].
    intros ->. contradiction.
Qed.

Lemma white_step_refl (w : World X) : white_step w w.
Proof. unfold white_step, same_but_white_tuning. repeat split; auto. Qed.

Lemma white_step_trans (w1 w2 w3 : World X) :
  white_step w1 w2 -> white_step w2 w3 -> white_step w1 w3.
Proof.
  unfold white_step, same_but_white_tuning.
  intros (P1 & F1 & T1 & A1) (P2 & F2 & T2 & A2).
  split; [etrans; eassumption |].
  split; [congruence |]. split; [congruence |].
  destruct A1 as (? & ? & ? & ? & ? & ? & ? & ?).
  destruct A2 as (? & ? & ? & ? & ? & ? & ? & ?).
  repeat split; congruence.
Qed.

Lemma white_step_block_step (w w' : World X) : white_step w w' -> block_step w w'.
Proof.
  unfold white_step, block_step, same_but_white_tuning, save_events.
  intros (P & F & T & S & _ & _ & _ & _ & C & B & _).
  repeat split; auto; try congruence.
Qed.

Lemma only_draws_white_step (w w' : World X) : only_draws w w' -> white_step w w'.
Proof.
  unfold only_draws, white_step, same_but_white_tuning. intros (S & H & F & T).
  rewrite S, H. repeat split; auto.
Qed.

(** The Metropolis test keeps the current state or moves to the
    proposal; it draws one number and changes nothing else. *)
Lemma metropolis_white_post (s : World X) (q : addr) (st : mh_state) :
  post (metropolis_white X q st) s
    (fun st' s' => (st' = st \/ mh_xnew st' = q) /\ only_draws s s')
    (fun s' => only_draws s s').
Proof.
  unfold post, metropolis_white, np_random_rand, next_draw, load, bind, gets, modify,
    ret, raise, lift_result.
  destruct (get_lnlikelihood_white X (self s) _) as [e | l1]; [repeat split |].
  destruct (get_lnprior X (self s) _) as [e | p1]; [repeat split |].
  cbn -[metropolis_accept].
  destruct (metropolis_accept _ _ _ _ _); cbn; repeat split; auto.
Qed.

Lemma post_np_copy (s : World X) (a : addr) (Q : addr -> World X -> Prop) QE :
  Q (length (heap (env s)))
    (on_env (fun e => set_heap (heap e ++ [heap (env s) !!! a]) e) s) ->
  post (np_copy a) s Q QE.
Proof. exact (fun H => H). Qed.

Lemma post_load (s : World X) (a : addr) (Q : vec -> World X -> Prop) QE :
  Q (heap (env s) !!! a) s -> post (load a) s Q QE.
Proof. exact (fun H => H). Qed.

Lemma lookup_total_app_l (h k : list vec) (a : nat) :
  a < length h -> (h ++ k) !!! a = h !!! a.
Proof.
  intros Ha. apply list_lookup_total_correct. rewrite lookup_app_l by assumption.
  apply list_lookup_lookup_total_lt. assumption.
Qed.

Lemma prefix_lookup_total (h h' : list vec) (a : nat) :
  h `prefix_of` h' -> a < length h -> h' !!! a = h !!! a.
Proof. intros [k ->] Ha. now apply lookup_total_app_l. Qed.

Lemma white_inv_step (w s : World X) wind v0 st :
  white_inv w wind v0 st s -> white_step w s.
Proof.
  unfold white_inv, white_step, same_but_white_tuning.
  intros (S & F & T & P & _ & _). rewrite S. repeat split; auto.
Qed.

(** One proposal and its Metropolis test keep the invariant; [k] is
    the rest of the loop body. *)
Lemma white_jump_then {B} (w s : World X) (wind : list nat) (v0 : vec) (st : mh_state)
    (k : addr -> mh_state -> M (World X) B) (Q : B -> World X -> Prop) :
  white_inv w wind v0 st s ->
  (forall q st' s', white_inv w wind v0 st' s' -> post (k q st') s' Q (white_step w)) ->
  post (bind (propose X wind (mh_xnew st))
             (fun q => bind (metropolis_white X q st) (fun st' => k q st'))) s
    Q (white_step w).
Proof.
  intros (S & F & T & P & [Hlo Hhi] & Hag) Hk.
  apply post_bind. eapply post_conseq; [apply propose_post | |].
  - intros q s1 (-> & S1 & F1 & T1 & par & z & Hpar & _ & H1). cbv beta.
    apply post_bind.
    eapply post_conseq; [apply metropolis_white_post | |].
    + intros st' s2 [Hst (S2 & H2 & F2 & T2)]. apply Hk.
      unfold white_inv. rewrite S2, H2, F2, T2, S1, F1, T1, H1.
      do 3 (split; [assumption |]).
      split; [apply prefix_app_r; assumption |].
      destruct Hst as [-> | Hq].
      * rewrite lookup_total_app_l by assumption.
        rewrite length_app. cbn. split; [lia | assumption].
      * rewrite Hq, lookup_total_at_end, length_app. cbn.
        apply prefix_length in P.
        split; [lia | apply agree_outside_insert; assumption].
    + intros s2 (S2 & H2 & F2 & T2).
      unfold white_step, same_but_white_tuning.
      rewrite S2, H2, F2, T2, S1, F1, T1, H1, S.
      repeat split; auto. apply prefix_app_r; assumption.
  - intros s1 (S1 & F1 & T1 & H1).
    unfold white_step, same_but_white_tuning. rewrite S1, F1, T1, H1, S.
    repeat split; auto. apply prefix_app_r; assumption.
Qed.

(** The body of the production loop keeps the invariant. *)
Lemma white_jump_post (w s : World X) (wind : list nat) (v0 : vec) (st : mh_state) :
  white_inv w wind v0 st s ->
  post (bind (propose X wind (mh_xnew st)) (fun q => metropolis_white X q st)) s
    (fun st' s' => white_inv w wind v0 st' s')
    (white_step w).
Proof.
  intros Hi.
  pose proof (white_jump_then w s wind v0 st (fun _ st' => ret st')
                (fun st' s' => white_inv w wind v0 st' s') Hi
                (fun q st' s' H => H)) as H.
  unfold post, bind in *.
  destruct (propose X wind (mh_xnew st) s) as [q s1 | e s1]; [| exact H].
  destruct (metropolis_white X q st s1); exact H.
Qed.

(** The state in which the Metropolis loops of [update_white_params]
    start satisfies their invariant. *)
Lemma white_inv_start (w : World X) (wind : list nat) (xs : addr) (l0 p0 : float) :
  white_inv w wind (heap (env w) !!! xs)
    {| mh_xnew := length (heap (env w)); mh_lnlike0 := l0; mh_lnprior0 := p0 |}
    (on_env (fun e => set_heap (heap e ++ [heap (env w) !!! xs]) e) w).
Proof.
  unfold white_inv. cbn. do 3 (split; [reflexivity |]).
  split; [apply prefix_app_r; reflexivity |].
  rewrite length_app, lookup_total_at_end. cbn.
  split; [lia | apply agree_outside_refl].
Qed.

Lemma white_step_set_tuning (w s : World X) (f : Gibbs X -> Gibbs X) :
  (forall g, same_but_white_tuning g (f g)) ->
  white_step w s -> white_step w (on_self f s).
Proof.
  intros Hf Hs. eapply white_step_trans; [exact Hs |].
  unfold white_step. cbn. do 3 (split; [reflexivity |]). apply Hf.
Qed.

Lemma same_but_white_tuning_refl (g : Gibbs X) : same_but_white_tuning g g.
Proof. unfold same_but_white_tuning. repeat split. Qed.

(** What [update_white_params] does to the state, in both modes. *)
Lemma update_white_params_post (w : World X) (xs : addr) (iters : option nat) :
  post (update_white_params X xs iters) w
    (fun a w' =>
       white_step w w' /\
       length (heap (env w)) <= a < length (heap (env w')) /\
       agree_outside (get_efacequad_indices X (self w))
                     (heap (env w') !!! a) (heap (env w) !!! xs) /\
       match iters with
       | Some _ =>
           exists (cols : list vec) (z : Z),
             length cols = length (get_efacequad_indices X (self w)) /\
             aclength_of X cols = inr z /\
             self_aclength_white (self w') = Some z
       | None => self w' = self w
       end)
    (fun w' => white_step w w').
Proof.
  unfold update_white_params.
  apply post_bind, post_gets. cbv beta zeta.
  set (wind := get_efacequad_indices X (self w)).
  apply post_bind, post_np_copy. cbv beta.
  set (s0 := on_env _ w).
  assert (Hs0 : white_step w s0).
  { eapply white_inv_step. apply (white_inv_start w wind xs (Fin 0) (Fin 0)). }
  apply post_bind, post_load.
  apply post_bind, post_lift_result; [intros l0 _ | intros; exact Hs0].
  apply post_bind, post_lift_result; [intros p0 _ | intros; exact Hs0].
  cbv beta zeta. subst s0.
  pose proof (white_inv_start w wind xs l0 p0) as Hinv.
  set (st0 := {| mh_xnew := _ |}) in *. set (s0 := on_env _ w) in *.
  set (v0 := heap (env w) !!! xs) in *.
  destruct iters as [iters |].
  - (* tuning *)
    apply post_bind.
    eapply post_conseq;
      [ apply (post_for_range _
                 (fun _ (acc : mh_state * list vec) s => white_inv w wind v0 (fst acc) s)
                 (fun s => white_step w s) iters 0 (st0, []) s0 Hinv) | |].
    + intros i [st chain] s _ Hi. cbn [fst snd] in *.
      apply (white_jump_then w s wind v0 st
               (fun q st1 => vq <- load q ;;
                             row <- lift_result (take_indices vq wind) ;;
                             ret (st1, chain ++ [row])) _ Hi).
      intros q st' s' Hi'.
      apply post_bind, post_load.
      apply post_bind, post_lift_result;
        [intros row _; apply post_ret; exact Hi'
        | intros; eapply white_inv_step; exact Hi'].
    + intros [st chain] s Hi. cbn [fst snd] in *. cbv beta zeta.
      pose proof (white_inv_step _ _ _ _ _ Hi) as Hstep.
      destruct Hi as (S & F & T & P & Hrange & Hag).
      apply post_bind, post_modify.
      set (s1 := on_self _ s).
      assert (H1 : white_step w s1)
        by (apply white_step_set_tuning; [intros g; unfold same_but_white_tuning; repeat split
                                         | exact Hstep]).
      apply post_bind.
      destruct (length wind =? 1); [exact H1 |].
      apply post_ret, post_bind, post_modify.
      set (s2 := on_self _ s1).
      assert (H2 : white_step w s2)
        by (apply white_step_set_tuning; [intros g; unfold same_but_white_tuning; repeat split
                                         | exact H1]).
      apply post_bind, post_lift_result; [intros usv _ | intros; exact H2].
      apply post_bind, post_modify.
      set (s3 := on_self _ s2).
      assert (H3 : white_step w s3)
        by (apply white_step_set_tuning; [intros g; unfold same_but_white_tuning; repeat split
                                         | exact H2]).
      apply post_bind, post_lift_result; [intros z Hz | intros; exact H3].
      apply post_bind, post_modify, post_ret.
      split; [apply white_step_set_tuning;
              [intros g; unfold same_but_white_tuning; repeat split | exact H3] |].
      split; [exact Hrange |]. split; [exact Hag |].
      eexists _, z. split; [| split; [exact Hz | reflexivity]].
      now rewrite length_map, length_seq.
    + auto.
  - (* production *)
    apply post_bind, post_lift_result; [intros a _ | intros; exact Hs0].
    apply post_bind.
    eapply post_conseq;
      [ apply (post_for_range _
                 (fun _ (st : mh_state) s => white_inv w wind v0 st s)
                 (fun s => white_step w s) (Z.to_nat a) 0 st0 s0 Hinv) | |].
    + intros i st s _ Hi. apply white_jump_post. exact Hi.
    + intros st s Hi. cbv beta. apply post_ret.
      pose proof (white_inv_step _ _ _ _ _ Hi) as Hstep.
      destruct Hi as (S & F & T & P & Hrange & Hag).
      split; [exact Hstep |]. split; [exact Hrange |]. split; [exact Hag | exact S].
    + auto.
Qed.

Lemma keeps_update_white_params xs iters :
  keeps block_step (update_white_params X xs iters).
Proof.
  intros w. apply white_step_block_step.
  pose proof (update_white_params_post w xs iters) as H. unfold post in H.
  destruct (update_white_params X xs iters w); [apply H | exact H].
Qed.


(** *** The free-spectrum block *)

Lemma only_draws_refl (w : World X) : only_draws w w.
Proof. unfold only_draws. repeat split. Qed.

Lemma only_draws_trans (w1 w2 w3 : World X) :
  only_draws w1 w2 -> only_draws w2 w3 -> only_draws w1 w3.
Proof.
  unfold only_draws. intros (S1 & H1 & F1 & T1) (S2 & H2 & F2 & T2).
  repeat split; congruence.
Qed.

Ltac draws_leaf := intros; unfold only_draws; cbn; repeat split.
Ltac draws_split := keeps_split only_draws_refl only_draws_trans draws_leaf.

Lemma draws_next_draw : keeps only_draws (next_draw (St := World X)).
Proof. unfold next_draw. draws_split. Qed.

Lemma draws_uniform lo hi : keeps only_draws (np_random_uniform X (St := World X) lo hi).
Proof. pose proof draws_next_draw. unfold np_random_uniform. draws_split. Qed.

Lemma draws_gumbel : keeps only_draws (np_random_gumbel X (St := World X)).
Proof. pose proof draws_next_draw. unfold np_random_gumbel. draws_split. Qed.

Lemma draws_load a : keeps only_draws (load (St := World X) a).
Proof. unfold load. draws_split. Qed.

(** [put_each] and [put_indices] write inside the index set only. *)
Lemma put_each_agree (ind : list nat) :
  forall (v vals : vec), agree_outside ind (put_each v ind vals) v.
Proof.
  induction ind as [| i ind IH]; intros v vals; [apply agree_outside_refl |].
  destruct vals as [| x vals]; [apply agree_outside_refl |]. simpl.
  destruct (IH (<[i := x]> v) vals) as [Hlen Hag]. split.
  - now rewrite Hlen, length_insert.
  - intros j Hj. rewrite Hag.
    + apply list_lookup_insert_ne. intros ->. apply Hj. left.
    + intros Hin. apply Hj. now right.
Qed.

Lemma put_indices_agree (v v' vals : vec) (ind : list nat) :
  put_indices v ind vals = inr v' -> agree_outside ind v' v.
Proof.
  unfold put_indices. destruct (forallb _ ind); [| discriminate].
  destruct (length vals =? length ind).
  - intros [= <-]. apply put_each_agree.
  - destruct vals as [| x [| y vals]]; try discriminate.
    intros [= <-]. apply put_each_agree.
Qed.

(** What [update_gwrho_params] does to the state: its result is a new
    array that agrees with the argument outside the free-spectrum
    indices; no array that existed is written. *)
Lemma update_gwrho_params_post (w : World X) (xs : addr) :
  post (update_gwrho_params X xs) w
    (fun a w' =>
       a = length (heap (env w)) /\ self w' = self w /\
       fs (env w') = fs (env w) /\ save_events (env w') = save_events (env w) /\
       exists v', heap (env w') = heap (env w) ++ [v'] /\
                  agree_outside (get_gwrho_param_indices X (self w)) v'
                                (heap (env w) !!! xs))
    (fun w' =>
       self w' = self w /\ fs (env w') = fs (env w) /\
       save_events (env w') = save_events (env w) /\
       heap (env w') = heap (env w) ++ [heap (env w) !!! xs]).
Proof.
  unfold update_gwrho_params.
  apply post_bind, post_gets. cbv beta zeta.
  set (gwind := get_gwrho_param_indices X (self w)).
  apply post_bind, post_np_copy. cbv beta.
  set (v0 := heap (env w) !!! xs).
  set (s0 := on_env _ w).
  assert (HE : forall s1, only_draws s0 s1 ->
             self s1 = self w /\ fs (env s1) = fs (env w) /\
             save_events (env s1) = save_events (env w) /\
             heap (env s1) = heap (env w) ++ [v0]).
  { intros s1 (S1 & H1 & F1 & T1). unfold save_events.
    rewrite S1, H1, F1, T1. repeat split. }
  destruct (String.eqb _ _).
  - apply post_bind, post_lift_result;
      [intros tau _ | intros; apply HE, only_draws_refl].
    apply post_bind.
    eapply post_conseq; [apply (keeps_post only_draws) | |].
    + pose proof draws_next_draw. pose proof draws_uniform.
      pose proof draws_gumbel. pose proof draws_load. draws_split.
    + intros rhonew s1 Hd. cbv beta.
      pose proof (HE s1 Hd) as (S1 & F1 & E1 & H1).
      apply post_bind, post_load.
      apply post_bind, post_lift_result; [intros v' Hput | intros; apply HE, Hd].
      apply post_bind, post_modify, post_ret.
      split; [reflexivity |]. cbn. split; [exact S1 |]. split; [exact F1 |].
      split; [exact E1 |].
      exists v'. rewrite H1. split; [apply insert_at_end |].
      rewrite H1, lookup_total_at_end in Hput.
      eapply put_indices_agree. exact Hput.
    + intros s1 Hd. apply HE, Hd.
  - apply post_bind, post_modify, post_ret.
    split; [reflexivity |]. cbn. do 3 (split; [reflexivity |]).
    exists v0. split; [reflexivity | apply agree_outside_refl].
Qed.

Lemma keeps_update_gwrho_params xs : keeps block_step (update_gwrho_params X xs).
Proof.
  intros w. pose proof (update_gwrho_params_post w xs) as H. unfold post in H.
  unfold block_step.
  destruct (update_gwrho_params X xs w) as [a w' | e w']; cbn.
  - destruct H as (_ & S & F & E & v' & Hh & _). rewrite S, F, E, Hh.
    repeat split; auto. apply prefix_app_r. reflexivity.
  - destruct H as (S & F & E & Hh). rewrite S, F, E, Hh.
    repeat split; auto. apply prefix_app_r. reflexivity.
Qed.

(** *** The red-noise block and the pass over the blocks *)

Lemma keeps_rmtree outDir : keeps block_step (rmtree X outDir).
Proof.
  unfold rmtree. apply keeps_modify. intros w. unfold block_step. cbn.
  repeat split; auto.
  intros p Hp. apply map_lookup_filter_None. left. exact Hp.
Qed.

Lemma keeps_engine_one_step xnew lnlike0 lnprob0 :
  keeps block_step (engine_one_step X xnew lnlike0 lnprob0).
Proof.
  pose proof keeps_alloc. pose proof keeps_load.
  unfold engine_one_step. block_split.
Qed.

Lemma keeps_with_ptsampler f : keeps block_step (with_ptsampler X f).
Proof. unfold with_ptsampler. block_split. Qed.

Lemma keeps_update_red_params xs iters : keeps block_step (update_red_params X xs iters).
Proof.
  pose proof keeps_np_copy. pose proof keeps_load. pose proof keeps_fullmarg.
  pose proof keeps_engine_one_step. pose proof keeps_with_ptsampler.
  pose proof keeps_rmtree.
  unfold update_red_params. block_split.
Qed.

Lemma keeps_redraw_if_changed ii xnew : keeps block_step (redraw_if_changed X ii xnew).
Proof.
  pose proof keeps_load. pose proof keeps_update_b.
  unfold redraw_if_changed. block_split.
Qed.

Lemma keeps_run_blocks xs ii xnew : keeps block_step (run_blocks X xs ii xnew).
Proof.
  pose proof keeps_load. pose proof keeps_update_b. pose proof keeps_print.
  pose proof keeps_redraw_if_changed.
  pose proof keeps_update_white_params. pose proof keeps_update_red_params.
  pose proof keeps_update_gwrho_params.
  unfold run_blocks. block_split.
Qed.

End BlockFrame.

(** ** The test for redrawing the latent vector *)

(** The test compares every entry of the new vector with one number,
    the last entry of the recorded row. *)
Lemma all_differ_from_last_unchanged (xnew : list float) (c : float) :
  Float.eqb c c = true -> last xnew = Some c -> all_differ_from xnew c = false.
Proof.
  intros Hc. unfold all_differ_from. induction xnew as [| x xnew IH]; [discriminate |].
  destruct xnew as [| y xnew].
  - intros [= ->]. cbn. unfold Float.neb. now rewrite Hc.
  - intros Hlast.
    change (Float.neb x c && forallb (fun x => Float.neb x c) (y :: xnew) = false).
    rewrite IH by exact Hlast. apply andb_false_r.
Qed.

(** C2 at [changed_first_world]: the new vector [(2, -7, -7)] differs
    from the recorded row [(1, -7, -7)], yet the test of the source
    is false and the latent vector is not redrawn: the object, the
    generator and the arrays are left as they were. *)
Theorem redraw_skipped_after_change :
  heap (env changed_first_world) !!! 1 <> heap (env changed_first_world) !!! 0 /\
  redraw_if_changed fixed_collaborators 0 1 changed_first_world = Ok tt changed_first_world.
Proof.
  split.
  - cbn. intros [= H]. lra.
  - unfold redraw_if_changed, bind, gets, load, lift_result.
    cbn -[all_differ_from py_item].
    change (py_item [Fin 1; Fin (-7); Fin (-7)] (-1)) with (@inr exn float (Fin (-7))).
    cbn -[all_differ_from].
    rewrite all_differ_from_last_unchanged; [reflexivity | | reflexivity].
    cbn. apply Reqb_refl.
Qed.

(** ** Snapshots and the files of a run *)

Lemma append_inj_l (s a b : string) : s +:+ a = s +:+ b -> a = b.
Proof. induction s as [| c s IH]; cbn; [auto | intros [= H]; auto]. Qed.

Lemma keeps_for_range_bounded {St A} (R : St -> St -> Prop)
    (R_refl : forall s, R s s) (R_trans : forall s1 s2 s3, R s1 s2 -> R s2 s3 -> R s1 s3)
    (body : nat -> A -> M St A) (n : nat) :
  forall lo acc,
    (forall i acc, lo <= i < lo + n -> keeps R (body i acc)) ->
    keeps R (for_range n lo body acc).
Proof.
  induction n as [| n IH]; intros lo acc Hbody; simpl.
  - apply keeps_ret, R_refl.
  - apply (keeps_bind _ R_trans); [apply Hbody; lia | intros acc'].
    apply IH. intros i acc'' Hi. apply Hbody. lia.
Qed.

Lemma snapshot_due_spec (ii : nat) : snapshot_due ii = true <-> 0 < ii /\ ii mod 100 = 0.
Proof.
  unfold snapshot_due. rewrite andb_true_iff, Nat.eqb_eq, Nat.ltb_lt. tauto.
Qed.

Lemma snapshot_not_due_below_100 (ii : nat) : ii < 100 -> snapshot_due ii = false.
Proof.
  intros Hlt. apply not_true_is_false. rewrite snapshot_due_spec.
  intros [Hpos Hmod]. rewrite Nat.mod_small in Hmod by exact Hlt. lia.
Qed.

Section Files.

Context (X : Externals).

Lemma writes_within_refl paths (w : World X) : writes_within paths w w.
Proof. intros p _ H. exact H. Qed.

Lemma writes_within_trans paths (w1 w2 w3 : World X) :
  writes_within paths w1 w2 -> writes_within paths w2 w3 -> writes_within paths w1 w3.
Proof. intros H1 H2 p Hp H. apply H2, H1; assumption. Qed.

Lemma no_snapshot_refl outdir (w : World X) : no_snapshot outdir w w.
Proof. split; [reflexivity | apply writes_within_refl]. Qed.

Lemma no_snapshot_trans outdir (w1 w2 w3 : World X) :
  no_snapshot outdir w1 w2 -> no_snapshot outdir w2 w3 -> no_snapshot outdir w1 w3.
Proof.
  intros [E1 F1] [E2 F2]. split; [congruence | eapply writes_within_trans; eassumption].
Qed.

Lemma block_step_writes_within paths (w w' : World X) :
  block_step w w' -> writes_within paths w w'.
Proof. intros (_ & _ & _ & _ & _ & F) p _ H. apply F, H. Qed.

Lemma block_step_no_snapshot outdir (w w' : World X) :
  block_step w w' -> no_snapshot outdir w w'.
Proof.
  intros H. split; [apply H | eapply block_step_writes_within, H].
Qed.

(** Solves the state updates met in [sample] itself: a file is written
    only under one of the names in [paths]. *)
Ltac files_leaf :=
  intros; unfold no_snapshot, writes_within, save_events; cbn;
  repeat split; try reflexivity;
  let p := fresh "p" in let Hp := fresh "Hp" in let Hnone := fresh "Hnone" in
  intros p Hp Hnone;
  first [ exact Hnone
        | rewrite lookup_insert_ne;
          [ exact Hnone
          | let Heq := fresh "Heq" in
            intros Heq; apply Hp; rewrite <- Heq;
            unfold name_list_paths, snapshot_paths; set_solver ] ].

Ltac quiet_split outdir :=
  keeps_split (no_snapshot_refl outdir) (no_snapshot_trans outdir) files_leaf.

Lemma quiet_run_blocks outdir xs ii xnew :
  keeps (no_snapshot outdir) (run_blocks X xs ii xnew).
Proof.
  eapply keeps_weaken; [apply block_step_no_snapshot | apply keeps_run_blocks].
Qed.

Lemma quiet_iteration outdir xs ii xnew :
  snapshot_due ii = false ->
  keeps (no_snapshot outdir) (sample_iteration X xs outdir ii xnew).
Proof.
  intros Hdue. pose proof (quiet_run_blocks outdir).
  unfold sample_iteration. rewrite Hdue. unfold load, store. quiet_split outdir.
Qed.

Lemma quiet_prologue outdir xs niter resume :
  keeps (no_snapshot outdir) (sample_prologue X xs outdir niter resume).
Proof.
  unfold sample_prologue, resume_chain, assign_chain_prefix, assign_bchain_prefix,
    np_loadtxt, np_savetxt, print, load, store, alloc.
  quiet_split outdir.
Qed.

Lemma quiet_sample outdir xs niter resume :
  niter <= 100 -> keeps (no_snapshot outdir) (sample X xs outdir niter resume).
Proof.
  intros Hn. pose proof (quiet_prologue outdir).
  unfold sample, sample_loop.
  apply (keeps_bind _ (no_snapshot_trans outdir)); [auto | intros [start x0]].
  apply (keeps_bind _ (no_snapshot_trans outdir));
    [| intros ?; apply keeps_ret, no_snapshot_refl].
  apply keeps_for_range_bounded;
    [apply no_snapshot_refl | apply no_snapshot_trans |].
  intros i acc Hi. apply quiet_iteration, snapshot_not_due_below_100.
  cbn [fst] in Hi. lia.
Qed.

(** *** What a run writes, whatever its length *)

Ltac run_files_leaf :=
  intros; unfold writes_within; cbn;
  let p := fresh "p" in let Hp := fresh "Hp" in let Hnone := fresh "Hnone" in
  intros p Hp Hnone;
  first [ exact Hnone
        | rewrite lookup_insert_ne;
          [ exact Hnone
          | let Heq := fresh "Heq" in
            intros Heq; apply Hp; rewrite <- Heq;
            unfold run_paths, name_list_paths, snapshot_paths; set_solver ] ].

Ltac run_files_split outdir :=
  keeps_split (writes_within_refl (run_paths outdir))
              (writes_within_trans (run_paths outdir)) run_files_leaf.

Lemma sample_writes_within outdir xs niter resume :
  keeps (writes_within (run_paths outdir)) (sample X xs outdir niter resume).
Proof.
  assert (Hblocks : forall xs ii xnew,
             keeps (writes_within (run_paths outdir)) (run_blocks X xs ii xnew)).
  { intros. eapply keeps_weaken; [apply block_step_writes_within | apply keeps_run_blocks]. }
  unfold sample, sample_loop, sample_iteration, sample_prologue, resume_chain,
    assign_chain_prefix, assign_bchain_prefix, chain_rows, np_loadtxt, np_savetxt,
    np_save, print, load, store, alloc.
  run_files_split outdir.
Qed.

(** *** Resuming *)

Lemma raises_bind_Ok {St A B} (c : M St A) (k : A -> M St B) s a s1 e :
  c s = Ok a s1 -> raises (k a) s1 e -> raises (bind c k) s e.
Proof. intros Hc [s' Hk]. exists s'. unfold bind. now rewrite Hc. Qed.

Lemma raises_bind_raise {St A B} (c : M St A) (k : A -> M St B) s e :
  raises c s e -> raises (bind c k) s e.
Proof. intros [s' Hc]. exists s'. unfold bind. now rewrite Hc. Qed.

(** Allocating the rows of a chain always succeeds and touches the
    array memory only. *)
Lemma alloc_rows_Ok (v : list float) (l : list nat) :
  forall w : World X,
    exists addrs w1,
      map_M (fun _ => alloc v) l w = Ok addrs w1 /\
      fs (env w1) = fs (env w) /\ self w1 = self w.
Proof.
  induction l as [| x l IH]; intros w; simpl.
  - now exists [], w.
  - unfold bind at 1. unfold alloc at 1, bind, gets, modify, ret. cbn.
    match goal with
    | |- context [match map_M _ l ?w0 with _ => _ end] =>
        destruct (IH w0) as (addrs & w1 & -> & F & S)
    end.
    eexists _, _. split; [reflexivity |]. rewrite F, S. split; reflexivity.
Qed.

(** Reading a file that is not there. *)
Lemma np_loadtxt_missing (w : World X) (path : string) :
  fs (env w) !! path = None -> raises (np_loadtxt X path) w (FileNotFoundError path).
Proof.
  intros Hnone. unfold np_loadtxt, raises, bind, modify, gets. cbn.
  rewrite Hnone. eexists. reflexivity.
Qed.

(** With [resume=True], [sample] opens [outdir/chain.txt] before
    anything else is read; when the file is absent, it raises. *)
Lemma resume_needs_chain_txt (w : World X) (xs : addr) (outdir : string) (niter : nat) :
  fs (env w) !! (outdir +:+ "/chain.txt") = None ->
  raises (sample X xs outdir niter true) w (FileNotFoundError (outdir +:+ "/chain.txt")).
Proof.
  intros Hnone. unfold sample. apply raises_bind_raise.
  unfold sample_prologue.
  do 6 (eapply raises_bind_Ok; [reflexivity |]).
  match goal with
  | |- raises (bind (map_M _ ?l) _) ?w0 _ =>
      destruct (alloc_rows_Ok (np_zeros (length (heap (env w0) !!! xs))) l w0)
        as (addrs & w1 & Hrows & F & S)
  end.
  eapply raises_bind_Ok; [exact Hrows |].
  do 3 (eapply raises_bind_Ok; [reflexivity |]).
  unfold resume_chain.
  eapply raises_bind_Ok; [reflexivity |].
  apply raises_bind_raise, np_loadtxt_missing. cbn. rewrite F. cbn.
  rewrite !lookup_insert_ne; [exact Hnone | |];
    intros Heq; apply append_inj_l in Heq; discriminate.
Qed.

Lemma chain_txt_not_written (outdir : string) :
  outdir +:+ "/chain.txt" ∉ run_paths outdir.
Proof.
  unfold run_paths, name_list_paths, snapshot_paths. intros Hin.
  apply elem_of_app in Hin. rewrite !elem_of_cons in Hin.
  destruct Hin as [[H | [H | H]] | [H | [H | H]]];
    try (apply append_inj_l in H; discriminate); now apply elem_of_nil in H.
Qed.

Lemma snapshots_not_name_lists (outdir p : string) :
  p ∈ snapshot_paths outdir -> p ∉ name_list_paths outdir.
Proof.
  unfold name_list_paths, snapshot_paths. rewrite !elem_of_cons.
  intros [-> | [-> | Hnil]] Hin; [| | now apply elem_of_nil in Hnil];
    destruct Hin as [H | [H | H]];
    try (apply append_inj_l in H; discriminate); now apply elem_of_nil in H.
Qed.

(** C1, on the code. A run of [sample] writes its snapshots under
    [outdir/chain.npy] and [outdir/bchain.npy] and never creates
    [outdir/chain.txt]; [sample] with [resume=True] reads
    [outdir/chain.txt] first. So, when [outdir] holds no [chain.txt]
    before a run, it holds none after the run, however the run ends and
    however long it was, and every later call with [resume=True] raises
    [FileNotFoundError] for [outdir/chain.txt]: nothing is restored. *)
Theorem resume_reads_files_never_written (w : World X) (xs : addr) (outdir : string)
    (niter : nat) :
  fs (env w) !! (outdir +:+ "/chain.txt") = None ->
  fs (env (final (sample X xs outdir niter false w))) !! (outdir +:+ "/chain.txt") = None /\
  forall (xs' : addr) (niter' : nat),
    raises (sample X xs' outdir niter' true)
           (final (sample X xs outdir niter false w))
           (FileNotFoundError (outdir +:+ "/chain.txt")).
Proof.
  intros Hnone.
  assert (Hafter : fs (env (final (sample X xs outdir niter false w)))
                     !! (outdir +:+ "/chain.txt") = None).
  { apply (sample_writes_within outdir xs niter false w);
      [apply chain_txt_not_written | exact Hnone]. }
  split; [exact Hafter |].
  intros xs' niter'. apply resume_needs_chain_txt, Hafter.
Qed.

(** C10. A pass of the loop whose index is not a positive multiple of
    100 makes no call of [np.save] and creates no file, however it ends;
    and a whole run with [niter <= 100], resumed or not, makes no call
    of [np.save] and creates no file but the two name lists: if
    [outdir/chain.npy] or [outdir/bchain.npy] did not exist before the
    run, it does not exist after it. *)
Theorem snapshots_only_at_positive_multiples_of_100 (xs : addr) (outdir : string) :
  (forall (ii : nat) (xnew : addr) (w : World X),
      ~ (0 < ii /\ ii mod 100 = 0) ->
      no_snapshot outdir w (final (sample_iteration X xs outdir ii xnew w))) /\
  (forall (niter : nat) (resume : bool) (w : World X),
      niter <= 100 ->
      no_snapshot outdir w (final (sample X xs outdir niter resume w)) /\
      forall p, p ∈ snapshot_paths outdir ->
                fs (env w) !! p = None ->
                fs (env (final (sample X xs outdir niter resume w))) !! p = None).
Proof.
  split.
  - intros ii xnew w Hnot. apply quiet_iteration.
    apply not_true_is_false. now rewrite snapshot_due_spec.
  - intros niter resume w Hn.
    pose proof (quiet_sample outdir xs niter resume Hn w) as Hq.
    split; [exact Hq |].
    intros p Hp Hnone. destruct Hq as [_ Hfiles].
    apply Hfiles; [apply snapshots_not_name_lists, Hp | exact Hnone].
Qed.

End Files.

(** C1 at a run of 201 iterations of the small configuration in the
    directory [out]. *)
Lemma resume_reads_files_never_written_witness :
  fs (env (final (sample fixed_collaborators 0 "out" 201 false
                         (small_world "conditional")))) !! "out/chain.txt" = None /\
  forall (xs' : addr) (niter' : nat),
    raises (sample fixed_collaborators xs' "out" niter' true)
           (final (sample fixed_collaborators 0 "out" 201 false
                          (small_world "conditional")))
           (FileNotFoundError "out/chain.txt").
Proof.
  apply (resume_reads_files_never_written fixed_collaborators
           (small_world "conditional") 0 "out" 201).
  reflexivity.
Defined.

(** C10 at index [150] and at a run of [100] iterations. *)
Lemma snapshots_only_at_positive_multiples_of_100_witness :
  no_snapshot "out" (small_world "conditional")
    (final (sample_iteration fixed_collaborators 0 "out" 150 0
                             (small_world "conditional"))) /\
  no_snapshot "out" (small_world "conditional")
    (final (sample fixed_collaborators 0 "out" 100 false (small_world "conditional"))).
Proof.
  destruct (snapshots_only_at_positive_multiples_of_100 fixed_collaborators 0 "out")
    as [Hpass Hrun].
  split.
  - apply Hpass. intros [_ Hmod]. discriminate Hmod.
  - apply Hrun. repeat constructor.
Defined.

(** * Calls that return *)

Lemma returns_and {St A} (m : M St A) s (Q1 Q2 : A -> St -> Prop) (QE : St -> Prop) :
  returns m s Q1 -> post m s Q2 QE -> returns m s (fun a s' => Q1 a s' /\ Q2 a s').
Proof. unfold returns, post. destruct (m s); [auto | intros []]. Qed.

Lemma returns_Ok {St A} (m : M St A) s (Q : A -> St -> Prop) :
  returns m s Q -> exists a s', m s = Ok a s' /\ Q a s'.
Proof. unfold returns, post. destruct (m s) as [a s' | e s']; [eauto | intros []]. Qed.

Lemma item_lt {A} (l : list A) i : i < length l -> exists x, item l i = inr x.
Proof.
  intros H. unfold item. destruct (lookup_lt_is_Some_2 l i H) as [x ->]. eauto.
Qed.

Lemma item_inl_ge {A} (l : list A) i e : item l i = inl e -> length l <= i.
Proof.
  unfold item. destruct (l !! i) eqn:H; [discriminate |].
  intros _. now apply lookup_ge_None.
Qed.

Lemma take_indices_in_range {A} (v : list A) (ind : list nat) :
  Forall (fun i => i < length v) ind -> exists r, take_indices v ind = inr r.
Proof.
  unfold take_indices. induction 1 as [| i ind Hi _ [r IH]]; simpl; [eauto |].
  destruct (item_lt v i Hi) as [x ->]. rewrite IH. eauto.
Qed.

Section WhiteReturns.

Context (X : Externals).

Lemma propose_returns (s : World X) (wind : list nat) (xnew : addr) :
  wind <> [] -> Forall (fun i => i < length (heap (env s) !!! xnew)) wind ->
  returns (propose X wind xnew) s (fun _ _ => True).
Proof.
  intros Hne Hin.
  unfold returns, post, propose, np_copy, alloc, load, store, choice_index,
    np_random_randn, next_draw, bind, gets, modify, ret, raise, lift_result.
  destruct wind as [| i0 wind']; [congruence |].
  set (wind := i0 :: wind') in *.
  cbn -[Nat.modulo Float.add Float.mul Float.of_nat choice_scale item lookup_total
        insert wind].
  destruct (item wind _) as [e | par] eqn:Hpar.
  { apply item_inl_ge in Hpar.
    pose proof (Nat.mod_upper_bound (randint X (S (draws (env s)))) (length wind)) as Hm.
    cbn [length wind] in *. lia. }
  cbn -[Float.add Float.mul Float.of_nat choice_scale item lookup_total insert wind].
  rewrite lookup_total_at_end.
  destruct (item _ par) as [e | x] eqn:Hx; [| exact I].
  apply item_inl_ge in Hx. apply item_inr_lookup in Hpar.
  apply list_elem_of_lookup_2 in Hpar.
  rewrite Forall_forall in Hin. specialize (Hin par Hpar). lia.
Qed.

Lemma metropolis_returns (s : World X) (q : addr) (st : mh_state) :
  (exists l, get_lnlikelihood_white X (self s) (heap (env s) !!! q) = inr l) ->
  (exists p, get_lnprior X (self s) (heap (env s) !!! q) = inr p) ->
  returns (metropolis_white X q st) s (fun _ _ => True).
Proof.
  intros [l Hl] [p Hp].
  unfold returns, post, metropolis_white, np_random_rand, next_draw, load, bind, gets,
    modify, ret, raise, lift_result.
  cbn -[metropolis_accept get_lnlikelihood_white get_lnprior lookup_total].
  rewrite Hl, Hp. cbn -[metropolis_accept].
  destruct (metropolis_accept _ _ _ _ _); exact I.
Qed.

(** One proposal and its Metropolis test return and keep the
    invariant; the proposal has the length of the vector. [k] is the rest
    of the loop body. *)
Lemma white_jump_returns {B} (w s : World X) (v0 : vec) (st : mh_state)
    (k : addr -> mh_state -> M (World X) B) (Q : B -> World X -> Prop) :
  white_ready (self w) (length v0) ->
  white_inv w (get_efacequad_indices X (self w)) v0 st s ->
  (forall q st' s',
      white_inv w (get_efacequad_indices X (self w)) v0 st' s' ->
      length (heap (env s') !!! q) = length v0 ->
      returns (k q st') s' Q) ->
  returns (bind (propose X (get_efacequad_indices X (self w)) (mh_xnew st))
                (fun q => bind (metropolis_white X q st) (fun st' => k q st'))) s Q.
Proof.
  set (wind := get_efacequad_indices X (self w)).
  intros (Hne & Hin & Hl & Hp) Hi Hk.
  pose proof Hi as (S & F & T & P & [Hlo Hhi] & [Hlen Hag]).
  apply post_bind.
  eapply post_conseq;
    [apply (returns_and _ _ _ _ _ (propose_returns s wind (mh_xnew st) Hne
                                     ltac:(rewrite Hlen; exact Hin))
                        (propose_post X s wind (mh_xnew st))) | | auto].
  intros q s1 (_ & -> & S1 & F1 & T1 & par & z & Hpar & _ & H1). cbv beta.
  assert (Hq : length (heap (env s1) !!! length (heap (env s))) = length v0)
    by (rewrite H1, lookup_total_at_end, length_insert; exact Hlen).
  apply post_bind.
  eapply post_conseq;
    [apply (returns_and _ _ _ _ _
              (metropolis_returns s1 (length (heap (env s))) st
                 ltac:(rewrite S1, S; apply Hl; exact Hq)
                 ltac:(rewrite S1, S; apply Hp; exact Hq))
              (metropolis_white_post X s1 (length (heap (env s))) st)) | | auto].
  intros st' s2 (_ & Hst & (S2 & H2 & F2 & T2)). apply Hk.
  - unfold white_inv. rewrite S2, H2, F2, T2, S1, F1, T1, H1.
    do 3 (split; [assumption |]).
    split; [apply prefix_app_r; assumption |].
    destruct Hst as [-> | Hq'].
    + rewrite lookup_total_app_l by assumption.
      rewrite length_app. cbn. split; [lia | split; assumption].
    + rewrite Hq', lookup_total_at_end, length_app. cbn.
      apply prefix_length in P.
      split; [lia | apply agree_outside_insert; [assumption | split; assumption]].
  - rewrite H2. exact Hq.
Qed.

(** A call of the white-noise block returns when the object is ready
    for it. *)
Lemma update_white_params_returns (w : World X) (xs : addr) (iters : option nat) :
  white_ready (self w) (length (heap (env w) !!! xs)) ->
  match iters with
  | Some _ => tuning_ready (self w)
  | None => exists a, self_aclength_white (self w) = Some a
  end ->
  returns (update_white_params X xs iters) w (fun _ _ => True).
Proof.
  intros Hready Hmode. pose proof Hready as (Hne & Hin & Hl & Hp).
  unfold returns, update_white_params.
  apply post_bind, post_gets. cbv beta zeta.
  set (wind := get_efacequad_indices X (self w)) in *.
  apply post_bind, post_np_copy. cbv beta.
  apply post_bind, post_load.
  cbn [env on_env heap set_heap]. rewrite lookup_total_at_end.
  destruct (Hl (heap (env w) !!! xs) eq_refl) as [l0 Hl0].
  destruct (Hp (heap (env w) !!! xs) eq_refl) as [p0 Hp0].
  cbn [self on_env]. rewrite Hl0, Hp0.
  apply post_bind, post_ret. apply post_bind, post_ret. cbv beta zeta.
  pose proof (white_inv_start X w wind xs l0 p0) as Hinv.
  set (st0 := {| mh_xnew := _ |}) in *. set (s0 := on_env _ w) in *.
  set (v0 := heap (env w) !!! xs) in *.
  destruct iters as [iters |].
  - destruct Hmode as (Hlen1 & Hsvd & Hac).
    apply post_bind.
    eapply post_conseq;
      [ apply (post_for_range _
                 (fun _ (acc : mh_state * list vec) s => white_inv w wind v0 (fst acc) s)
                 (fun _ => False) iters 0 (st0, []) s0 Hinv) | |].
    + intros i [st chain] s _ Hi. cbn [fst snd] in *.
      apply (white_jump_returns w s v0 st
               (fun q st1 => vq <- load q ;;
                             row <- lift_result (take_indices vq wind) ;;
                             ret (st1, chain ++ [row])) _ Hready Hi).
      intros q st' s' Hi' Hq.
      apply post_bind, post_load.
      destruct (take_indices_in_range (heap (env s') !!! q) wind) as [row Hrow];
        [rewrite Hq; exact Hin |].
      rewrite Hrow. apply post_bind, post_ret, post_ret. exact Hi'.
    + intros [st chain] s Hi. cbn [fst snd] in *. cbv beta zeta.
      apply post_bind, post_modify.
      apply post_bind.
      destruct (Nat.eqb_spec (length wind) 1) as [E | _]; [contradiction |].
      apply post_ret, post_bind, post_modify.
      destruct (Hsvd (np_cov X (drop 100 chain))) as [usv ->].
      apply post_bind, post_ret, post_bind, post_modify.
      destruct (Hac (map (fun jj => column jj (drop 100 chain)) (seq 0 (length wind))))
        as [z ->]; [now rewrite length_map, length_seq |].
      apply post_bind, post_ret, post_bind, post_modify, post_ret. exact I.
    + auto.
  - destruct Hmode as [a Ha]. rewrite Ha.
    apply post_bind, post_ret. apply post_bind.
    eapply post_conseq;
      [ apply (post_for_range _
                 (fun _ (st : mh_state) s => white_inv w wind v0 st s)
                 (fun _ => False) (Z.to_nat a) 0 st0 s0 Hinv) | |].
    + intros i st s _ Hi.
      pose proof (white_jump_returns w s v0 st (fun _ st' => ret st')
                    (fun st' s' => white_inv w wind v0 st' s') Hready Hi
                    (fun q st' s' H _ => H)) as H.
      fold wind in H. unfold returns, post, bind, ret in *.
      destruct (propose X wind (mh_xnew st) s) as [q s1 | e s1]; [| exact H].
      destruct (metropolis_white X q st s1); exact H.
    + intros st s Hi. cbv beta. apply post_ret. exact I.
    + auto.
Qed.

End WhiteReturns.

(** * Parameter bookkeeping *)

(** The positions returned by the loop
    [for ct, par in enumerate(names): if test(par): ind.append(ct)]. *)
Lemma indices_where_spec (test : string -> bool) (names : list string) (ct i : nat) :
  i ∈ indices_where test names ct <->
  exists par, ct <= i /\ names !! (i - ct) = Some par /\ test par = true.
Proof.
  revert ct. induction names as [| n names IH]; intros ct; simpl.
  - split; [intros H; inversion H | intros (par & _ & H & _); discriminate].
  - assert (Hrest : i ∈ indices_where test names (S ct) <->
                    exists par, S ct <= i /\ (n :: names) !! (i - ct) = Some par /\
                                test par = true).
    { rewrite IH. split; intros (par & Hle & Hl & Ht); exists par.
      - split; [lia |]. split; [| exact Ht].
        replace (i - ct) with (S (i - S ct)) by lia. exact Hl.
      - split; [lia |]. split; [| exact Ht].
        replace (i - ct) with (S (i - S ct)) in Hl by lia. exact Hl. }
    destruct (test n) eqn:Hn.
    + rewrite elem_of_cons, Hrest. split.
      * intros [-> | (par & Hle & Hl & Ht)].
        -- exists n. rewrite Nat.sub_diag. auto.
        -- exists par. split; [lia | auto].
      * intros (par & Hle & Hl & Ht).
        destruct (decide (i = ct)) as [-> | Hne]; [now left | right].
        exists par. split; [lia | auto].
    + rewrite Hrest. split; intros (par & Hle & Hl & Ht).
      * exists par. split; [lia | auto].
      * exists par. split; [| auto].
        destruct (decide (i = ct)) as [-> | Hne]; [| lia].
        rewrite Nat.sub_diag in Hl. simpl in Hl. congruence.
Qed.

Lemma indices_where_from (test : string -> bool) (names : list string) (ct : nat) :
  Forall (fun i => ct <= i) (indices_where test names ct).
Proof.
  rewrite Forall_forall. intros i Hi. apply indices_where_spec in Hi.
  destruct Hi as (_ & Hle & _). exact Hle.
Qed.

(** The positions come in increasing order. *)
Lemma indices_where_increasing (test : string -> bool) (names : list string) (ct : nat) :
  forall j k x y,
    indices_where test names ct !! j = Some x ->
    indices_where test names ct !! k = Some y ->
    j < k -> x < y.
Proof.
  revert ct. induction names as [| n names IH]; intros ct j k x y; simpl; [discriminate |].
  destruct (test n); [| apply IH].
  destruct j as [| j], k as [| k]; simpl; try lia.
  - intros [= <-] Hy _.
    pose proof (indices_where_from test names (S ct)) as Hall.
    rewrite Forall_forall in Hall.
    specialize (Hall y (list_elem_of_lookup_2 _ _ _ Hy)). lia.
  - intros Hx Hy Hlt. apply (IH (S ct) j k); [assumption | assumption | lia].
Qed.

Section Bookkeeping.

Context (X : Externals).

(** X1. The four index getters return the positions of [param_names] whose
    name contains the substring they look for. *)
Theorem index_getters_select_by_name (g : Gibbs X) (i : nat) :
  (i ∈ get_gwrho_param_indices X g <->
     exists par, param_names X g !! i = Some par /\ py_in "rho" par = true) /\
  (i ∈ get_red_param_indices X g <->
     exists par, param_names X g !! i = Some par /\
                 (py_in "log10_A" par || py_in "gamma" par) = true) /\
  (i ∈ get_efacequad_indices X g <->
     exists par, param_names X g !! i = Some par /\
                 (py_in "efac" par || py_in "equad" par) = true) /\
  (i ∈ get_ecorr_indices X g <->
     exists par, param_names X g !! i = Some par /\ py_in "ecorr" par = true).
Proof.
  unfold get_gwrho_param_indices, get_red_param_indices, get_efacequad_indices,
    get_ecorr_indices.
  repeat split; intros H.
  all: try (apply indices_where_spec in H; destruct H as (par & _ & Hl & Ht);
            rewrite Nat.sub_0_r in Hl; exists par; split; assumption).
  all: destruct H as (par & Hl & Ht); apply indices_where_spec; exists par;
    rewrite Nat.sub_0_r; split; [lia | split; assumption].
Qed.

(** X2. Each getter lists its positions in increasing order, each once, and
    every one is a position of [param_names]. *)
Theorem index_getters_increasing (g : Gibbs X) (ind : list nat) :
  ind ∈ [get_gwrho_param_indices X g; get_red_param_indices X g;
         get_efacequad_indices X g; get_ecorr_indices X g] ->
  (forall j k x y, ind !! j = Some x -> ind !! k = Some y -> j < k -> x < y) /\
  NoDup ind /\
  Forall (fun i => i < length (param_names X g)) ind.
Proof.
  intros Hind.
  assert (H : exists test, ind = indices_where test (param_names X g) 0).
  { repeat (apply elem_of_cons in Hind; destruct Hind as [-> | Hind]);
      [eexists; reflexivity .. | inversion Hind]. }
  destruct H as [test ->].
  pose proof (indices_where_increasing test (param_names X g) 0) as Hinc.
  split; [exact Hinc |]. split.
  - apply NoDup_alt. intros j k x Hj Hk.
    destruct (Nat.lt_trichotomy j k) as [Hlt | [Heq | Hgt]]; [| exact Heq |].
    + specialize (Hinc j k x x Hj Hk Hlt). lia.
    + specialize (Hinc k j x x Hk Hj Hgt). lia.
  - rewrite Forall_forall. intros i Hi. apply indices_where_spec in Hi.
    destruct Hi as (par & _ & Hl & _). rewrite Nat.sub_0_r in Hl.
    eapply lookup_lt_Some. exact Hl.
Qed.

End Bookkeeping.

(** ** The layout of the parameter vector *)

Section Layout.

Context (X : Externals).

Lemma length_param_names (g : Gibbs X) :
  length (param_names X g) = sum_list_with param_width (self_params X g).
Proof.
  unfold param_names. induction (self_params X g) as [| p ps IH]; [reflexivity |].
  cbn [flat_map sum_list_with]. rewrite length_app, IH. f_equal.
  unfold param_width. destruct (par_size p) as [[| n] |]; simpl; [reflexivity | | reflexivity].
  now rewrite length_map, length_seq.
Qed.

(** The entry of the dictionary for a parameter of width [n] read at
    offset [ct]: the slice [xs[ct : ct + n]] if [n > 1], else
    [float(xs[ct])]. *)
Lemma map_params_from_spec (ps : list Param) (xs : vec) :
  forall (ct : nat) (ret d : pdict),
    map_params_from ps xs ct ret = inr d ->
    NoDup (map par_name ps) ->
    (forall k, k ∉ map par_name ps -> d !! k = ret !! k) /\
    (forall i p, ps !! i = Some p ->
       let off := ct + sum_list_with param_width (take i ps) in
       if 1 <? param_width p
       then d !! par_name p = Some (PArray (take (param_width p) (drop off xs)))
       else exists x, xs !! off = Some x /\ d !! par_name p = Some (PFloat x)).
Proof.
  induction ps as [| p ps IH]; intros ct ret d; simpl.
  - intros [= <-] _. split; [reflexivity | intros i p H; discriminate].
  - unfold and_then at 1.
    destruct (if 1 <? param_width p then _ else _) as [e | v] eqn:Hv; [discriminate |].
    intros Hd Hnd. apply NoDup_cons in Hnd. destruct Hnd as [Hp Hnd].
    destruct (IH _ _ _ Hd Hnd) as [Hout Hin]. split.
    + intros k Hk. apply not_elem_of_cons in Hk. destruct Hk as [Hk1 Hk2].
      rewrite (Hout k Hk2). now apply lookup_insert_ne.
    + intros [| i] q Hq; simpl in Hq.
      * injection Hq as <-. simpl. rewrite Nat.add_0_r.
        rewrite (Hout _ Hp), lookup_insert_eq.
        destruct (1 <? param_width p).
        -- injection Hv as <-. reflexivity.
        -- unfold and_then in Hv. destruct (item xs ct) as [e | x] eqn:Hx; [discriminate |].
           injection Hv as <-. exists x. split; [now apply item_inr_lookup | reflexivity].
      * specialize (Hin i q Hq). simpl in *.
        replace (ct + (param_width p + sum_list_with param_width (take i ps)))
          with (ct + param_width p + sum_list_with param_width (take i ps)) by lia.
        exact Hin.
Qed.

Lemma map_params_from_returns (ps : list Param) (xs : vec) :
  forall (ct : nat) (ret : pdict),
    ct + sum_list_with param_width ps <= length xs ->
    exists d, map_params_from ps xs ct ret = inr d.
Proof.
  induction ps as [| p ps IH]; intros ct ret; simpl; [eauto |].
  intros Hlen.
  assert (Hw : 1 <= param_width p)
    by (unfold param_width; destruct (par_size p) as [[| n] |]; lia).
  destruct (1 <? param_width p); simpl.
  - apply IH. lia.
  - destruct (item_lt xs ct) as [x ->]; [lia |]. simpl. apply IH. lia.
Qed.

Lemma map_params_from_raises (ps : list Param) (xs : vec) :
  forall (ct : nat) (ret : pdict) (e : exn),
    map_params_from ps xs ct ret = inl e ->
    e = IndexError /\ length xs < ct + sum_list_with param_width ps.
Proof.
  induction ps as [| p ps IH]; intros ct ret e; simpl; [discriminate |].
  assert (Hw : 1 <= param_width p)
    by (unfold param_width; destruct (par_size p) as [[| n] |]; lia).
  destruct (1 <? param_width p); simpl.
  - intros H. apply IH in H. destruct H as [-> H]. split; [reflexivity | lia].
  - unfold item. destruct (xs !! ct) as [x |] eqn:Hx; simpl.
    + intros H. apply IH in H. destruct H as [-> H]. split; [reflexivity | lia].
    + intros [= <-]. split; [reflexivity |]. apply lookup_ge_None in Hx. lia.
Qed.

(** The entries of [xs] that [map_params_from] reads from the offset
    [ct] are those below [ct] plus the widths of the parameters. *)
Lemma map_params_from_agree (ps : list Param) (xs ys : vec) :
  forall (ct : nat) (ret : pdict),
    take (ct + sum_list_with param_width ps) xs
    = take (ct + sum_list_with param_width ps) ys ->
    map_params_from ps xs ct ret = map_params_from ps ys ct ret.
Proof.
  induction ps as [| p ps IH]; intros ct ret Ht; [reflexivity |].
  cbn [sum_list_with] in Ht. cbn [map_params_from]. cbv zeta.
  assert (Hw : 1 <= param_width p)
    by (unfold param_width; destruct (par_size p) as [[| n] |]; lia).
  assert (Hv : (if 1 <? param_width p
                then inr (PArray (take (param_width p) (drop ct xs)))
                else x <~ item xs ct ;; inr (PFloat x))
               = (if 1 <? param_width p
                  then inr (PArray (take (param_width p) (drop ct ys)))
                  else x <~ item ys ct ;; inr (PFloat x)) :> exn + pvalue).
  { destruct (1 <? param_width p).
    - do 2 f_equal. rewrite !take_drop_commute. f_equal.
      apply (f_equal (take (ct + param_width p))) in Ht.
      rewrite !take_take in Ht.
      rewrite Nat.min_l in Ht by lia. exact Ht.
    - unfold item.
      rewrite <- (lookup_take_lt xs (ct + (param_width p + sum_list_with param_width ps)) ct)
        by lia.
      rewrite <- (lookup_take_lt ys (ct + (param_width p + sum_list_with param_width ps)) ct)
        by lia.
      rewrite Ht. reflexivity. }
  rewrite Hv. clear Hv.
  set (V := if 1 <? param_width p then _ else _).
  destruct V as [e | v]; [reflexivity |].
  unfold and_then. apply IH. rewrite <- Nat.add_assoc. exact Ht.
Qed.

Lemma take_1_drop {A} (l : list A) (i : nat) (x : A) :
  l !! i = Some x -> take 1 (drop i l) = [x].
Proof.
  intros Hx. pose proof (lookup_drop l i 0) as H0. rewrite Nat.add_0_r, Hx in H0.
  destruct (drop i l) as [| a l']; [discriminate |].
  injection H0 as ->. reflexivity.
Qed.

(** With distinct names, the dictionary determines each entry that was
    read. *)
Lemma map_params_from_same (ps : list Param) (xs ys : vec) :
  forall (ct : nat) (ret ret' d : pdict),
    NoDup (map par_name ps) ->
    map_params_from ps xs ct ret = inr d ->
    map_params_from ps ys ct ret' = inr d ->
    take (sum_list_with param_width ps) (drop ct xs)
    = take (sum_list_with param_width ps) (drop ct ys).
Proof.
  induction ps as [| p ps IH]; intros ct ret ret' d Hnd Hx Hy; [reflexivity |].
  cbn [map_params_from] in Hx, Hy. cbv zeta in Hx, Hy. cbn [sum_list_with].
  cbn [map] in Hnd. apply NoDup_cons in Hnd. destruct Hnd as [Hp Hnd].
  assert (Hw : 1 <= param_width p)
    by (unfold param_width; destruct (par_size p) as [[| n] |]; lia).
  unfold and_then at 1 in Hx. unfold and_then at 1 in Hy.
  destruct (if 1 <? param_width p
            then inr (PArray (take (param_width p) (drop ct xs)))
            else x <~ item xs ct ;; inr (PFloat x)) as [e | vx] eqn:Hvx; [discriminate |].
  destruct (if 1 <? param_width p
            then inr (PArray (take (param_width p) (drop ct ys)))
            else x <~ item ys ct ;; inr (PFloat x)) as [e | vy] eqn:Hvy; [discriminate |].
  destruct (map_params_from_spec _ _ _ _ _ Hx Hnd) as [Hox _].
  destruct (map_params_from_spec _ _ _ _ _ Hy Hnd) as [Hoy _].
  specialize (Hox _ Hp). specialize (Hoy _ Hp).
  rewrite lookup_insert_eq in Hox, Hoy.
  assert (Hv : vx = vy) by congruence. subst vy.
  rewrite <- !take_take_drop, !drop_drop. f_equal.
  - destruct (1 <? param_width p) eqn:Hn.
    + congruence.
    + apply Nat.ltb_ge in Hn. replace (param_width p) with 1 by lia.
      unfold and_then in Hvx, Hvy.
      destruct (item xs ct) as [e | x] eqn:Hix; [discriminate |].
      destruct (item ys ct) as [e | y] eqn:Hiy; [discriminate |].
      apply item_inr_lookup in Hix. apply item_inr_lookup in Hiy.
      rewrite (take_1_drop _ _ _ Hix), (take_1_drop _ _ _ Hiy). congruence.
  - exact (IH _ _ _ _ Hnd Hx Hy).
Qed.

(** X3. [map_params] reads exactly the entries that [param_names] names.
    When the parameters have distinct names and [xs] is mapped to a
    dictionary, a vector [ys] is mapped to the same dictionary exactly
    when it agrees with [xs] on the first [len(param_names)] entries:
    no entry behind them is read, and each of them is. *)
Theorem map_params_reads_named_entries (g : Gibbs X) (xs ys : vec) (d : pdict) :
  NoDup (map par_name (self_params X g)) ->
  map_params X g xs = inr d ->
  map_params X g ys = inr d <->
  take (length (param_names X g)) ys = take (length (param_names X g)) xs.
Proof.
  intros Hnd Hx. rewrite length_param_names. unfold map_params in *. split.
  - intros Hy.
    pose proof (map_params_from_same _ ys xs 0 ∅ ∅ d Hnd Hy Hx) as H.
    rewrite !drop_0 in H. exact H.
  - intros Ht. rewrite <- Hx. apply map_params_from_agree. exact Ht.
Qed.

(** X4. [map_params] returns on every vector that has an entry for each
    name of [param_names], and it then holds an entry for exactly the
    parameters of the model. *)
Theorem map_params_returns (g : Gibbs X) (xs : vec) :
  length (param_names X g) <= length xs ->
  exists d, map_params X g xs = inr d /\
            forall k, is_Some (d !! k) <-> k ∈ map par_name (self_params X g).
Proof.
  rewrite length_param_names. intros Hlen. unfold map_params.
  destruct (map_params_from_returns (self_params X g) xs 0 ∅ Hlen) as [d Hd].
  exists d. split; [exact Hd |].
  clear Hlen. revert Hd. generalize 0.
  assert (Hgen : forall ps ct (ret d : pdict),
             map_params_from ps xs ct ret = inr d ->
             forall k, is_Some (d !! k) <-> is_Some (ret !! k) \/ k ∈ map par_name ps).
  { induction ps as [| p ps IH]; intros ct ret d'; simpl.
    - intros [= <-] k. split; [auto | intros [H | H]; [exact H | inversion H]].
    - unfold and_then at 1.
      destruct (if 1 <? param_width p then _ else _) as [e | v]; [discriminate |].
      intros Hd k. rewrite (IH _ _ _ Hd k), elem_of_cons.
      destruct (decide (k = par_name p)) as [-> | Hne].
      + rewrite lookup_insert_eq. split; [auto | intros _; left; eauto].
      + rewrite lookup_insert_ne by congruence. tauto. }
  intros n Hd k. rewrite (Hgen _ _ _ _ Hd k), lookup_empty.
  split; [intros [[? H] | H]; [discriminate | exact H] | auto].
Qed.

(** X5. The only exception [map_params] raises is [IndexError], and only on a
    vector that is shorter than [param_names]. *)
Theorem map_params_raises (g : Gibbs X) (xs : vec) (e : exn) :
  map_params X g xs = inl e ->
  e = IndexError /\ length xs < length (param_names X g).
Proof.
  rewrite length_param_names. unfold map_params. intros H.
  apply map_params_from_raises in H. exact H.
Qed.

(** X6. Each parameter is read at the offset given by the widths of the
    parameters before it: as the slice of its width if that is more than
    one, as a number otherwise. *)
Theorem map_params_values (g : Gibbs X) (xs : vec) (d : pdict) (i : nat) (p : Param) :
  map_params X g xs = inr d ->
  NoDup (map par_name (self_params X g)) ->
  self_params X g !! i = Some p ->
  let off := sum_list_with param_width (take i (self_params X g)) in
  if 1 <? param_width p
  then d !! par_name p = Some (PArray (take (param_width p) (drop off xs)))
  else exists x, xs !! off = Some x /\ d !! par_name p = Some (PFloat x).
Proof.
  unfold map_params. intros Hd Hnd Hp.
  destruct (map_params_from_spec _ _ _ _ _ Hd Hnd) as [_ H].
  exact (H i p Hp).
Qed.

End Layout.

(** * The cached cross-products *)

Section Cache.

Context (X : Externals).

Lemma same_but_cache_refl (g : Gibbs X) : same_but_cache g g.
Proof. unfold same_but_cache. repeat split. Qed.

Lemma cache_step_refl (w : World X) : cache_step w w.
Proof. unfold cache_step. repeat split; auto using same_but_cache_refl. Qed.

Lemma cache_step_only_draws (w w1 w2 : World X) :
  cache_step w w1 -> only_draws w1 w2 -> cache_step w w2.
Proof.
  unfold cache_step, only_draws. intros (H & F & T & C & S) (S2 & H2 & F2 & T2).
  rewrite S2, H2, F2, T2. auto.
Qed.

(** The cache is computed when both parts are unset, and only then. *)
Lemma fill_cache_post (w : World X) (T : matrix) (Nvec : vec) :
  post (fill_cache X T Nvec) w
    (fun _ w' => env w' = env w /\ cache_step w w' /\
                 (~ cache_set (self w) -> self_TNT (self w') <> None /\
                                          self_d (self w') <> None))
    (fun w' => env w' = env w /\ cache_step w w').
Proof.
  assert (Hset : forall f : Gibbs X -> Gibbs X,
             (forall g, same_but_cache g (f g)) -> ~ cache_set (self w) ->
             cache_step w (on_self f w)).
  { intros f Hf Hno. unfold cache_step. cbn. do 3 (split; [reflexivity |]).
    split; [apply Hf | intros H; contradiction]. }
  unfold post, fill_cache, bind, gets, modify, lift_result, ret, raise.
  destruct (self_TNT (self w)) as [tnt |] eqn:HT; [| destruct (self_d (self w)) as [d |] eqn:HD].
  - split; [reflexivity |]. split; [apply cache_step_refl |].
    intros H. exfalso. apply H. left. congruence.
  - split; [reflexivity |]. split; [apply cache_step_refl |].
    intros H. exfalso. apply H. right. congruence.
  - assert (Hno : ~ cache_set (self w)) by (intros [H | H]; congruence).
    destruct (broadcast2 _ T Nvec) as [e | TN];
      [split; [reflexivity | apply cache_step_refl] |].
    destruct (dot_mm _ TN) as [e | TNT];
      [split; [reflexivity | apply cache_step_refl] |].
    destruct (broadcast2 _ _ Nvec) as [e | rN];
      [split; [reflexivity |]; apply Hset;
       [intros g; unfold same_but_cache; cbn; repeat split | exact Hno] |].
    destruct (dot_mv _ rN) as [e | d];
      [split; [reflexivity |]; apply Hset;
       [intros g; unfold same_but_cache; cbn; repeat split | exact Hno] |].
    split; [reflexivity |]. split.
    + apply (Hset (fun g => set_d (Some d) (set_TNT (Some TNT) g)));
        [intros g; unfold same_but_cache; cbn; repeat split | exact Hno].
    + intros _. cbn. split; discriminate.
Qed.

Lemma only_draws_refl' (w : World X) : only_draws w w.
Proof. unfold only_draws. auto. Qed.

Lemma only_draws_trans' (w1 w2 w3 : World X) :
  only_draws w1 w2 -> only_draws w2 w3 -> only_draws w1 w3.
Proof.
  unfold only_draws. intros (S1 & H1 & F1 & T1) (S2 & H2 & F2 & T2).
  repeat split; congruence.
Qed.

Lemma draws_randn : keeps only_draws (np_random_randn X (St := World X)).
Proof. intros w. unfold only_draws. cbn. auto. Qed.

Lemma same_state_refl (w : World X) : same_state w w.
Proof. reflexivity. Qed.

Lemma same_state_trans (w1 w2 w3 : World X) :
  same_state w1 w2 -> same_state w2 w3 -> same_state w1 w3.
Proof. unfold same_state. congruence. Qed.

(** X7. [update_b] does not assign [self._b] or anything but the cache: it
    returns the new vector, fills the cache when no part of it is set and
    leaves it alone otherwise, and advances the generator. *)
Theorem update_b_changes_only_cache (w : World X) (xs : vec) :
  cache_step w (final (update_b X xs w)) /\
  forall b w', update_b X xs w = Ok b w' ->
               self_TNT (self w') <> None /\ self_d (self w') <> None.
Proof.
  assert (Hrest : forall (phiinv : vec),
    keeps only_draws
      (g' <- gets self ;;
       Sigma <- lift_result (precision_matrix X g' phiinv) ;;
       d <- lift_result (cached_d X g') ;;
       ml <- try_except_LinAlgError
               (usv <- lift_result (sl_svd X Sigma) ;;
                let u := fst (fst usv) in
                let s := snd (fst usv) in
                utd <- lift_result (dot_mv (transpose u) d) ;;
                q <- lift_result (broadcast2 Float.div utd s) ;;
                mn <- lift_result (dot_mv u q) ;;
                Li <- lift_result (sampling_factor u s) ;;
                ret (mn, Li))
               (QR <- lift_result (sl_qr X Sigma) ;;
                Sigi <- lift_result (sl_solve X (snd QR) (transpose (fst QR))) ;;
                mn <- lift_result (dot_mv Sigi d) ;;
                usv <- lift_result (sl_svd X Sigi) ;;
                Li <- lift_result (sampling_factor (fst (fst usv)) (snd (fst usv))) ;;
                ret (mn, Li)) ;;
       z <- map_M (fun _ => np_random_randn X) (seq 0 (length (snd ml))) ;;
       Lz <- lift_result (dot_mv (snd ml) z) ;;
       lift_result (broadcast2 Float.add (fst ml) Lz))).
  { intros phiinv. pose proof draws_randn.
    repeat first [ progress keeps_split only_draws_refl' only_draws_trans' ltac:(idtac)
                 | progress cbv zeta ]. }
  assert (H : post (update_b X xs) w
                (fun _ w' => cache_step w w' /\ self_TNT (self w') <> None /\
                             self_d (self w') <> None)
                (fun w' => cache_step w w')).
  { unfold update_b.
    apply post_bind, post_gets.
    apply post_bind, post_lift_result; [intros params _ | intros; apply cache_step_refl].
    apply post_bind, post_lift_result; [intros Nvec _ | intros; apply cache_step_refl].
    apply post_bind, post_lift_result; [intros phiinv _ | intros; apply cache_step_refl].
    apply post_bind, post_lift_result; [intros T _ | intros; apply cache_step_refl].
    apply post_bind.
    eapply post_conseq; [apply fill_cache_post | | intros s' [_ Hs]; exact Hs].
    intros _ w1 (_ & Hstep & Hfill). cbv beta.
    specialize (Hrest phiinv w1).
    unfold post.
    destruct (bind (gets self) _ w1) as [b w2 | e w2] eqn:Hrun; cbn [final] in Hrest.
    - split; [eapply cache_step_only_draws; eassumption |].
      destruct Hrest as (S2 & _).
      (* the draw went through [self.TNT + np.diag(phiinv)] and [self.d] *)
      unfold bind, gets, lift_result in Hrun.
      rewrite S2.
      unfold precision_matrix, cached_d in Hrun.
      destruct (self_TNT (self w1)); [| discriminate].
      destruct (broadcast2 _ _ _); [discriminate |].
      destruct (self_d (self w1)); [| discriminate].
      split; discriminate.
    - eapply cache_step_only_draws; eassumption. }
  unfold post in H. destruct (update_b X xs w) as [b w' | e w']; cbn [final].
  - split; [apply H |]. intros b0 w0 [= <- <-]. apply H.
  - split; [exact H | discriminate].
Qed.

Ltac same_split :=
  repeat first [ progress keeps_split same_state_refl same_state_trans ltac:(idtac)
               | progress cbv zeta ].

(** X8. [get_lnlikelihood_fullmarg] changes nothing but the cache, which it
    fills when no part of it is set and leaves alone otherwise: the
    arrays, the files, the console and the generator are as before. *)
Theorem fullmarg_changes_only_cache (w : World X) (xs : vec) :
  env (final (get_lnlikelihood_fullmarg X xs w)) = env w /\
  cache_step w (final (get_lnlikelihood_fullmarg X xs w)) /\
  forall l w', get_lnlikelihood_fullmarg X xs w = Ok l w' ->
               ~ cache_set (self w) ->
               self_TNT (self w') <> None /\ self_d (self w') <> None.
Proof.
  assert (H : post (get_lnlikelihood_fullmarg X xs) w
                (fun _ w' => env w' = env w /\ cache_step w w' /\
                             (~ cache_set (self w) ->
                              self_TNT (self w') <> None /\ self_d (self w') <> None))
                (fun w' => env w' = env w /\ cache_step w w')).
  { unfold get_lnlikelihood_fullmarg, fullmarg_prepare.
    pose proof (cache_step_refl w) as Hrefl.
    apply post_bind, post_bind, post_gets.
    apply post_bind, post_lift_result; [intros params _ | intros; split; auto].
    apply post_bind, post_lift_result; [intros Nvec _ | intros; split; auto].
    apply post_bind, post_lift_result; [intros pl _ | intros; split; auto].
    cbv zeta.
    apply post_bind, post_lift_result; [intros T _ | intros; split; auto].
    apply post_bind.
    eapply post_conseq; [apply fill_cache_post | | intros s' Hs; exact Hs].
    intros _ w1 (Henv & Hstep & Hfill). cbv beta.
    eapply post_conseq; [apply (keeps_post same_state); same_split | |].
    - intros p s' ->.
      eapply post_conseq;
        [apply (keeps_post same_state); unfold fullmarg_finish; same_split | |].
      + intros l s' ->. auto.
      + intros s' ->. auto.
    - intros s' ->. auto. }
  unfold post in H. destruct (get_lnlikelihood_fullmarg X xs w) as [l w' | e w']; cbn [final].
  - destruct H as (H1 & H2 & H3). split; [exact H1 |]. split; [exact H2 |].
    intros l0 w0 [= <- <-]. exact H3.
  - destruct H as (H1 & H2). split; [exact H1 |]. split; [exact H2 | discriminate].
Qed.

End Cache.

(** * The latent-coefficient draw without a decomposition *)

Section FailingSvd.

Context (X : Externals).

(** X9. The fallback of [update_b] for a failed decomposition calls
    [sl.svd] again, outside any [try]: where [sl.svd] raises
    [LinAlgError] on every matrix, [update_b] never returns. *)
Theorem update_b_needs_svd (w : World X) (xs : vec) :
  (forall m, sl_svd X m = inl LinAlgError) ->
  exists e w', update_b X xs w = Raise e w'.
Proof.
  intros Hsvd.
  assert (H : post (update_b X xs) w (fun _ _ => False) (fun _ => True)).
  { unfold update_b.
    apply post_bind, post_gets.
    apply post_bind, post_lift_result; [intros params _ | auto].
    apply post_bind, post_lift_result; [intros Nvec _ | auto].
    apply post_bind, post_lift_result; [intros phiinv _ | auto].
    apply post_bind, post_lift_result; [intros T _ | auto].
    apply post_bind.
    eapply post_conseq; [apply fill_cache_post | | auto].
    intros _ w1 _. cbv beta.
    apply post_bind, post_gets.
    apply post_bind, post_lift_result; [intros Sigma _ | auto].
    apply post_bind, post_lift_result; [intros d _ | auto].
    apply post_bind, post_try.
    apply post_bind, post_lift_result; [intros usv Hu; rewrite Hsvd in Hu; discriminate |].
    intros e _. split; [exact I |].
    apply post_bind, post_lift_result; [intros QR _ | auto].
    apply post_bind, post_lift_result; [intros Sigi _ | auto].
    apply post_bind, post_lift_result; [intros mn _ | auto].
    apply post_bind, post_lift_result; [intros usv Hu; rewrite Hsvd in Hu; discriminate |].
    auto. }
  unfold post in H. destruct (update_b X xs w) as [b w' | e w']; [contradiction | eauto].
Qed.

End FailingSvd.

Lemma update_b_needs_svd_witness :
  exists e w', update_b svd_failing_collaborators [Fin 1; Fin (-7); Fin (-7)]
                 (world_of svd_failing_collaborators small_pta "conditional")
               = Raise e w'.
Proof.
  apply (update_b_needs_svd svd_failing_collaborators). reflexivity.
Defined.

(** * The thinning length of the white-noise block *)

Section Truncation.

Local Open Scope R_scope.

Lemma Int_part_small (a : R) : 0 <= a < 1 -> Int_part a = 0%Z.
Proof.
  intros [H0 H1]. unfold Int_part.
  rewrite <- (tech_up a 1); [reflexivity | simpl; lra | simpl; lra].
Qed.

(** [int(a)] is at least [1] exactly when [a] is. *)
Lemma R_trunc_ge_1 (a : R) : (1 <= R_trunc a)%Z <-> 1 <= a.
Proof.
  unfold R_trunc. destruct (Float.Rltb a 0) eqn:Hlt.
  - apply Rltb_spec in Hlt. split; [| intros; lra].
    intros H. destruct (base_Int_part (- a)) as [Hlo Hhi].
    assert (IZR (Int_part (- a)) <= IZR (-1)) by (apply IZR_le; lia).
    simpl in *. lra.
  - split; intros H.
    + destruct (base_Int_part a) as [Hlo Hhi].
      assert (IZR 1 <= IZR (Int_part a)) by (apply IZR_le; lia).
      simpl in *. lra.
    + destruct (base_Int_part a) as [Hlo Hhi].
      assert (IZR 0 < IZR (Int_part a)) by (simpl; lra).
      apply lt_IZR in H0. lia.
Qed.

Lemma R_trunc_half : R_trunc (1 / 2) = 0%Z.
Proof.
  unfold R_trunc. rewrite Rltb_false by lra. apply Int_part_small. lra.
Qed.

End Truncation.

Lemma fold_left_max_spec (l : list Z) (z0 : Z) :
  (fold_left Z.max l z0 = z0 \/ fold_left Z.max l z0 ∈ l) /\
  (z0 <= fold_left Z.max l z0)%Z /\
  forall y, y ∈ l -> (y <= fold_left Z.max l z0)%Z.
Proof.
  revert z0. induction l as [| x l IH]; intros z0; simpl.
  - split; [now left |]. split; [lia |]. intros y Hy. inversion Hy.
  - destruct (IH (Z.max z0 x)) as (Hin & Hle & Hall). split; [| split].
    + destruct Hin as [Heq | Hin]; [| right; now right].
      rewrite Heq. destruct (Z.max_spec z0 x) as [[_ ->] | [_ ->]]; [right; left | now left].
    + lia.
    + intros y Hy. apply elem_of_cons in Hy. destruct Hy as [-> | Hy]; [lia | auto].
Qed.

(** [np.max] returns an element of the list that bounds the others. *)
Lemma np_max_Z_spec (l : list Z) (z : Z) :
  np_max_Z l = inr z -> z ∈ l /\ forall y, y ∈ l -> (y <= z)%Z.
Proof.
  destruct l as [| z0 l]; simpl; [discriminate |]. intros [= <-].
  destruct (fold_left_max_spec l z0) as (Hin & Hle & Hall). split.
  - destruct Hin as [-> | Hin]; [left | now right].
  - intros y Hy. apply elem_of_cons in Hy. destruct Hy as [-> | Hy]; auto.
Qed.

Section Thinning.

Context (X : Externals).

(** The value of [int(np.max([int(acor.acor(col)[0]) for col in cols]))]:
    the estimates are finite and the value is the largest of their
    truncations. *)
Lemma aclength_of_spec (cols : list vec) (z : Z) :
  aclength_of X cols = inr z ->
  exists taus : list R,
    Forall2 (fun col tau => exists m s, acor_acor X col = inr (Fin tau, m, s)) cols taus /\
    z ∈ map R_trunc taus /\
    forall tau, tau ∈ taus -> (R_trunc tau <= z)%Z.
Proof.
  unfold aclength_of, and_then.
  destruct (map_result _ cols) as [e | ts] eqn:Hts; [discriminate |].
  intros Hz. apply np_max_Z_spec in Hz. destruct Hz as [Hin Hmax].
  assert (H : exists taus : list R,
             Forall2 (fun col tau => exists m s, acor_acor X col = inr (Fin tau, m, s))
                     cols taus /\ ts = map R_trunc taus).
  { clear Hin Hmax. revert ts Hts. induction cols as [| col cols IH]; intros ts; simpl.
    - intros [= <-]. exists []. split; [constructor | reflexivity].
    - destruct (acor_acor X col) as [e | [[tau m] s]] eqn:Hcol; [discriminate |].
      cbn [fst]. destruct tau as [t | | |]; cbn [py_int]; try discriminate.
      destruct (map_result _ cols) as [e | ts'] eqn:Hts'; [discriminate |].
      intros [= <-]. destruct (IH ts' eq_refl) as (taus & Hall & ->).
      exists (t :: taus). split; [constructor; [eauto | exact Hall] | reflexivity]. }
  destruct H as (taus & Hall & ->). exists taus. split; [exact Hall |].
  split; [exact Hin |]. intros tau Htau. apply Hmax.
  apply list_elem_of_fmap. exists tau. auto.
Qed.

(** X10. After a tuning run that returns, [self.aclength_white] is the
    largest truncation toward zero of the autocorrelation times that
    [acor.acor] estimated on the columns [short_chain[100:,jj]] of the
    chain that the loop of this run recorded, one column for each
    white-noise parameter; the run returns the last state of that loop.
    The stored value is at least [1] only when some estimate is at least
    [1]: no lower bound is applied to it. *)
Theorem white_tuning_stores_truncated_maximum (w w' : World X) (xs a : addr) (n : nat) :
  update_white_params X xs (Some n) w = Ok a w' ->
  exists (r : mh_state * matrix) (w1 : World X) (taus : list R) (z : Z),
    white_tuning_chain X xs n w = Ok r w1 /\
    a = mh_xnew (fst r) /\
    self_aclength_white (self w') = Some z /\
    Forall2 (fun col tau => exists m s, acor_acor X col = inr (Fin tau, m, s))
            (thinning_columns (get_efacequad_indices X (self w)) (snd r)) taus /\
    z ∈ map R_trunc taus /\
    (forall tau, tau ∈ taus -> (R_trunc tau <= z)%Z) /\
    ((1 <= z)%Z <-> exists tau, tau ∈ taus /\ (1 <= tau)%R).
Proof.
  intros Hrun. unfold update_white_params in Hrun.
  apply bind_Ok_inv in Hrun. destruct Hrun as (g & s1 & Hg & Hrun).
  unfold gets in Hg. injection Hg as <- <-. cbv zeta in Hrun.
  apply bind_Ok_inv in Hrun. destruct Hrun as (xnew & s2 & Hcopy & Hrun).
  apply bind_Ok_inv in Hrun. destruct Hrun as (v0 & s3 & Hload & Hrun).
  apply bind_Ok_inv in Hrun. destruct Hrun as (l0 & s4 & Hlik & Hrun).
  apply bind_Ok_inv in Hrun. destruct Hrun as (p0 & s5 & Hpri & Hrun).
  apply bind_Ok_inv in Hrun. destruct Hrun as (r & s6 & Hloop & Hrun).
  cbv zeta in Hrun.
  apply bind_Ok_inv in Hrun. destruct Hrun as (u1 & s7 & _ & Hrun).
  apply bind_Ok_inv in Hrun. destruct Hrun as (sigma & s8 & _ & Hrun).
  apply bind_Ok_inv in Hrun. destruct Hrun as (u2 & s9 & _ & Hrun).
  apply bind_Ok_inv in Hrun. destruct Hrun as (svd & s10 & _ & Hrun).
  apply bind_Ok_inv in Hrun. destruct Hrun as (u3 & s11 & _ & Hrun).
  apply bind_Ok_inv in Hrun. destruct Hrun as (z & s12 & Hz & Hrun).
  apply bind_Ok_inv in Hrun. destruct Hrun as (u4 & s13 & Hset & Hrun).
  unfold ret in Hrun. injection Hrun as <- <-.
  unfold modify in Hset. injection Hset as _ <-.
  fold (thinning_columns (get_efacequad_indices X (self w)) (snd r)) in Hz.
  destruct (aclength_of X (thinning_columns (get_efacequad_indices X (self w)) (snd r)))
    as [e | z'] eqn:Hac; [discriminate Hz |].
  cbn [lift_result] in Hz. unfold ret in Hz. injection Hz as <- _.
  destruct (aclength_of_spec _ _ Hac) as (taus & Hall & Hin & Hmax).
  exists r, s6, taus, z'.
  split.
  { unfold white_tuning_chain.
    unfold bind at 1. unfold gets at 1. cbv beta iota zeta.
    unfold bind at 1. rewrite Hcopy.
    unfold bind at 1. rewrite Hload.
    unfold bind at 1. rewrite Hlik.
    unfold bind at 1. rewrite Hpri.
    exact Hloop. }
  split; [reflexivity |]. split; [reflexivity |].
  split; [exact Hall |]. split; [exact Hin |]. split; [exact Hmax |].
  split.
  - intros H1. apply list_elem_of_fmap in Hin. destruct Hin as (tau & -> & Htau).
    exists tau. split; [exact Htau | now apply R_trunc_ge_1].
  - intros (tau & Htau & H1). apply R_trunc_ge_1 in H1.
    specialize (Hmax tau Htau). lia.
Qed.

End Thinning.

(** ** The small configuration *)

Lemma small_white_indices :
  get_efacequad_indices fixed_collaborators (self (small_world "conditional")) = [0; 1].
Proof. run. reflexivity. Qed.

Lemma small_vector : heap (env (small_world "conditional")) !!! 0 = [Fin 1; Fin (-7); Fin (-7)].
Proof. reflexivity. Qed.

Lemma small_white_ready : white_ready (self (small_world "conditional")) 3.
Proof.
  unfold white_ready. rewrite small_white_indices.
  split; [discriminate |]. split; [repeat constructor; lia |].
  split; intros v Hv; destruct v as [| a [| b [| c [| ? ?]]]]; try discriminate;
    eexists; run; reflexivity.
Qed.

Lemma fixed_aclength (cols : list vec) :
  cols <> [] -> aclength_of fixed_collaborators cols = inr 0%Z.
Proof.
  intros Hne. unfold aclength_of, and_then.
  assert (H : map_result (fun col => r <~ acor_acor fixed_collaborators col ;;
                                     py_int (fst (fst r))) cols
              = inr (map (fun _ => 0%Z) cols)).
  { induction cols as [| col cols IH]; [contradiction |].
    cbn [map_result map]. unfold acor_acor at 1, fixed_collaborators at 1, and_then at 1.
    cbn [fst py_int]. rewrite R_trunc_half.
    destruct cols as [| col' cols]; [reflexivity |].
    rewrite IH by discriminate. reflexivity. }
  unfold and_then in H. rewrite H.
  destruct cols as [| col cols]; [contradiction |]. cbn [map np_max_Z]. f_equal.
  clear. induction cols as [| c cols IH]; [reflexivity |]. exact IH.
Qed.

Lemma small_tuning_ready : tuning_ready (self (small_world "conditional")).
Proof.
  unfold tuning_ready. rewrite small_white_indices. split; [discriminate |].
  split; [intros m; eexists; reflexivity |].
  intros cols Hlen. exists 0%Z. apply fixed_aclength.
  destruct cols; [discriminate | discriminate].
Qed.

(** The tuning run of the small configuration returns, and stores the
    thinning length [0]: the estimates are [1/2]. *)
Lemma small_tuning_stores_zero :
  exists a w',
    update_white_params fixed_collaborators 0 (Some 1000) (small_world "conditional")
    = Ok a w' /\
    self_aclength_white (self w') = Some 0%Z.
Proof.
  pose proof (update_white_params_returns fixed_collaborators (small_world "conditional") 0
                (Some 1000) small_white_ready small_tuning_ready) as Hret.
  apply returns_Ok in Hret. destruct Hret as (a & w' & Hrun & _).
  exists a, w'. split; [exact Hrun |].
  pose proof (update_white_params_post fixed_collaborators (small_world "conditional") 0
                (Some 1000)) as H.
  unfold post in H. rewrite Hrun in H.
  destruct H as (_ & _ & _ & cols & z & Hlen & Hz & ->).
  rewrite small_white_indices in Hlen.
  rewrite fixed_aclength in Hz by (destruct cols; discriminate). congruence.
Qed.

Lemma white_tuning_stores_truncated_maximum_witness :
  exists (a : addr) (w' : World fixed_collaborators),
    update_white_params fixed_collaborators 0 (Some 1000) (small_world "conditional")
    = Ok a w' /\
    exists (r : mh_state * matrix) (w1 : World fixed_collaborators) (taus : list R) (z : Z),
      white_tuning_chain fixed_collaborators 0 1000 (small_world "conditional") = Ok r w1 /\
      a = mh_xnew (fst r) /\
      self_aclength_white (self w') = Some z /\
      Forall2 (fun col tau => exists m s,
                 acor_acor fixed_collaborators col = inr (Fin tau, m, s))
              (thinning_columns
                 (get_efacequad_indices fixed_collaborators (self (small_world "conditional")))
                 (snd r)) taus /\
      z ∈ map R_trunc taus /\
      (forall tau, tau ∈ taus -> (R_trunc tau <= z)%Z) /\
      ((1 <= z)%Z <-> exists tau, tau ∈ taus /\ (1 <= tau)%R).
Proof.
  destruct small_tuning_stores_zero as (a & w' & Hrun & _).
  exists a, w'. split; [exact Hrun |].
  exact (white_tuning_stores_truncated_maximum fixed_collaborators
           (small_world "conditional") w' 0 a 1000 Hrun).
Defined.

(** * The white-noise block at its edges *)

Section WhiteEdges.

Context (X : Externals).

(** The state after [xnew = xs.copy()]. *)
Lemma update_white_params_start (w : World X) (xs : addr) (iters : option nat)
    (l0 p0 : float) :
  get_lnlikelihood_white X (self w) (heap (env w) !!! xs) = inr l0 ->
  get_lnprior X (self w) (heap (env w) !!! xs) = inr p0 ->
  update_white_params X xs iters w =
  (let wind := get_efacequad_indices X (self w) in
   let st0 := {| mh_xnew := length (heap (env w)); mh_lnlike0 := l0; mh_lnprior0 := p0 |} in
   match iters with
   | Some iters =>
       r <- for_range iters 0
              (fun ii acc =>
                 q <- propose X wind (mh_xnew (fst acc)) ;;
                 st <- metropolis_white X q (fst acc) ;;
                 vq <- load q ;;
                 row <- lift_result (take_indices vq wind) ;;
                 ret (st, snd acc ++ [row]))
              (st0, []) ;;
       let short_chain := drop 100 (snd r) in
       let cov_white := np_cov X short_chain in
       modify (on_self (set_cov_white cov_white)) ;;;
       sigma_white <- (if length wind =? 1 then raise ValueError
                       else ret (map Float.sqrt (diag_of cov_white))) ;;
       modify (on_self (set_sigma_white sigma_white)) ;;;
       svd_white <- lift_result (np_linalg_svd X cov_white) ;;
       modify (on_self (set_svd_white svd_white)) ;;;
       a <- lift_result (aclength_of X (map (fun jj => column jj short_chain)
                                            (seq 0 (length wind)))) ;;
       modify (on_self (set_aclength_white a)) ;;;
       ret (mh_xnew (fst r))
   | None =>
       a <- lift_result (match self_aclength_white (self w) with
                         | Some a => inr a
                         | None => inl AttributeError
                         end) ;;
       st <- for_range (Z.to_nat a) 0
               (fun ii st => q <- propose X wind (mh_xnew st) ;; metropolis_white X q st)
               st0 ;;
       ret (mh_xnew st)
   end) (on_env (fun e => set_heap (heap e ++ [heap (env w) !!! xs]) e) w).
Proof.
  intros Hl Hp.
  unfold update_white_params at 1.
  unfold bind at 1, gets at 1. unfold bind at 1.
  change (np_copy xs w)
    with (Ok (length (heap (env w)))
             (on_env (fun e => set_heap (heap e ++ [heap (env w) !!! xs]) e) w)).
  cbv beta iota. unfold bind at 1, load at 1, gets at 1.
  cbn [the_env World_HasEnv env on_env heap set_heap].
  rewrite lookup_total_at_end.
  unfold bind at 1. cbn [self on_env]. rewrite Hl. cbn [lift_result ret].
  unfold bind at 1. rewrite Hp. cbn [lift_result ret].
  reflexivity.
Qed.

(** X11. A production call before any tuning run fails: [self.aclength_white]
    is assigned by the tuning run only. The exception is the
    [AttributeError] of that attribute when likelihood and prior evaluate
    on the vector, and the copy of the vector is all that was made. *)
Theorem white_production_needs_tuning (w : World X) (xs : addr) :
  self_aclength_white (self w) = None ->
  (exists e w', update_white_params X xs None w = Raise e w') /\
  forall l0 p0,
    get_lnlikelihood_white X (self w) (heap (env w) !!! xs) = inr l0 ->
    get_lnprior X (self w) (heap (env w) !!! xs) = inr p0 ->
    update_white_params X xs None w =
    Raise AttributeError (on_env (fun e => set_heap (heap e ++ [heap (env w) !!! xs]) e) w).
Proof.
  intros Hnone.
  assert (Hexact : forall l0 p0,
    get_lnlikelihood_white X (self w) (heap (env w) !!! xs) = inr l0 ->
    get_lnprior X (self w) (heap (env w) !!! xs) = inr p0 ->
    update_white_params X xs None w =
    Raise AttributeError (on_env (fun e => set_heap (heap e ++ [heap (env w) !!! xs]) e) w)).
  { intros l0 p0 Hl Hp. rewrite (update_white_params_start w xs None l0 p0 Hl Hp).
    cbv zeta. rewrite Hnone. reflexivity. }
  split; [| exact Hexact].
  assert (H : post (update_white_params X xs None) w (fun _ _ => False) (fun _ => True)).
  { unfold update_white_params.
    apply post_bind, post_gets. cbv beta zeta.
    apply post_bind, post_np_copy. cbv beta.
    apply post_bind, post_load.
    apply post_bind, post_lift_result; [intros l0 _ | auto].
    apply post_bind, post_lift_result; [intros p0 _ | auto].
    cbv zeta. rewrite Hnone. apply post_bind. exact I. }
  unfold post in H. destruct (update_white_params X xs None w) as [a w' | e w'];
    [contradiction | eauto].
Qed.

(** X12. A production call with a thinning length that is not positive makes
    no proposal: it returns a copy of the vector it was given and draws
    no random number. *)
Theorem white_production_without_steps (w : World X) (xs : addr) (z : Z) (l0 p0 : float) :
  self_aclength_white (self w) = Some z -> (z <= 0)%Z ->
  get_lnlikelihood_white X (self w) (heap (env w) !!! xs) = inr l0 ->
  get_lnprior X (self w) (heap (env w) !!! xs) = inr p0 ->
  update_white_params X xs None w =
  Ok (length (heap (env w)))
     (on_env (fun e => set_heap (heap e ++ [heap (env w) !!! xs]) e) w).
Proof.
  intros Hz Hle Hl Hp. rewrite (update_white_params_start w xs None l0 p0 Hl Hp).
  cbv zeta. rewrite Hz. unfold bind at 1. cbn [lift_result ret].
  replace (Z.to_nat z) with 0 by lia. reflexivity.
Qed.

(** X13. With a single white-noise parameter the tuning run fails after its
    loop: [np.cov] of a chain of one column is zero-dimensional, and
    [np.diag] raises [ValueError] on it. *)
Theorem white_tuning_single_parameter (w : World X) (xs : addr) (n : nat) :
  white_ready (self w) (length (heap (env w) !!! xs)) ->
  length (get_efacequad_indices X (self w)) = 1 ->
  exists w', update_white_params X xs (Some n) w = Raise ValueError w'.
Proof.
  intros Hready Hone. pose proof Hready as (Hne & Hin & Hl & Hp).
  destruct (Hl (heap (env w) !!! xs) eq_refl) as [l0 Hl0].
  destruct (Hp (heap (env w) !!! xs) eq_refl) as [p0 Hp0].
  rewrite (update_white_params_start w xs (Some n) l0 p0 Hl0 Hp0). cbv zeta.
  set (wind := get_efacequad_indices X (self w)) in *.
  pose proof (white_inv_start X w wind xs l0 p0) as Hinv.
  set (st0 := {| mh_xnew := _ |}) in *. set (s0 := on_env _ w) in *.
  set (v0 := heap (env w) !!! xs) in *.
  set (body := fun (ii : nat) (acc : mh_state * list (list float)) => _).
  assert (Hloop : returns (for_range n 0 body (st0, [])) s0 (fun _ _ => True)).
  { eapply post_conseq;
      [ apply (post_for_range body
                 (fun _ (acc : mh_state * list vec) s => white_inv w wind v0 (fst acc) s)
                 (fun _ => False) n 0 (st0, []) s0 Hinv) | auto | auto].
    intros i [st chain] s _ Hi. cbn [fst snd] in *. unfold body. cbn [fst snd].
    apply (white_jump_returns X w s v0 st
             (fun q st1 => vq <- load q ;;
                           row <- lift_result (take_indices vq wind) ;;
                           ret (st1, chain ++ [row])) _ Hready Hi).
    intros q st' s' Hi' Hq.
    apply post_bind, post_load.
    destruct (take_indices_in_range (heap (env s') !!! q) wind) as [row Hrow];
      [rewrite Hq; exact Hin |].
    rewrite Hrow. apply post_bind, post_ret, post_ret. exact Hi'. }
  apply returns_Ok in Hloop. destruct Hloop as (r & s1 & Hloop & _).
  unfold bind at 1. rewrite Hloop.
  unfold bind at 1, modify at 1. unfold bind at 1.
  rewrite Hone. cbn [Nat.eqb]. eexists. reflexivity.
Qed.

End WhiteEdges.

Lemma white_production_needs_tuning_witness :
  (exists e w', update_white_params fixed_collaborators 0 None (small_world "conditional")
                = Raise e w') /\
  forall l0 p0,
    get_lnlikelihood_white fixed_collaborators (self (small_world "conditional"))
      (heap (env (small_world "conditional")) !!! 0) = inr l0 ->
    get_lnprior fixed_collaborators (self (small_world "conditional"))
      (heap (env (small_world "conditional")) !!! 0) = inr p0 ->
    update_white_params fixed_collaborators 0 None (small_world "conditional") =
    Raise AttributeError
      (on_env (fun e => set_heap (heap e ++ [heap (env (small_world "conditional")) !!! 0]) e)
              (small_world "conditional")).
Proof.
  apply (white_production_needs_tuning fixed_collaborators (small_world "conditional") 0).
  reflexivity.
Defined.

Lemma white_production_without_steps_witness :
  update_white_params fixed_collaborators 0 None
    (on_self (set_aclength_white 0) (small_world "conditional")) =
  Ok (length (heap (env (on_self (set_aclength_white 0) (small_world "conditional")))))
     (on_env (fun e => set_heap
                (heap e ++ [heap (env (on_self (set_aclength_white 0)
                                               (small_world "conditional"))) !!! 0]) e)
             (on_self (set_aclength_white 0) (small_world "conditional"))).
Proof.
  eapply (white_production_without_steps fixed_collaborators
            (on_self (set_aclength_white 0) (small_world "conditional")) 0 0).
  - reflexivity.
  - lia.
  - run. reflexivity.
  - run. reflexivity.
Defined.

Lemma single_white_ready : white_ready (self single_white_world) 2.
Proof.
  unfold white_ready.
  assert (Hind : get_efacequad_indices fixed_collaborators (self single_white_world) = [0])
    by (run; reflexivity).
  rewrite Hind.
  split; [discriminate |]. split; [repeat constructor; lia |].
  split; intros v Hv; destruct v as [| a [| b [| ? ?]]]; try discriminate;
    eexists; run; reflexivity.
Qed.

Lemma white_tuning_single_parameter_witness :
  exists w', update_white_params fixed_collaborators 0 (Some 1000) single_white_world
             = Raise ValueError w'.
Proof.
  apply (white_tuning_single_parameter fixed_collaborators single_white_world 0 1000).
  - exact single_white_ready.
  - run. reflexivity.
Defined.

(** * What the block samplers leave of the vector *)

Section VectorFrame.

Context (X : Externals).

(** X14. [update_white_params] and [update_gwrho_params] work on a copy: the
    array they are given, and every other array that exists, holds
    afterwards what it held before, however the call ends; and the
    vector they return is a new array that agrees with the given one at
    every position outside the index set of the block. *)
Theorem block_updates_work_on_a_copy (w : World X) (xs : addr) :
  (forall iters,
      heap (env w) `prefix_of` heap (env (final (update_white_params X xs iters w))) /\
      forall a w', update_white_params X xs iters w = Ok a w' ->
        length (heap (env w)) <= a < length (heap (env w')) /\
        agree_outside (get_efacequad_indices X (self w))
                      (heap (env w') !!! a) (heap (env w) !!! xs)) /\
  (heap (env w) `prefix_of` heap (env (final (update_gwrho_params X xs w))) /\
   forall a w', update_gwrho_params X xs w = Ok a w' ->
     length (heap (env w)) <= a < length (heap (env w')) /\
     agree_outside (get_gwrho_param_indices X (self w))
                   (heap (env w') !!! a) (heap (env w) !!! xs)).
Proof.
  split.
  - intros iters. pose proof (update_white_params_post X w xs iters) as H.
    unfold post in H.
    destruct (update_white_params X xs iters w) as [a w' | e w']; cbn [final].
    + destruct H as ((P & _) & Hr & Hag & _). split; [exact P |].
      intros a0 w0 [= <- <-]. auto.
    + destruct H as (P & _). split; [exact P | discriminate].
  - pose proof (update_gwrho_params_post X w xs) as H. unfold post in H.
    destruct (update_gwrho_params X xs w) as [a w' | e w']; cbn [final].
    + destruct H as (-> & _ & _ & _ & v' & Hh & Hag). split.
      * rewrite Hh. now apply prefix_app_r.
      * intros a0 w0 [= <- <-]. rewrite Hh, length_app, lookup_total_at_end. cbn.
        split; [lia | exact Hag].
    + destruct H as (_ & _ & _ & Hh). split; [| discriminate].
      rewrite Hh. now apply prefix_app_r.
Qed.

End VectorFrame.

(** * The object that [__init__] makes *)

Lemma same_state_refl_any {St : Type} (s : St) : same_state s s.
Proof. reflexivity. Qed.

Lemma same_state_trans_any {St : Type} (s1 s2 s3 : St) :
  same_state s1 s2 -> same_state s2 s3 -> same_state s1 s3.
Proof. unfold same_state. congruence. Qed.

Ltac pure_split St :=
  repeat first [ progress keeps_split (@same_state_refl_any St) (@same_state_trans_any St)
                                      ltac:(idtac)
               | progress cbv zeta ].

Section FreshObject.

Context (X : Externals).

(** The loop over the signals counts one name for each column it
    counts. *)
Lemma scan_signal_names (acc sc : basis_scan) (kv : string * Signal) :
  scan_signal acc kv = inr sc ->
  length (scan_names acc) = scan_ct acc ->
  length (scan_names sc) = scan_ct sc.
Proof.
  destruct kv as [sig s]. unfold scan_signal, and_then.
  destruct (if py_in "gw" (sig_name s) then _ else _) as [e | gwid]; [discriminate |].
  destruct (if py_in "ecorr" (sig_name s) then _ else _) as [e | ecid]; [discriminate |].
  destruct (sig_basis_ncols s) as [n |]; [destruct (negb (py_in "red" sig)) |];
    intros [= <-] Hacc; cbn [scan_names scan_ct];
    rewrite ?length_app, ?length_map, ?length_seq; lia.
Qed.

Lemma scan_signals_names (sigs : list (string * Signal)) :
  forall acc sc,
    scan_signals acc sigs = inr sc ->
    length (scan_names acc) = scan_ct acc ->
    length (scan_names sc) = scan_ct sc.
Proof.
  induction sigs as [| kv sigs IH]; intros acc sc; simpl.
  - intros [= <-]. auto.
  - unfold and_then. destruct (scan_signal acc kv) as [e | acc'] eqn:H1; [discriminate |].
    intros H2 Hacc. eapply IH; [exact H2 |]. eapply scan_signal_names; eassumption.
Qed.

Lemma init_post (pta : PTA) (hypersample ecorrsample : string) (psr : option Pulsar)
    (e0 : Env) :
  post (init X pta hypersample ecorrsample psr) e0
    (fun g e1 =>
       (heap e1 = heap e0 /\ fs e1 = fs e0 /\
        self_pta (setup g) = pta /\ self_hypersample (setup g) = hypersample /\
        self_ecorrsample (setup g) = ecorrsample /\
        self_TNT g = None /\ self_d g = None /\ self_aclength_white g = None /\
        self_ptsampler_rn g = None /\ self_chain g = [] /\ self_bchain g = [] /\
        exists xs T0, item (pta_get_basis pta (BList xs)) 0 = inr T0 /\
                      self_b g = replicate (ncols T0) (Fin 0)) /\
       exists T1, item (pta_get_basis pta BNone) 0 = inr T1 /\
         trace e1 =
         EvPrint (if length (self_b_param_names (setup g)) =? ncols T1
                  then "Basis count is good"
                  else "WARNING: Miscounted basis entries. Maybe red noise and GW do not share a design matrix.")
         :: trace e0)
    (fun _ => True).
Proof.
  unfold init.
  apply post_bind, post_lift_result; [intros pulsar_name _ | auto].
  cbv zeta. destruct (existsb _ _); [exact I |].
  apply post_bind, post_lift_result; [intros residuals _ | auto].
  apply post_bind.
  eapply post_conseq;
    [ apply (post_map_M _ (fun _ e => heap e = heap e0 /\ fs e = fs e0 /\ trace e = trace e0)
               (fun _ => True) (pta_params pta) [] e0);
      [auto | intros p acc s _ Hs; exact Hs] | | auto].
  intros xs e (Hh & Hf & Ht). cbv beta. cbn [app].
  apply post_bind, post_lift_result; [intros T0 HT0 | auto].
  apply post_bind, post_lift_result; [intros ind _ | auto].
  apply post_bind, post_lift_result; [intros p_rho _ | auto].
  apply post_bind, post_lift_result; [intros rho_bounds _ | auto].
  apply post_bind, post_lift_result; [intros sc Hsc | auto].
  apply post_bind, post_lift_result; [intros T1 HT1 | auto].
  unfold print. apply post_bind, post_modify.
  apply post_bind.
  eapply post_conseq; [apply (keeps_post same_state); pure_split Env | | auto].
  intros ecorr s' ->. apply post_ret. cbn.
  split.
  - do 11 (split; [auto |]). exists xs, T0. split; [exact HT0 | reflexivity].
  - exists T1. split; [exact HT1 |]. rewrite Ht.
    rewrite (scan_signals_names _ _ _ Hsc eq_refl). reflexivity.
Qed.

(** X16. A successful construction prints one line: ['Basis count is good']
    exactly when [b_param_names] has one name for each column of the
    design matrix, the warning about miscounted basis entries
    otherwise. *)
Theorem init_basis_count_message (pta : PTA) (hypersample ecorrsample : string)
    (psr : option Pulsar) (e0 e1 : Env) (g : Gibbs X) :
  init X pta hypersample ecorrsample psr e0 = Ok g e1 ->
  exists T1, item (pta_get_basis pta BNone) 0 = inr T1 /\
    trace e1 =
    EvPrint (if length (self_b_param_names (setup g)) =? ncols T1
             then "Basis count is good"
             else "WARNING: Miscounted basis entries. Maybe red noise and GW do not share a design matrix.")
    :: trace e0.
Proof.
  intros Hrun. pose proof (init_post pta hypersample ecorrsample psr e0) as H.
  unfold post in H. rewrite Hrun in H. apply H.
Qed.

Lemma last_match_none (test : string -> bool) (names : list string) :
  Forall (fun name => test name = false) names ->
  forall ct ind, last_match test names ct ind = ind.
Proof.
  induction 1 as [| name names Hn _ IH]; intros ct ind; simpl; [reflexivity |].
  rewrite Hn. apply IH.
Qed.

(** X17. Without a parameter whose name contains both ['rho'] and ['gw'] the
    construction fails with [UnboundLocalError]: the variable [ind] is
    read without having been assigned. *)
Theorem init_needs_gw_rho (pta : PTA) (hypersample ecorrsample : string)
    (psr : option Pulsar) (e0 : Env) (name : string) (r : vec) :
  (forall p, p ∈ pta_params pta ->
             (py_in "rho" (par_name p) && py_in "gw" (par_name p)) = false) ->
  pta_pulsars pta !! 0 = Some name ->
  existsb (py_in "EcorrKernelNoise")
          (map (fun kv => sig_class_name (snd kv)) (pta_signals pta)) = false ->
  pta_get_residuals pta !! 0 = Some r ->
  (forall xs, exists T, pta_get_basis pta (BList xs) !! 0 = Some T) ->
  raises (init X pta hypersample ecorrsample psr) e0 UnboundLocalError.
Proof.
  intros Hno Hname Hkernel Hres Hbasis. unfold init.
  eapply raises_bind_Ok; [unfold lift_result, item; rewrite Hname; reflexivity |].
  cbv zeta. rewrite Hkernel.
  eapply raises_bind_Ok; [unfold lift_result, item; rewrite Hres; reflexivity |].
  destruct (returns_Ok (map_M (fun p => n <- next_draw ;; ret (par_sample p n))
                              (pta_params pta)) e0 (fun _ _ => True))
    as (xs & e' & Hxs & _).
  { eapply post_conseq;
      [ apply (post_map_M _ (fun _ _ => True) (fun _ => False) (pta_params pta) [] e0);
        [exact I | intros p acc s _ _; exact I] | auto | auto]. }
  eapply raises_bind_Ok; [exact Hxs |].
  destruct (Hbasis xs) as [T HT].
  eapply raises_bind_Ok; [unfold lift_result, item; rewrite HT; reflexivity |].
  rewrite last_match_none.
  - eexists. reflexivity.
  - rewrite Forall_forall. intros n Hn. apply list_elem_of_fmap in Hn.
    destruct Hn as (p & -> & Hp). apply Hno. exact Hp.
Qed.

End FreshObject.

Lemma init_basis_count_message_witness :
  exists T1, item (pta_get_basis small_pta BNone) 0 = inr T1 /\
    trace (env (small_world "conditional")) =
    EvPrint (if length (self_b_param_names (setup (self (small_world "conditional"))))
                =? ncols T1
             then "Basis count is good"
             else "WARNING: Miscounted basis entries. Maybe red noise and GW do not share a design matrix.")
    :: trace small_env.
Proof.
  apply (init_basis_count_message fixed_collaborators small_pta "conditional" "mh" None
           small_env).
  apply small_init.
Defined.

Lemma init_needs_gw_rho_witness :
  raises (init fixed_collaborators no_rho_pta "conditional" "mh" None) small_env
         UnboundLocalError.
Proof.
  apply (init_needs_gw_rho fixed_collaborators no_rho_pta "conditional" "mh" None small_env
           "J0000+0000" [Fin 0]).
  - intros p Hp. apply list_elem_of_singleton in Hp. subst p. reflexivity.
  - reflexivity.
  - reflexivity.
  - reflexivity.
  - intros xs. eexists. reflexivity.
Defined.

(** * The recorded chains *)

Lemma broadcast_row_spec (n : nat) (v row : vec) :
  broadcast_row n v = inr row -> assigned_row n v row /\ length row = n.
Proof.
  unfold broadcast_row, assigned_row. destruct (Nat.eqb_spec (length v) n) as [E | _].
  - intros [= <-]. split; [left |]; auto.
  - destruct v as [| x [| y v]]; try discriminate.
    intros [= <-]. split; [right; eauto | apply length_replicate].
Qed.

Lemma broadcast_rows_spec (r n : nat) (src rows : matrix) :
  broadcast_rows r n src = inr rows ->
  length rows = r /\ Forall (fun row => length row = n) rows.
Proof.
  unfold broadcast_rows.
  destruct (map_result (broadcast_row n) src) as [e | rows0] eqn:Hmap; [discriminate |].
  assert (Hall : Forall (fun row => length row = n) rows0).
  { revert rows0 Hmap. induction src as [| v src IH]; intros rows0; simpl.
    - intros [= <-]. constructor.
    - destruct (broadcast_row n v) as [e | row] eqn:Hrow; [discriminate |].
      destruct (map_result _ src) as [e | rows1]; [discriminate |].
      intros [= <-]. constructor; [apply (broadcast_row_spec _ _ _ Hrow) | now apply IH]. }
  destruct (Nat.eqb_spec (length rows0) r) as [E | _].
  - intros [= <-]. auto.
  - destruct rows0 as [| row [| row' rows0]]; try discriminate.
    intros [= <-]. split; [apply length_replicate |].
    apply Forall_replicate. now inversion Hall.
Qed.

Section Chains.

Context (X : Externals).

Lemma chains_ok_frame (niter nx nb : nat) (s s' : World X) :
  chains_ok niter nx nb s ->
  heap (env s) `prefix_of` heap (env s') ->
  self_chain (self s') = self_chain (self s) ->
  self_bchain (self s') = self_bchain (self s) ->
  chains_ok niter nx nb s'.
Proof.
  unfold chains_ok. intros (L & N & F & LB & FB) P C B. rewrite C, B.
  do 2 (split; [assumption |]). split; [| auto].
  eapply Forall_impl; [exact F |]. intros a [Ha Hlen]. cbv beta.
  rewrite (prefix_lookup_total _ _ _ P Ha). apply prefix_length in P. split; [lia | exact Hlen].
Qed.

Lemma chains_ok_store (niter nx nb : nat) (s : World X) (a : addr) (row : vec) :
  chains_ok niter nx nb s -> length row = nx ->
  chains_ok niter nx nb (on_env (fun e => set_heap (<[a := row]> (heap e)) e) s).
Proof.
  unfold chains_ok. cbn. intros (L & N & F & LB & FB) Hrow.
  do 2 (split; [assumption |]). split; [| auto].
  eapply Forall_impl; [exact F |]. intros a' [Ha Hlen]. cbv beta.
  rewrite length_insert. split; [exact Ha |].
  destruct (decide (a = a')) as [-> | Hne].
  - rewrite list_lookup_total_insert_eq by exact Ha. exact Hrow.
  - rewrite list_lookup_total_insert_ne by exact Hne. exact Hlen.
Qed.

(** Allocating the rows of [self.chain]. *)
Lemma alloc_rows_post (v : vec) (l : list nat) :
  forall w : World X,
    returns (map_M (fun _ => alloc v) l) w
      (fun addrs w1 =>
         addrs = seq (length (heap (env w))) (length l) /\
         heap (env w1) = heap (env w) ++ replicate (length l) v /\
         self w1 = self w).
Proof.
  induction l as [| x l IH]; intros w; simpl.
  - apply post_ret. rewrite app_nil_r. auto.
  - apply post_bind. unfold alloc at 1.
    apply post_bind, post_gets, post_bind, post_modify, post_ret.
    apply post_bind. eapply post_conseq; [apply IH | | auto].
    intros addrs w1 (-> & Hh & Hs). apply post_ret. cbn in *.
    rewrite length_app in *. cbn in *. rewrite Hh, Hs, <- app_assoc.
    replace (length (heap (env w)) + 1) with (S (length (heap (env w)))) by lia.
    auto.
Qed.

Lemma chains_ok_fresh (s : World X) (h : list vec) (niter nx nb : nat) :
  self_chain (self s) = seq (length h) niter ->
  heap (env s) = h ++ replicate niter (np_zeros nx) ->
  self_bchain (self s) = replicate niter (np_zeros nb) ->
  chains_ok niter nx nb s.
Proof.
  intros C H B. unfold chains_ok. rewrite C, H, B.
  split; [apply length_seq |]. split; [apply NoDup_seq |].
  split; [| split; [apply length_replicate |]].
  - rewrite Forall_forall. intros a Ha. apply elem_of_seq in Ha.
    rewrite length_app, length_replicate. split; [lia |].
    assert (Hl : (h ++ replicate niter (np_zeros nx)) !! a = Some (np_zeros nx)).
    { rewrite lookup_app_r by lia. apply lookup_replicate_2. lia. }
    rewrite (list_lookup_total_correct _ _ _ Hl). apply length_replicate.
  - apply Forall_replicate. apply length_replicate.
Qed.

Lemma store_rows_post (niter nx nb : nat) (pairs : list (addr * vec)) :
  forall s : World X,
    chains_ok niter nx nb s ->
    Forall (fun ar => length (snd ar) = nx) pairs ->
    returns (map_M (fun ar => store (fst ar) (snd ar)) pairs) s
      (fun _ s' => chains_ok niter nx nb s' /\ self s' = self s).
Proof.
  induction pairs as [| [a row] pairs IH]; intros s Hok Hall; simpl.
  - apply post_ret. auto.
  - apply Forall_cons in Hall. destruct Hall as [Hrow Hall].
    apply post_bind. unfold store at 1. apply post_modify.
    apply post_bind. eapply post_conseq; [apply IH | | auto].
    + apply chains_ok_store; assumption.
    + exact Hall.
    + intros ys s' [Hok' Hs]. apply post_ret. auto.
Qed.

Lemma np_loadtxt_post (s : World X) (path : string) :
  post (np_loadtxt X path) s
    (fun _ s' => heap (env s') = heap (env s) /\ self s' = self s)
    (fun _ => True).
Proof.
  unfold np_loadtxt. apply post_bind, post_modify, post_bind, post_gets.
  destruct (fs _ !! path) as [[lines | arr] |]; [| exact I | exact I].
  apply post_lift_result; [intros m _; cbn; auto | auto].
Qed.

Lemma resume_chain_post (niter nx nb : nat) (outdir : string) (s : World X) :
  chains_ok niter nx nb s ->
  post (resume_chain X outdir nx nb) s
    (fun _ s' => chains_ok niter nx nb s' /\ self_b (self s') = self_b (self s))
    (fun _ => True).
Proof.
  intros Hok. unfold resume_chain, print.
  apply post_bind, post_modify. apply post_bind.
  eapply post_conseq; [apply np_loadtxt_post | | auto].
  intros tmp0 s1 [H1 S1]. cbv beta. apply post_bind.
  eapply post_conseq; [apply np_loadtxt_post | | auto].
  intros tmp1 s2 [H2 S2]. cbv beta zeta.
  assert (Hok2 : chains_ok niter nx nb s2).
  { eapply chains_ok_frame; [exact Hok | | |].
    - rewrite H2, H1. reflexivity.
    - rewrite S2, S1. reflexivity.
    - rewrite S2, S1. reflexivity. }
  assert (Hb2 : self_b (self s2) = self_b (self s)) by (rewrite S2, S1; reflexivity).
  clear H1 S1 H2 S2 s1 Hok.
  unfold assign_chain_prefix. apply post_bind, post_bind, post_gets. cbv zeta.
  apply post_bind, post_lift_result; [intros rows Hrows | auto].
  apply broadcast_rows_spec in Hrows. destruct Hrows as [_ Hrows].
  apply post_bind.
  eapply post_conseq;
    [apply (store_rows_post niter nx nb _ s2 Hok2) | | auto].
  { rewrite Forall_forall. intros [a row] Hin. cbn.
    apply elem_of_zip_r in Hin. rewrite Forall_forall in Hrows. auto. }
  intros _ s3 [Hok3 S3]. cbv beta. apply post_ret.
  unfold assign_bchain_prefix. apply post_bind, post_bind, post_gets. cbv zeta.
  apply post_bind, post_lift_result; [intros brows Hbrows | auto].
  apply broadcast_rows_spec in Hbrows. destruct Hbrows as [Hblen Hbrows].
  apply post_modify. apply post_bind, post_gets.
  apply post_bind, post_lift_result; [intros xnew _ | auto].
  apply post_ret. split; [| cbn; rewrite S3; exact Hb2].
  destruct Hok3 as (L & N & F & LB & FB). unfold chains_ok. cbn.
  do 3 (split; [assumption |]). split.
  - rewrite length_app, Hblen, length_take, length_drop. lia.
  - apply Forall_app. split; [exact Hbrows | now apply Forall_drop].
Qed.

(** When [sample] reaches its loop, the chains are allocated. *)
Lemma sample_prologue_post (w : World X) (xs : addr) (outdir : string) (niter : nat)
    (resume : bool) :
  post (sample_prologue X xs outdir niter resume) w
    (fun r w0 =>
       chains_ok niter (length (heap (env w) !!! xs)) (length (self_b (self w))) w0 /\
       self_b (self w0) = self_b (self w) /\
       (resume = false -> r = (0, xs)))
    (fun _ => True).
Proof.
  unfold sample_prologue, print, np_savetxt.
  do 2 apply post_bind, post_modify. apply post_bind, post_gets.
  do 2 apply post_bind, post_modify. apply post_bind, post_load.
  apply post_bind. eapply post_conseq; [apply alloc_rows_post | | intros ? []].
  intros chain w1 (-> & Hh & Hs). cbv beta.
  do 3 apply post_bind, post_modify.
  match goal with |- post _ ?s3 _ _ => set (w3 := s3) end.
  assert (Hok : chains_ok niter (length (heap (env w) !!! xs)) (length (self_b (self w))) w3).
  { apply (chains_ok_fresh w3 (heap (env w))).
    - cbn. rewrite length_seq. reflexivity.
    - cbn. rewrite Hh, length_seq. reflexivity.
    - reflexivity. }
  assert (Hb : self_b (self w3) = self_b (self w)) by (cbn; rewrite Hs; reflexivity).
  destruct resume.
  - eapply post_conseq; [apply (resume_chain_post niter _ _ outdir w3 Hok) | | auto].
    intros r w0 [Hok0 Hb0]. split; [exact Hok0 |]. split; [congruence | discriminate].
  - apply post_ret. auto.
Qed.

Lemma post_chain_rows (l : list addr) (s : World X) (Q : matrix -> World X -> Prop) QE :
  Q (map (fun a => heap (env s) !!! a) l) s -> post (chain_rows X l) s Q QE.
Proof.
  unfold chain_rows. revert Q. induction l as [| a l IH]; intros Q HQ; simpl.
  - exact HQ.
  - apply post_bind, post_load, post_bind, IH, post_ret. exact HQ.
Qed.

Lemma chains_ok_row (niter nx nb : nat) (s : World X) (i : nat) (a : addr) :
  chains_ok niter nx nb s -> self_chain (self s) !! i = Some a ->
  a < length (heap (env s)) /\ length (heap (env s) !!! a) = nx.
Proof.
  intros (_ & _ & F & _) Ha. rewrite Forall_forall in F. apply F.
  eapply list_elem_of_lookup_2. exact Ha.
Qed.

Lemma chains_ok_brow (niter nx nb : nat) (s : World X) (i : nat) (r : vec) :
  chains_ok niter nx nb s -> self_bchain (self s) !! i = Some r -> length r = nb.
Proof.
  intros (_ & _ & _ & _ & F) Hr. rewrite Forall_forall in F. apply F.
  eapply list_elem_of_lookup_2. exact Hr.
Qed.

(** One pass of the loop of [sample]: the vector and the latent vector
    it starts with are assigned to row [ii] of the chains, nothing else
    of the chains changes, and a snapshot that is due holds the rows up
    to [ii]. *)
Lemma sample_iteration_post (niter nx nb : nat) (xs : addr) (outdir : string)
    (ii : nat) (x : addr) (s : World X) :
  chains_ok niter nx nb s ->
  post (sample_iteration X xs outdir ii x) s
    (fun _ s' =>
       exists a row brow,
         self_chain (self s) !! ii = Some a /\
         broadcast_row nx (heap (env s) !!! x) = inr row /\
         broadcast_row nb (self_b (self s)) = inr brow /\
         <[a := row]> (heap (env s)) `prefix_of` heap (env s') /\
         self_chain (self s') = self_chain (self s) /\
         self_bchain (self s') = <[ii := brow]> (self_bchain (self s)) /\
         (snapshot_due ii = true ->
          fs (env s') !! (outdir +:+ "/chain.npy")
          = Some (NpyArray (map (fun a => heap (env s') !!! a)
                                (take (ii + 1) (self_chain (self s'))))) /\
          fs (env s') !! (outdir +:+ "/bchain.npy")
          = Some (NpyArray (take (ii + 1) (self_bchain (self s'))))))
    (fun _ => True).
Proof.
  intros Hok. unfold sample_iteration.
  apply post_bind, post_modify. apply post_bind, post_gets.
  apply post_bind, post_lift_result; [intros a Ha | auto].
  apply item_inr_lookup in Ha. cbn in Ha.
  destruct (chains_ok_row _ _ _ _ _ _ Hok Ha) as [Hlt Hlen].
  apply post_bind, post_load. apply post_bind, post_load.
  cbn [env on_self]. rewrite Hlen.
  apply post_bind, post_lift_result; [intros row Hrow | auto].
  unfold store. apply post_bind, post_modify.
  apply post_bind, post_lift_result; [intros oldb Holdb | auto].
  apply item_inr_lookup in Holdb. cbn in Holdb.
  rewrite (chains_ok_brow _ _ _ _ _ _ Hok Holdb).
  apply post_bind, post_lift_result; [intros brow Hbrow | auto].
  cbn in Hbrow.
  apply post_bind, post_modify.
  match goal with |- post _ ?s3 _ _ => set (s3' := s3) end.
  apply post_bind.
  eapply post_conseq; [apply (keeps_post block_step), keeps_run_blocks | | auto].
  intros x' s4 (P & C & B & _). cbv beta.
  assert (Hfacts : <[a := row]> (heap (env s)) `prefix_of` heap (env s4) /\
                   self_chain (self s4) = self_chain (self s) /\
                   self_bchain (self s4) = <[ii := brow]> (self_bchain (self s))).
  { split; [exact P |]. split; [rewrite C | rewrite B]; reflexivity. }
  clearbody s3'. clear P C B. destruct Hfacts as (P & C & B).
  apply post_bind. destruct (snapshot_due ii).
  - apply post_bind, post_gets. apply post_bind, post_chain_rows.
    unfold np_save. apply post_bind, post_modify, post_modify, post_ret.
    exists a, row, brow. cbn. do 6 (split; [assumption |]). intros _. split.
    + rewrite lookup_insert_ne by (intros Heq; apply append_inj_l in Heq; discriminate).
      rewrite lookup_insert_eq. reflexivity.
    + rewrite lookup_insert_eq. reflexivity.
  - apply post_ret, post_ret.
    exists a, row, brow. do 6 (split; [assumption |]). discriminate.
Qed.

(** What one pass of the loop does to the rows of the chains. *)
Lemma sample_iteration_rows (niter nx nb : nat) (xs : addr) (outdir : string)
    (ii : nat) (x x' : addr) (s s' : World X) :
  chains_ok niter nx nb s ->
  sample_iteration X xs outdir ii x s = Ok x' s' ->
  chains_ok niter nx nb s' /\
  (exists row brow,
      assigned_row nx (heap (env s) !!! x) row /\
      assigned_row nb (self_b (self s)) brow /\
      chain_row s' ii = Some row /\ self_bchain (self s') !! ii = Some brow) /\
  (forall j, j <> ii ->
             chain_row s' j = chain_row s j /\
             self_bchain (self s') !! j = self_bchain (self s) !! j).
Proof.
  intros Hok Hrun. pose proof (sample_iteration_post niter nx nb xs outdir ii x s Hok) as H.
  unfold post in H. rewrite Hrun in H.
  destruct H as (a & row & brow & Ha & Hrow & Hbrow & P & C & B & _).
  apply broadcast_row_spec in Hrow, Hbrow.
  destruct Hrow as [Hrow Hrl], Hbrow as [Hbrow Hbl].
  destruct (chains_ok_row _ _ _ _ _ _ Hok Ha) as [Hlt Hlen].
  pose proof Hok as (L & N & F & LB & FB).
  assert (Hii : ii < length (self_bchain (self s))).
  { rewrite LB, <- L. eapply lookup_lt_Some. exact Ha. }
  split; [| split].
  - unfold chains_ok. rewrite C, B, length_insert.
    do 2 (split; [assumption |]). split; [| split; [assumption |]].
    + eapply Forall_impl; [exact F |]. intros a' [Ha' Hlen']. cbv beta.
      assert (Ha'' : a' < length (<[a := row]> (heap (env s))))
        by (rewrite length_insert; exact Ha').
      rewrite (prefix_lookup_total _ _ _ P Ha''). apply prefix_length in P.
      rewrite length_insert in P. split; [lia |].
      destruct (decide (a = a')) as [-> | Hne].
      * rewrite list_lookup_total_insert_eq by exact Ha'. exact Hrl.
      * rewrite list_lookup_total_insert_ne by exact Hne. exact Hlen'.
    + apply Forall_insert; assumption.
  - exists row, brow. do 2 (split; [assumption |]). split.
    + unfold chain_row. rewrite C, Ha.
      eapply prefix_lookup_Some; [| exact P]. now apply list_lookup_insert_eq.
    + rewrite B. now apply list_lookup_insert_eq.
  - intros j Hj. split.
    + unfold chain_row. rewrite C.
      destruct (self_chain (self s) !! j) as [a' |] eqn:Ha'; [| reflexivity].
      assert (Hne : a <> a').
      { intros <-. apply Hj. eapply NoDup_lookup; eassumption. }
      destruct (chains_ok_row _ _ _ _ _ _ Hok Ha') as [Hlt' _].
      destruct (lookup_lt_is_Some_2 _ _ Hlt') as [v Hv]. rewrite Hv.
      eapply prefix_lookup_Some; [| exact P].
      rewrite list_lookup_insert_ne by exact Hne. exact Hv.
    + rewrite B. apply list_lookup_insert_ne. congruence.
Qed.

(** The loop of [sample]: the chains stay allocated, the rows before the
    first pass are not written, and row [i] holds what pass [i] started
    with. *)
Lemma sample_loop_rows (niter nx nb : nat) (xs : addr) (outdir : string) (n : nat) :
  forall (lo : nat) (x xf : addr) (s sf : World X),
    chains_ok niter nx nb s ->
    for_range n lo (sample_iteration X xs outdir) x s = Ok xf sf ->
    chains_ok niter nx nb sf /\
    (forall j, j < lo ->
               chain_row sf j = chain_row s j /\
               self_bchain (self sf) !! j = self_bchain (self s) !! j) /\
    (forall i, lo <= i < lo + n ->
       exists x_i s_i row brow,
         for_range (i - lo) lo (sample_iteration X xs outdir) x s = Ok x_i s_i /\
         assigned_row nx (heap (env s_i) !!! x_i) row /\
         assigned_row nb (self_b (self s_i)) brow /\
         chain_row sf i = Some row /\ self_bchain (self sf) !! i = Some brow).
Proof.
  induction n as [| n IH]; intros lo x xf s sf Hok; simpl.
  - intros [= <- <-]. split; [exact Hok |]. split; [auto | intros i Hi; lia].
  - intros Hrun. apply bind_Ok_inv in Hrun. destruct Hrun as (x1 & s1 & Hbody & Hrest).
    destruct (sample_iteration_rows _ _ _ _ _ _ _ _ _ _ Hok Hbody)
      as (Hok1 & (row & brow & Hrow & Hbrow & Hc & Hb) & Hother).
    destruct (IH (S lo) x1 xf s1 sf Hok1 Hrest) as (Hokf & Hbefore & Hin).
    split; [exact Hokf |]. split.
    + intros j Hj. destruct (Hbefore j ltac:(lia)) as [H1 H2].
      destruct (Hother j ltac:(lia)) as [H3 H4]. split; congruence.
    + intros i Hi. destruct (decide (i = lo)) as [-> | Hne].
      * exists x, s, row, brow. rewrite Nat.sub_diag.
        destruct (Hbefore lo ltac:(lia)) as [H1 H2].
        split; [reflexivity |]. do 2 (split; [assumption |]). split; congruence.
      * destruct (Hin i ltac:(lia)) as (x_i & s_i & row_i & brow_i & Hpre & Hrest_i).
        exists x_i, s_i, row_i, brow_i. split; [| exact Hrest_i].
        replace (i - lo) with (S (i - S lo)) by lia. simpl.
        unfold bind. rewrite Hbody. exact Hpre.
Qed.

(** X18. In a run of [sample] that returns, row [i] of [self.chain] and of
    [self.bchain] hold the parameter vector and the latent vector with
    which pass [i] of the loop started: the state that the loop reaches
    when it stops before pass [i]. No later pass writes the row. *)
Theorem chain_rows_hold_pass_start (w w0 wf : World X) (xs x0 xf : addr)
    (outdir : string) (niter start : nat) (resume : bool) (i : nat) :
  sample_prologue X xs outdir niter resume w = Ok (start, x0) w0 ->
  sample_loop X xs outdir niter start x0 w0 = Ok xf wf ->
  start <= i < niter ->
  exists (x_i : addr) (w_i : World X) (row brow : vec),
    sample_loop X xs outdir i start x0 w0 = Ok x_i w_i /\
    assigned_row (length (heap (env w) !!! xs)) (heap (env w_i) !!! x_i) row /\
    assigned_row (length (self_b (self w))) (self_b (self w_i)) brow /\
    chain_row wf i = Some row /\
    self_bchain (self wf) !! i = Some brow.
Proof.
  intros Hpro Hloop Hi.
  pose proof (sample_prologue_post w xs outdir niter resume) as H.
  unfold post in H. rewrite Hpro in H. destruct H as (Hok & _ & _).
  unfold sample_loop in *.
  destruct (sample_loop_rows _ _ _ xs outdir (niter - start) start x0 xf w0 wf Hok Hloop)
    as (_ & _ & Hin).
  apply Hin. lia.
Qed.

End Chains.

(** ** A run of one pass *)

(** Evaluates a statement on concrete data up to the test for the
    redraw of the latent vector. *)
Ltac run_to_test :=
  cbv -[IZR Rplus Rmult Ropp Rminus Rdiv Rinv Rtrigo_def.exp ln R_sqrt.sqrt
        Req_dec_T Rlt_dec Int_part up all_differ_from].

Lemma rho_only_run :
  exists w0 xf wf,
    sample_prologue fixed_collaborators 0 "out" 1 false (rho_only_world "mh") = Ok (0, 0) w0 /\
    sample_loop fixed_collaborators 0 "out" 1 0 0 w0 = Ok xf wf.
Proof.
  eexists _, _, _. split.
  - run. reflexivity.
  - run_to_test.
    rewrite all_differ_from_last_unchanged; [| apply Reqb_refl | reflexivity].
    reflexivity.
Qed.

Lemma chain_rows_hold_pass_start_witness :
  exists (w0 wf : World fixed_collaborators) (xf : addr),
    sample_prologue fixed_collaborators 0 "out" 1 false (rho_only_world "mh") = Ok (0, 0) w0 /\
    sample_loop fixed_collaborators 0 "out" 1 0 0 w0 = Ok xf wf /\
    exists (x_i : addr) (w_i : World fixed_collaborators) (row brow : vec),
      sample_loop fixed_collaborators 0 "out" 0 0 0 w0 = Ok x_i w_i /\
      assigned_row (length (heap (env (rho_only_world "mh")) !!! 0))
                   (heap (env w_i) !!! x_i) row /\
      assigned_row (length (self_b (self (rho_only_world "mh")))) (self_b (self w_i)) brow /\
      chain_row wf 0 = Some row /\
      self_bchain (self wf) !! 0 = Some brow.
Proof.
  destruct rho_only_run as (w0 & xf & wf & Hpro & Hloop).
  exists w0, wf, xf. split; [exact Hpro |]. split; [exact Hloop |].
  apply (chain_rows_hold_pass_start fixed_collaborators (rho_only_world "mh") w0 wf 0 0 xf
           "out" 1 0 false 0 Hpro Hloop).
  lia.
Defined.

(** * Snapshots that are due *)

Section DueSnapshots.

Context (X : Externals).

(** X19. A pass whose index is a positive multiple of [100] and that returns
    has written both snapshots: [chain.npy] holds the rows [0 .. ii] of
    [self.chain], [bchain.npy] the rows [0 .. ii] of [self.bchain]. *)
Theorem due_snapshot_holds_rows (niter nx nb : nat) (xs : addr) (outdir : string)
    (ii : nat) (x x' : addr) (s s' : World X) :
  chains_ok niter nx nb s ->
  sample_iteration X xs outdir ii x s = Ok x' s' ->
  snapshot_due ii = true ->
  exists rows brows,
    fs (env s') !! (outdir +:+ "/chain.npy") = Some (NpyArray rows) /\
    fs (env s') !! (outdir +:+ "/bchain.npy") = Some (NpyArray brows) /\
    length rows = ii + 1 /\ length brows = ii + 1 /\
    forall j, j <= ii ->
              rows !! j = chain_row s' j /\ brows !! j = self_bchain (self s') !! j.
Proof.
  intros Hok Hrun Hdue.
  pose proof (sample_iteration_post X niter nx nb xs outdir ii x s Hok) as H.
  unfold post in H. rewrite Hrun in H.
  destruct H as (a & row & brow & Ha & _ & _ & _ & C & B & Hfiles).
  destruct (Hfiles Hdue) as [Hc Hb].
  destruct (sample_iteration_rows X _ _ _ _ _ _ _ _ _ _ Hok Hrun) as (Hok' & _ & _).
  pose proof Hok' as (L & _ & F & LB & _).
  assert (Hii : ii < niter) by (rewrite <- L, C; eapply lookup_lt_Some; exact Ha).
  eexists _, _. split; [exact Hc |]. split; [exact Hb |].
  split; [rewrite length_map, length_take; lia |].
  split; [rewrite length_take; lia |].
  intros j Hj. split.
  - rewrite list_lookup_fmap, lookup_take_lt by lia. unfold chain_row.
    destruct (self_chain (self s') !! j) as [a' |] eqn:Ha'; [| reflexivity]. cbn.
    destruct (chains_ok_row X _ _ _ _ _ _ Hok' Ha') as [Hlt _].
    symmetry. now apply list_lookup_lookup_total_lt.
  - apply lookup_take_lt. lia.
Qed.

End DueSnapshots.

Lemma rho_only_pass_100 :
  exists w0 x' w',
    sample_prologue fixed_collaborators 0 "out" 101 false (rho_only_world "mh")
    = Ok (0, 0) w0 /\
    sample_iteration fixed_collaborators 0 "out" 100 0 w0 = Ok x' w'.
Proof.
  eexists _, _, _. split.
  - run. reflexivity.
  - run_to_test.
    rewrite all_differ_from_last_unchanged; [| apply Reqb_refl | reflexivity].
    reflexivity.
Qed.

Lemma due_snapshot_holds_rows_witness :
  exists (w0 w' : World fixed_collaborators),
    chains_ok 101 (length (heap (env (rho_only_world "mh")) !!! 0))
              (length (self_b (self (rho_only_world "mh")))) w0 /\
    exists rows brows,
      fs (env w') !! ("out" +:+ "/chain.npy") = Some (NpyArray rows) /\
      fs (env w') !! ("out" +:+ "/bchain.npy") = Some (NpyArray brows) /\
      length rows = 100 + 1 /\ length brows = 100 + 1 /\
      forall j, j <= 100 ->
                rows !! j = chain_row w' j /\ brows !! j = self_bchain (self w') !! j.
Proof.
  destruct rho_only_pass_100 as (w0 & x' & w' & Hpro & Hpass).
  pose proof (sample_prologue_post fixed_collaborators (rho_only_world "mh") 0 "out" 101
                false) as H.
  unfold post in H. rewrite Hpro in H. destruct H as (Hok & _ & _).
  exists w0, w'. split; [exact Hok |].
  exact (due_snapshot_holds_rows fixed_collaborators _ _ _ 0 "out" 100 0 x' w0 w' Hok Hpass
           eq_refl).
Defined.

(** * The red-noise block without its prerequisites *)

Section RedEdges.

Context (X : Externals).

(** X20. [get_lnlikelihood_red] reads the spectra of the signals whose names
    contain ['red'] and ['gw']: on an object without one of them it
    raises, [AttributeError] when the vector maps to the parameters and
    the coefficients of the free spectrum are there. *)
Theorem lnlikelihood_red_needs_both_signals (g : Gibbs X) (xs : vec) :
  self_red_sig (setup g) = None \/ self_gw_sig (setup g) = None ->
  exists e, get_lnlikelihood_red X g xs = inl e /\
            ((exists d, map_params X g xs = inr d) ->
             (exists t, quadrature_tau X g = inr t) ->
             e = AttributeError).
Proof.
  intros Hnone. unfold get_lnlikelihood_red, and_then.
  destruct (map_params X g xs) as [e | params].
  { exists e. split; [reflexivity |]. intros [d Hd]. discriminate. }
  destruct (quadrature_tau X g) as [e | tau].
  { exists e. split; [reflexivity |]. intros _ [t Ht]. discriminate. }
  unfold signal_phi.
  destruct (self_red_sig (setup g)) as [red |]; [| eauto].
  destruct (self_gw_sig (setup g)) as [gw |]; [| eauto].
  destruct Hnone; discriminate.
Qed.

(** X21. A production call of [update_red_params] on an object that has no
    engine yet fails: [self.ptsampler_rn] is assigned by the tuning call
    only. When the red-noise likelihood and the prior evaluate on the
    vector, the exception is the [AttributeError] of the first engine
    step, and the copy of the vector is all that was made. *)
Theorem red_production_needs_tuning (w : World X) (xs : addr) :
  self_ptsampler_rn (self w) = None ->
  (exists e w', update_red_params X xs None w = Raise e w') /\
  forall l p,
    get_lnlikelihood_red X (self w) (heap (env w) !!! xs) = inr l ->
    get_lnprior X (self w) (heap (env w) !!! xs) = inr p ->
    update_red_params X xs None w =
    Raise AttributeError (on_env (fun e => set_heap (heap e ++ [heap (env w) !!! xs]) e) w).
Proof.
  intros Hnone. split.
  - assert (H : post (update_red_params X xs None) w (fun _ _ => False) (fun _ => True)).
    { unfold update_red_params.
      apply post_bind, post_gets. cbv beta zeta.
      apply post_bind, post_np_copy. cbv beta.
      apply post_bind, post_load.
      apply post_bind, post_lift_result; [intros l0 _ | auto].
      apply post_bind, post_lift_result; [intros l1 _ | auto].
      apply post_bind, post_lift_result; [intros lp _ | auto].
      cbv zeta. cbn [for_range]. apply post_bind.
      unfold engine_one_step. apply post_bind, post_get.
      cbn [self on_env]. rewrite Hnone. apply post_bind. exact I. }
    unfold post in H. destruct (update_red_params X xs None w) as [a w' | e w'];
      [contradiction | eauto].
  - intros l p Hl Hp. unfold update_red_params.
    unfold bind at 1, gets at 1. unfold bind at 1.
    change (np_copy xs w)
      with (Ok (length (heap (env w)))
               (on_env (fun e => set_heap (heap e ++ [heap (env w) !!! xs]) e) w)).
    cbv beta iota. unfold bind at 1, load at 1, gets at 1.
    cbn [the_env World_HasEnv env on_env heap set_heap].
    rewrite lookup_total_at_end.
    unfold bind at 1. rewrite Hl. cbn [lift_result ret].
    unfold bind at 1. cbn [lift_result ret].
    unfold bind at 1. rewrite Hp. cbn [lift_result ret].
    cbn [for_range]. unfold bind at 1, engine_one_step at 1.
    unfold bind at 1, get at 1. unfold bind at 1.
    cbn [self on_env]. rewrite Hnone. reflexivity.
Qed.

End RedEdges.

Lemma lnlikelihood_red_needs_both_signals_witness :
  exists e, get_lnlikelihood_red fixed_collaborators (self (small_world "conditional"))
              [Fin 1; Fin (-7); Fin (-7)] = inl e /\
            ((exists d, map_params fixed_collaborators (self (small_world "conditional"))
                          [Fin 1; Fin (-7); Fin (-7)] = inr d) ->
             (exists t, quadrature_tau fixed_collaborators (self (small_world "conditional"))
                        = inr t) ->
             e = AttributeError).
Proof.
  apply (lnlikelihood_red_needs_both_signals fixed_collaborators
           (self (small_world "conditional"))).
  left. reflexivity.
Defined.

Lemma red_production_needs_tuning_witness :
  (exists e w', update_red_params fixed_collaborators 0 None (small_world "conditional")
                = Raise e w') /\
  forall l p,
    get_lnlikelihood_red fixed_collaborators (self (small_world "conditional"))
      (heap (env (small_world "conditional")) !!! 0) = inr l ->
    get_lnprior fixed_collaborators (self (small_world "conditional"))
      (heap (env (small_world "conditional")) !!! 0) = inr p ->
    update_red_params fixed_collaborators 0 None (small_world "conditional") =
    Raise AttributeError
      (on_env (fun e => set_heap (heap e ++ [heap (env (small_world "conditional")) !!! 0]) e)
              (small_world "conditional")).
Proof.
  apply (red_production_needs_tuning fixed_collaborators (small_world "conditional") 0).
  reflexivity.
Defined.

(** ** The layout at the small configuration *)

Lemma index_getters_increasing_witness :
  (forall j k x y,
      get_efacequad_indices fixed_collaborators (self (small_world "conditional")) !! j
      = Some x ->
      get_efacequad_indices fixed_collaborators (self (small_world "conditional")) !! k
      = Some y ->
      j < k -> x < y) /\
  NoDup (get_efacequad_indices fixed_collaborators (self (small_world "conditional"))) /\
  Forall (fun i => i < length (param_names fixed_collaborators
                                 (self (small_world "conditional"))))
         (get_efacequad_indices fixed_collaborators (self (small_world "conditional"))).
Proof.
  apply (index_getters_increasing fixed_collaborators (self (small_world "conditional"))).
  right. right. left.
Defined.

Lemma small_map_params :
  exists d, map_params fixed_collaborators (self (small_world "conditional"))
              [Fin 1; Fin (-7); Fin (-7)] = inr d.
Proof. eexists. run. reflexivity. Qed.

Lemma small_names_distinct :
  NoDup (map par_name (self_params fixed_collaborators (self (small_world "conditional")))).
Proof.
  cbn. repeat (apply NoDup_cons; split;
               [rewrite ?elem_of_cons, elem_of_nil; intros Hin;
                repeat (destruct Hin as [Hin | Hin]; [discriminate Hin |]); exact Hin |]).
  apply NoDup_nil_2.
Qed.

Lemma map_params_reads_named_entries_witness :
  exists d,
    map_params fixed_collaborators (self (small_world "conditional"))
      [Fin 1; Fin (-7); Fin (-7)] = inr d /\
    (map_params fixed_collaborators (self (small_world "conditional"))
       [Fin 1; Fin (-7); Fin (-7); Fin 5] = inr d <->
     take (length (param_names fixed_collaborators (self (small_world "conditional"))))
          [Fin 1; Fin (-7); Fin (-7); Fin 5]
     = take (length (param_names fixed_collaborators (self (small_world "conditional"))))
            [Fin 1; Fin (-7); Fin (-7)]).
Proof.
  destruct small_map_params as (d & Hd). exists d. split; [exact Hd |].
  apply (map_params_reads_named_entries fixed_collaborators
           (self (small_world "conditional")) [Fin 1; Fin (-7); Fin (-7)]
           [Fin 1; Fin (-7); Fin (-7); Fin 5] d).
  - exact small_names_distinct.
  - exact Hd.
Defined.

Lemma map_params_returns_witness :
  exists d, map_params fixed_collaborators (self (small_world "conditional"))
              [Fin 1; Fin (-7); Fin (-7)] = inr d /\
            forall k, is_Some (d !! k) <->
                      k ∈ map par_name (self_params fixed_collaborators
                                          (self (small_world "conditional"))).
Proof.
  apply (map_params_returns fixed_collaborators (self (small_world "conditional"))).
  vm_compute. lia.
Defined.

Lemma map_params_raises_witness :
  IndexError = IndexError /\
  length (@nil float) < length (param_names fixed_collaborators
                                  (self (small_world "conditional"))).
Proof.
  apply (map_params_raises fixed_collaborators (self (small_world "conditional")) []).
  reflexivity.
Defined.

Lemma map_params_values_witness :
  exists x, [Fin 1; Fin (-7); Fin (-7)] !! 1 = Some x /\
            exists d, map_params fixed_collaborators (self (small_world "conditional"))
                        [Fin 1; Fin (-7); Fin (-7)] = inr d /\
                      d !! "J0000+0000_log10_t2equad" = Some (PFloat x).
Proof.
  destruct small_map_params as (d & Hd).
  pose proof (map_params_values fixed_collaborators (self (small_world "conditional"))
                [Fin 1; Fin (-7); Fin (-7)] d 1
                {| par_name := "J0000+0000_log10_t2equad"; par_size := None;
                   par_repr := "J0000+0000_log10_t2equad:Uniform(pmin=-8.5, pmax=-5)";
                   par_sample := fun _ => PFloat (Fin (-7)); par_get_logpdf := flat_prior |}
                Hd) as H.
  destruct H as (x & Hx & Hv).
  - cbn. repeat (apply NoDup_cons; split;
                 [rewrite ?elem_of_cons, elem_of_nil; intros Hin;
                  repeat (destruct Hin as [Hin | Hin]; [discriminate Hin |]); exact Hin |]).
    apply NoDup_nil_2.
  - reflexivity.
  - exists x. split; [exact Hx |]. exists d. split; [exact Hd | exact Hv].
Defined.

(** * The analytic draw in binary64 *)

(** C5. In binary64 the closed-form draw leaves the prior range. With the
    bounds [rhomin = 1e-20], [rhomax = 1e-10], the statistic
    [tau = 1.8e-36] and the value [0.875] of [random_sample()], the upper
    end [1 - exp(tau/rhomax - tau/rhomin)] is [2**-52], the variate
    [eta = 1.75 * 2**-53] lies strictly between [0] and that end, and
    [rhonew = tau / (tau/rhomax - log(1 - eta))] is about [8.1e-21],
    below [rhomin]. The C library enters with its values at two
    arguments: the exponential of [tau/rhomax - tau/rhomin], about
    [-1.8e-16], and the logarithm of [1 - eta = 1 - 2**-52], each the
    nearest binary64 number. *)
Theorem rhonew_analytic_b64_below_rhomin (L : Binary64.Libm) :
  Binary64.np_exp L Binary64.exp_argument = Binary64.exp_value ->
  Binary64.np_log L Binary64.log_argument = Binary64.log_value ->
  PrimFloat.ltb PrimFloat.zero Binary64.tau_small = true /\
  PrimFloat.ltb PrimFloat.zero Binary64.rhomin_1e20 = true /\
  PrimFloat.ltb Binary64.rhomin_1e20 Binary64.rhomax_1e10 = true /\
  PrimFloat.sub (PrimFloat.div Binary64.tau_small Binary64.rhomax_1e10)
                (PrimFloat.div Binary64.tau_small Binary64.rhomin_1e20)
  = Binary64.exp_argument /\
  Binary64.eta_upper_b64 L Binary64.rhomin_1e20 Binary64.rhomax_1e10 Binary64.tau_small
  = Binary64.eta_end /\
  Binary64.np_random_uniform_b64 PrimFloat.zero Binary64.eta_end Binary64.u_sample
  = Binary64.eta_drawn /\
  PrimFloat.ltb PrimFloat.zero Binary64.eta_drawn = true /\
  PrimFloat.ltb Binary64.eta_drawn Binary64.eta_end = true /\
  PrimFloat.sub PrimFloat.one Binary64.eta_drawn = Binary64.log_argument /\
  Binary64.rhonew_analytic_b64 L Binary64.rhomax_1e10 Binary64.tau_small Binary64.eta_drawn
  = Binary64.rhonew_small /\
  PrimFloat.ltb Binary64.rhonew_small Binary64.rhomin_1e20 = true.
Proof.
  intros Hexp Hlog.
  assert (Harg : PrimFloat.sub (PrimFloat.div Binary64.tau_small Binary64.rhomax_1e10)
                               (PrimFloat.div Binary64.tau_small Binary64.rhomin_1e20)
                 = Binary64.exp_argument) by (vm_compute; reflexivity).
  assert (Hy : PrimFloat.sub PrimFloat.one Binary64.eta_drawn = Binary64.log_argument)
    by (vm_compute; reflexivity).
  assert (Hhi : Binary64.eta_upper_b64 L Binary64.rhomin_1e20 Binary64.rhomax_1e10
                  Binary64.tau_small = Binary64.eta_end).
  { unfold Binary64.eta_upper_b64. rewrite Harg, Hexp. vm_compute. reflexivity. }
  assert (Hrho : Binary64.rhonew_analytic_b64 L Binary64.rhomax_1e10 Binary64.tau_small
                   Binary64.eta_drawn = Binary64.rhonew_small).
  { unfold Binary64.rhonew_analytic_b64.
    unfold PrimFloat.one in Hy. rewrite Hy, Hlog. vm_compute. reflexivity. }
  repeat split; try assumption; vm_compute; reflexivity.
Qed.

Lemma rhonew_analytic_b64_below_rhomin_witness :
  PrimFloat.ltb PrimFloat.zero Binary64.tau_small = true /\
  PrimFloat.ltb PrimFloat.zero Binary64.rhomin_1e20 = true /\
  PrimFloat.ltb Binary64.rhomin_1e20 Binary64.rhomax_1e10 = true /\
  PrimFloat.sub (PrimFloat.div Binary64.tau_small Binary64.rhomax_1e10)
                (PrimFloat.div Binary64.tau_small Binary64.rhomin_1e20)
  = Binary64.exp_argument /\
  Binary64.eta_upper_b64 Binary64.two_value_libm Binary64.rhomin_1e20 Binary64.rhomax_1e10
    Binary64.tau_small
  = Binary64.eta_end /\
  Binary64.np_random_uniform_b64 PrimFloat.zero Binary64.eta_end Binary64.u_sample
  = Binary64.eta_drawn /\
  PrimFloat.ltb PrimFloat.zero Binary64.eta_drawn = true /\
  PrimFloat.ltb Binary64.eta_drawn Binary64.eta_end = true /\
  PrimFloat.sub PrimFloat.one Binary64.eta_drawn = Binary64.log_argument /\
  Binary64.rhonew_analytic_b64 Binary64.two_value_libm Binary64.rhomax_1e10
    Binary64.tau_small Binary64.eta_drawn
  = Binary64.rhonew_small /\
  PrimFloat.ltb Binary64.rhonew_small Binary64.rhomin_1e20 = true.
Proof.
  apply (rhonew_analytic_b64_below_rhomin Binary64.two_value_libm); vm_compute; reflexivity.
Defined.
